(** * Crank-Nicolson heat flow: the notebook [heatflow.ipynb] in Rocq

    The notebook assembles banded matrices with [scipy.sparse.diags],
    and steps a 1D field with [spsolve] and a 2D field with [cgs].
    Its plotting cells are kept as the data they hand to matplotlib.  The
    file holds a second notebook as well, which compares the
    magnetization of Ising snapshots with their projection on the first
    principal component; its comparison cell is modelled for given
    snapshots, temperatures and component.

    Conventions of the embedding.
    - float64 values are idealised as exact rationals [Q]; equality of
      computed values is [Qeq] ([==]).  Accordingly a computed value is
      compared with the expression the code computes it by, a library
      solver is taken as a function (what it was called with, what it
      returned), and statements on solutions are about the exact
      solutions of the assembled systems, not about the rounded values
      a solver returns.  Where rounding decides a property, the
      computation is also given in binary64 ([float]).
    - Python exceptions are the [Raise] branch of [result].
    - [nan] is [None].
    - numpy arrays are lists; an [N x N] array is a list of rows.
    - [scipy.sparse] matrices are kept in DIA form (offsets plus one data
      row per offset, indexed by column), the form [diags] builds;
      [.tocsr()] and [format="csr"] change the storage, not the entries. *)

From Stdlib Require Import Floats.
From Stdlib Require Import QArith Qabs Qpower ZArith List Lia Lqa Bool Arith.
Import ListNotations.

Open Scope Q_scope.

(** ** Exceptions *)

Inductive pyerr : Type := ValueError | IndexError.

Inductive result (A : Type) : Type :=
| Ok (a : A)
| Raise (e : pyerr).

Arguments Ok {A} a.
Arguments Raise {A} e.

Definition bind {A B : Type} (x : result A) (f : A -> result B) : result B :=
  match x with
  | Ok a => f a
  | Raise e => Raise e
  end.

Notation "x <- e1 ;; e2" := (bind e1 (fun x => e2))
  (at level 61, e1 at next level, right associativity).

Definition is_ok {A : Type} (x : result A) : bool :=
  match x with Ok _ => true | Raise _ => false end.

Fixpoint mapM {A B : Type} (f : A -> result B) (l : list A) : result (list B) :=
  match l with
  | [] => Ok []
  | a :: t => b <- f a ;; bs <- mapM f t ;; Ok (b :: bs)
  end.

(** ** numpy vectors *)

Definition vec := list Q.

Definition Qsum (l : vec) : Q := fold_right Qplus 0 l.

(** [sumn n f] is the sum of [f 0 .. f (n-1)]. *)
Definition sumn (n : nat) (f : nat -> Q) : Q := Qsum (map f (seq 0 n)).

(** [np.ones(n)], [np.zeros(n)]: negative dimensions are not allowed. *)
Definition np_ones (n : Z) : result vec :=
  if (n <? 0)%Z then Raise ValueError else Ok (repeat 1 (Z.to_nat n)).

Definition np_zeros (n : Z) : result vec :=
  if (n <? 0)%Z then Raise ValueError else Ok (repeat 0 (Z.to_nat n)).

(** [c * v] *)
Definition scal (c : Q) (v : vec) : vec := map (Qmult c) v.

(** Normalisation of one slice bound against a length. *)
Definition slice_bound (len : nat) (i : Z) : nat :=
  if (i <? 0)%Z then Z.to_nat (Z.max (i + Z.of_nat len) 0)
  else Nat.min (Z.to_nat i) len.

(** [v[a:b]] *)
Definition py_slice (v : vec) (a b : Z) : vec :=
  let lo := slice_bound (length v) a in
  let hi := slice_bound (length v) b in
  firstn (hi - lo) (skipn lo v).

(** [v[:-1]] *)
Definition drop_last (v : vec) : vec := py_slice v 0 (-1).

(** [v[a:b] = c] *)
Definition py_slice_fill (v : vec) (a b : Z) (c : Q) : vec :=
  let lo := slice_bound (length v) a in
  let hi := slice_bound (length v) b in
  firstn lo v ++ repeat c (hi - lo) ++ skipn (lo + (hi - lo)) v.

(** Position of index [i] (negative counts from the end), if in range. *)
Definition py_pos (len : nat) (i : Z) : result nat :=
  let j := if (i <? 0)%Z then (i + Z.of_nat len)%Z else i in
  if ((0 <=? j) && (j <? Z.of_nat len))%Z then Ok (Z.to_nat j)
  else Raise IndexError.

(** [v[i]] *)
Definition py_get (v : vec) (i : Z) : result Q :=
  p <- py_pos (length v) i ;; Ok (nth p v 0).

Fixpoint set_nth {A : Type} (p : nat) (x : A) (l : list A) : list A :=
  match l, p with
  | [], _ => []
  | _ :: t, O => x :: t
  | a :: t, S p' => a :: set_nth p' x t
  end.

(** [v[i] = x] *)
Definition py_set (v : vec) (i : Z) (x : Q) : result vec :=
  p <- py_pos (length v) i ;; Ok (set_nth p x v).

(** ** scipy.sparse: DIA matrices and [diags] *)

Record dia_matrix : Type := mk_dia {
  dia_shape : nat;              (* the matrix is [dia_shape x dia_shape] *)
  dia_offsets : list Z;
  dia_data : list vec           (* one row per offset, indexed by column *)
}.

(** Stored length of the diagonal at [off] in an [m x m] matrix:
    [min(m + off, m - off, m)]. *)
Definition diag_length (m off : Z) : Z :=
  Z.min (Z.min (m + off) (m - off)) m.

(** Number of columns of the data array built by [diags]. *)
Definition data_cols (m : Z) (offsets : list Z) : Z :=
  Z.max 0 (fold_right Z.max 0%Z
     (map (fun off => (Z.min (m + off) (m - off) + Z.max 0 off)%Z) offsets)).

(** The assignment [data_arr[j, k:k+length] = diagonal[..., :length]]:
    a diagonal at least as long as the band is truncated, one of length 1
    is broadcast, anything else does not fit. *)
Definition diag_row (m cols : Z) (d : vec) (off : Z) : result vec :=
  let k := Z.to_nat (Z.max 0 off) in
  let len := diag_length m off in
  if (len <? 0)%Z then Raise ValueError else
  let n := Z.to_nat len in
  let pad := (Z.to_nat cols - k - n)%nat in
  if (n <=? length d)%nat then Ok (repeat 0 k ++ firstn n d ++ repeat 0 pad)
  else match d with
       | [x] => Ok (repeat 0 k ++ repeat x n ++ repeat 0 pad)
       | _ => Raise ValueError
       end.

Fixpoint has_dup (l : list Z) : bool :=
  match l with
  | [] => false
  | x :: t => existsb (Z.eqb x) t || has_dup t
  end.

(** [diags(diagonals, offsets)] with the shape inferred from the first
    diagonal.  The last test is the one [dia_matrix] makes on its offsets. *)
Definition diags (diagonals : list vec) (offsets : list Z) : result dia_matrix :=
  if negb (length diagonals =? length offsets)%nat then Raise ValueError else
  match diagonals, offsets with
  | d0 :: _, o0 :: _ =>
      let m := (Z.of_nat (length d0) + Z.abs o0)%Z in
      let cols := data_cols m offsets in
      rows <- mapM (fun p => diag_row m cols (fst p) (snd p))
                   (combine diagonals offsets) ;;
      if has_dup offsets then Raise ValueError
      else Ok (mk_dia (Z.to_nat m) offsets rows)
  | _, _ => Raise IndexError
  end.

(** Storage conversion: same entries. *)
Definition tocsr (A : dia_matrix) : dia_matrix := A.

(** Entry [A[i, j]]: the bands whose offset is [j - i] contribute their
    element in column [j]. *)
Definition band_entry (i j : nat) (off : Z) (row : vec) : Q :=
  if (off =? Z.of_nat j - Z.of_nat i)%Z then nth j row 0 else 0.

Definition entry (A : dia_matrix) (i j : nat) : Q :=
  if ((i <? dia_shape A) && (j <? dia_shape A))%nat then
    Qsum (map (fun p => band_entry i j (fst p) (snd p))
              (combine (dia_offsets A) (dia_data A)))
  else 0.

(** Contribution of one band to row [i] of [A @ x]. *)
Definition band_dot (m i : nat) (x : vec) (off : Z) (row : vec) : Q :=
  let j := (Z.of_nat i + off)%Z in
  if ((0 <=? j) && (j <? Z.of_nat m))%Z
  then nth (Z.to_nat j) row 0 * nth (Z.to_nat j) x 0
  else 0.

Definition row_dot (A : dia_matrix) (x : vec) (i : nat) : Q :=
  Qsum (map (fun p => band_dot (dia_shape A) i x (fst p) (snd p))
            (combine (dia_offsets A) (dia_data A))).

(** [A @ x] *)
Definition mat_vec (A : dia_matrix) (x : vec) : result vec :=
  if negb (length x =? dia_shape A)%nat then Raise ValueError
  else Ok (map (row_dot A x) (seq 0 (dia_shape A))).

(** ** 1D: the sparse system *)

(** [ones = np.ones(N - 2)];
    [A = diags([-1*ones[:-1], 4*ones, -1*ones[:-1]], [-1, 0, 1]).tocsr()] *)
Definition assemble_A1 (N : Z) : result dia_matrix :=
  ones <- np_ones (N - 2) ;;
  A <- diags [scal (-1) (drop_last ones); scal 4 ones; scal (-1) (drop_last ones)]
             [(-1)%Z; 0%Z; 1%Z] ;;
  Ok (tocsr A).

(** [B = diags([ones[:-1], ones[:-1]], [-1, 1])] *)
Definition assemble_B1 (N : Z) : result dia_matrix :=
  ones <- np_ones (N - 2) ;;
  diags [drop_last ones; drop_last ones] [(-1)%Z; 1%Z].

(** ** 2D: iteration matrix and inhomogeneity

    The diagonal coefficients [1 + 4*r] and [1 - 4*r] are kept exact
    here; [diag_A2_float64] below is the first as float64 rounds it. *)

(** [diagonals = [(1 + 4*r)*np.ones(N*N), -r*np.ones(N*N - 1),
                  -r*np.ones(N*N - 1), -r*np.ones(N*N - N), -r*np.ones(N*N - N)]];
    [A = diags(diagonals, [0, -1, 1, N, -N], format="csr")] *)
Definition assemble_A2 (r : Q) (N : Z) : result dia_matrix :=
  d0 <- np_ones (N * N) ;;
  d1 <- np_ones (N * N - 1) ;;
  d2 <- np_ones (N * N - 1) ;;
  d3 <- np_ones (N * N - N) ;;
  d4 <- np_ones (N * N - N) ;;
  A <- diags [scal (1 + 4 * r) d0; scal (- r) d1; scal (- r) d2;
              scal (- r) d3; scal (- r) d4]
             [0%Z; (-1)%Z; 1%Z; N; (- N)%Z] ;;
  Ok (tocsr A).

(** [diagonals = [(1-4*r)*np.ones(N*N), r*np.ones(N*N - 1), r*np.ones(N*N - 1),
                  r*np.ones(N*N - N), r*np.ones(N*N - N)]];
    [M = diags(diagonals, [0, -1, 1, -N, N], format="csr")] *)
Definition assemble_M2 (r : Q) (N : Z) : result dia_matrix :=
  d0 <- np_ones (N * N) ;;
  d1 <- np_ones (N * N - 1) ;;
  d2 <- np_ones (N * N - 1) ;;
  d3 <- np_ones (N * N - N) ;;
  d4 <- np_ones (N * N - N) ;;
  M <- diags [scal (1 - 4 * r) d0; scal r d1; scal r d2; scal r d3; scal r d4]
             [0%Z; (-1)%Z; 1%Z; (- N)%Z; N] ;;
  Ok (tocsr M).

(** ** Direct solver

    [spsolve(A, b)] factorises [A] and returns the solution of [A x = b].
    In exact arithmetic every direct method returns the same vector on a
    nonsingular system, so the elimination order is immaterial; the model
    eliminates in natural order ([elim]), which never meets a zero pivot on
    the systems the notebook assembles (see [spsolve_correct]).  On a
    singular matrix scipy warns and returns NaN; the model, dividing by a
    zero pivot, returns 0 there, and no assembled system reaches it. *)

(** Tabulation: the same function on indices below [n], computed once and
    stored in lowest terms. *)
Definition tab (n : nat) (f : nat -> Q) : nat -> Q :=
  let l := map (fun i => Qred (f i)) (seq 0 n) in fun i => nth i l 0.

Definition tab2 (n : nat) (f : nat -> nat -> Q) : nat -> nat -> Q :=
  let l := map (fun i => map (fun j => Qred (f i j)) (seq 0 n)) (seq 0 n) in
  fun i j => nth j (nth i l []) 0.

(** Gaussian elimination of the first unknown, then back substitution. *)
Fixpoint elim (n : nat) (a : nat -> nat -> Q) (b : nat -> Q) : nat -> Q :=
  match n with
  | O => fun _ => 0
  | S n' =>
      let p := a O O in
      let a' := tab2 n' (fun i j => a (S i) (S j) - a (S i) O * a O (S j) / p) in
      let b' := tab n' (fun i => b (S i) - a (S i) O * b O / p) in
      let y := tab n' (elim n' a' b') in
      let x0 := (b O - sumn n' (fun j => a O (S j) * y j)) / p in
      fun k => match k with O => x0 | S k' => y k' end
  end.

Definition spsolve (A : dia_matrix) (b : vec) : result vec :=
  if negb (length b =? dia_shape A)%nat then Raise ValueError
  else
    let x := elim (dia_shape A) (tab2 (dia_shape A) (entry A)) (fun i => nth i b 0) in
    Ok (map (fun i => Qred (x i)) (seq 0 (dia_shape A))).

(** ** 1D: initial configuration and time stepping *)

(** [arr = np.zeros(N)]; [arr[4*N//10: 6*N//10] = 100];
    [arr[0] = left_bc]; [arr[-1] = right_bc] *)
Definition initial_config (N : Z) (left_bc right_bc : Q) : result vec :=
  arr <- np_zeros N ;;
  let arr := py_slice_fill arr (4 * N / 10) (6 * N / 10) 100 in
  arr <- py_set arr 0 left_bc ;;
  py_set arr (-1) right_bc.

(** [np.zeros(shape=(rows, cols))] *)
Definition np_zeros2 (rows cols : Z) : result (list vec) :=
  if ((rows <? 0) || (cols <? 0))%Z then Raise ValueError
  else Ok (repeat (repeat 0 (Z.to_nat cols)) (Z.to_nat rows)).

(** [storage[i] = v]: the row index must exist and [v] must have the row's
    length or be broadcast from length 1. *)
Definition set_row (cols : nat) (storage : list vec) (i : Z) (v : vec)
  : result (list vec) :=
  p <- py_pos (length storage) i ;;
  if (length v =? cols)%nat then Ok (set_nth p v storage)
  else match v with
       | [x] => Ok (set_nth p (repeat x cols) storage)
       | _ => Raise ValueError
       end.

(** [range(a, b)] *)
Definition py_range (a b : Z) : list Z :=
  map (fun k => (a + Z.of_nat k)%Z) (seq 0 (Z.to_nat (b - a))).

Fixpoint for_each {S : Type} (body : Z -> S -> result S) (idx : list Z) (s : S)
  : result S :=
  match idx with
  | [] => Ok s
  | i :: t => s' <- body i s ;; for_each body t s'
  end.

(** The vector handed to the solver in one pass of the loop body:
    [left_side = interior_points[1]]; [right_side = interior_points[-2]];
    [interior_points = B@interior_points];
    [interior_points[0] = 2*left_bc + left_side];
    [interior_points[-1] = 2*right_bc + right_side] *)
Definition rhs_1d (B : dia_matrix) (left_bc right_bc : Q) (interior_points : vec)
  : result vec :=
  left_side <- py_get interior_points 1 ;;
  right_side <- py_get interior_points (-2) ;;
  interior_points <- mat_vec B interior_points ;;
  interior_points <- py_set interior_points 0 (2 * left_bc + left_side) ;;
  py_set interior_points (-1) (2 * right_bc + right_side).

(** ... followed by [interior_points = spsolve(A, interior_points)]. *)
Definition step_1d (A B : dia_matrix) (left_bc right_bc : Q) (interior_points : vec)
  : result vec :=
  rhs <- rhs_1d B left_bc right_bc interior_points ;;
  spsolve A rhs.

(** Loop state; [solves] counts the calls to the solver (ghost). *)
Record loop1 : Type := mk_loop1 {
  interior_points : vec;
  storage : list vec;
  solves1 : nat
}.

Definition body_1d (A B : dia_matrix) (left_bc right_bc : Q) (cols : nat)
    (i : Z) (s : loop1) : result loop1 :=
  u <- step_1d A B left_bc right_bc (interior_points s) ;;
  st <- set_row cols (storage s) i u ;;
  Ok (mk_loop1 u st (S (solves1 s))).

(** The 1D cells from the sparse system to the end of the loop, for a
    field [arr]; returns [storage] and the number of solves. *)
Definition run_1d (N : Z) (left_bc right_bc : Q) (t_end : Z) (arr : vec)
  : result (list vec * nat) :=
  A <- assemble_A1 N ;;
  B <- assemble_B1 N ;;
  let interior := py_slice arr 1 (-1) in
  st <- np_zeros2 t_end (N - 2) ;;
  let cols := Z.to_nat (N - 2) in
  st <- set_row cols st 0 interior ;;
  s <- for_each (body_1d A B left_bc right_bc cols) (py_range 1 t_end)
                (mk_loop1 interior st 0) ;;
  Ok (storage s, solves1 s).

(** ** 2D: initial values and time stepping *)

(** [values = np.zeros((N, N))]; [values[mask] = 10]; [values.flatten()].
    [mask i j] reads the boolean array at row [i], column [j]. *)
Definition initial_values (N : Z) (mask : nat -> nat -> bool) : result vec :=
  if (N <? 0)%Z then Raise ValueError else
  let n := Z.to_nat N in
  Ok (flat_map (fun i => map (fun j => if mask i j then 10 else 0) (seq 0 n))
               (seq 0 n)).

Fixpoint chunks (rows cols : nat) (v : vec) : list vec :=
  match rows with
  | O => []
  | S rows' => firstn cols v :: chunks rows' cols (skipn cols v)
  end.

(** [v.reshape((N, N))]; a negative [N] is refused. *)
Definition reshape (N : Z) (v : vec) : result (list vec) :=
  if (N <? 0)%Z then Raise ValueError
  else if (Z.of_nat (length v) =? N * N)%Z
  then Ok (chunks (Z.to_nat N) (Z.to_nat N) v)
  else Raise ValueError.

(** [np.zeros((steps, N, N))] *)
Definition np_zeros3 (steps N : Z) : result (list (list vec)) :=
  if ((steps <? 0) || (N <? 0))%Z then Raise ValueError
  else Ok (repeat (repeat (repeat 0 (Z.to_nat N)) (Z.to_nat N)) (Z.to_nat steps)).

(** [arr[i] = frame] *)
Definition set_frame (arr : list (list vec)) (i : Z) (frame : list vec)
  : result (list (list vec)) :=
  p <- py_pos (length arr) i ;; Ok (set_nth p frame arr).

Record loop2 : Type := mk_loop2 {
  values : vec;
  frames : list (list vec);
  solves2 : nat
}.

Section TimeStepping2D.

(** The iterative solver: returns the last iterate and the convergence
    flag [info] ([0] when the tolerance was met).  The scipy loop and the
    cupy loop of the notebook are the same code up to this function. *)
Variable cgs : dia_matrix -> vec -> vec * Z.

(** [values, _ = cgs(A, M@values)]; [arr[i] = values.reshape((N, N))] *)
Definition body_2d (A M : dia_matrix) (N : Z) (i : Z) (s : loop2)
  : result loop2 :=
  b <- mat_vec M (values s) ;;
  let v := fst (cgs A b) in
  frame <- reshape N v ;;
  arr <- set_frame (frames s) i frame ;;
  Ok (mk_loop2 v arr (S (solves2 s))).

(** The 2D cells in notebook order; returns [arr] and the number of
    solves. *)
Definition run_2d (r : Q) (N : Z) (mask : nat -> nat -> bool) (steps : Z)
  : result (list (list vec) * nat) :=
  A <- assemble_A2 r N ;;
  v0 <- initial_values N mask ;;
  M <- assemble_M2 r N ;;
  arr <- np_zeros3 steps N ;;
  frame0 <- reshape N v0 ;;
  arr <- set_frame arr 0 frame0 ;;
  s <- for_each (body_2d A M N) (py_range 1 steps) (mk_loop2 v0 arr 0) ;;
  Ok (frames s, solves2 s).

End TimeStepping2D.

(** ** The loops with the solver calls on record

    The same two loops over an arbitrary solver, one function in the
    place of [spsolve] and one in the place of [cgs], with every call
    kept: the matrix and the right-hand side the solver was given and
    the vector it returned.  [run_1d] and [run_2d] above are these loops
    with [spsolve] for the 1D solver and the calls counted
    ([run_1d_forget], [run_2d_forget]). *)

Record solver_call : Type := mk_call {
  call_matrix : dia_matrix;
  call_rhs : vec;
  call_result : vec
}.

Record calls1 : Type := mk_calls1 {
  c_points : vec;
  c_storage : list vec;
  c_log1 : list solver_call
}.

Record calls2 : Type := mk_calls2 {
  c_values : vec;
  c_frames : list (list vec);
  c_log2 : list solver_call
}.

Section SolverCalls.

Variable solver : dia_matrix -> vec -> result vec.
Variable cgs : dia_matrix -> vec -> vec * Z.

(** [interior_points = solver(A, rhs)]; [storage[i] = interior_points] *)
Definition body_1d_calls (A B : dia_matrix) (left_bc right_bc : Q) (cols : nat)
    (i : Z) (s : calls1) : result calls1 :=
  rhs <- rhs_1d B left_bc right_bc (c_points s) ;;
  u <- solver A rhs ;;
  st <- set_row cols (c_storage s) i u ;;
  Ok (mk_calls1 u st (c_log1 s ++ [mk_call A rhs u])).

Definition run_1d_calls (N : Z) (left_bc right_bc : Q) (t_end : Z) (arr : vec)
  : result (list vec * list solver_call) :=
  A <- assemble_A1 N ;;
  B <- assemble_B1 N ;;
  let interior := py_slice arr 1 (-1) in
  st <- np_zeros2 t_end (N - 2) ;;
  let cols := Z.to_nat (N - 2) in
  st <- set_row cols st 0 interior ;;
  s <- for_each (body_1d_calls A B left_bc right_bc cols) (py_range 1 t_end)
                (mk_calls1 interior st []) ;;
  Ok (c_storage s, c_log1 s).

(** [values, _ = cgs(A, M@values)]; [arr[i] = values.reshape((N, N))] *)
Definition body_2d_calls (A M : dia_matrix) (N : Z) (i : Z) (s : calls2)
  : result calls2 :=
  b <- mat_vec M (c_values s) ;;
  let v := fst (cgs A b) in
  frame <- reshape N v ;;
  arr <- set_frame (c_frames s) i frame ;;
  Ok (mk_calls2 v arr (c_log2 s ++ [mk_call A b v])).

Definition run_2d_calls (r : Q) (N : Z) (mask : nat -> nat -> bool) (steps : Z)
  : result (list (list vec) * list solver_call) :=
  A <- assemble_A2 r N ;;
  v0 <- initial_values N mask ;;
  M <- assemble_M2 r N ;;
  arr <- np_zeros3 steps N ;;
  frame0 <- reshape N v0 ;;
  arr <- set_frame arr 0 frame0 ;;
  s <- for_each (body_2d_calls A M N) (py_range 1 steps) (mk_calls2 v0 arr []) ;;
  Ok (c_frames s, c_log2 s).

End SolverCalls.

(** ** The conjugate gradient squared iteration

    [scipy.sparse.linalg.cgs] in exact arithmetic, with its relative
    tolerance and iteration budget as arguments, no preconditioner and
    the zero initial guess.  The flag returned with the iterate is [0]
    when the residual norm fell below [rtol * norm(b)], [maxiter] when
    the budget ran out first, and negative on a breakdown of the
    recurrence.  Norms are compared through their squares. *)

Definition vred (v : vec) : vec := map Qred v.
Definition dot (x y : vec) : Q := Qsum (map (fun p => fst p * snd p) (combine x y)).
Definition vadd (x y : vec) : vec := vred (map (fun p => fst p + snd p) (combine x y)).
Definition vsub (x y : vec) : vec := vred (map (fun p => fst p - snd p) (combine x y)).
Definition matvec (A : dia_matrix) (x : vec) : vec :=
  vred (map (row_dot A x) (seq 0 (dia_shape A))).

Definition Qltb (x y : Q) : bool := negb (Qle_bool y x).

(** [np.finfo(float64).eps ** 2] *)
Definition rhotol : Q := 1 # (2 ^ 104).

Record cgs_vars : Type := mk_cgs {
  cg_x : vec; cg_r : vec; cg_p : vec; cg_u : vec; cg_q : vec; cg_rho : Q
}.

Fixpoint cgs_loop (A : dia_matrix) (b rtilde : vec) (atol2 : Q) (maxiter : Z)
    (budget : nat) (first : bool) (s : cgs_vars) : vec * Z :=
  match budget with
  | O => (cg_x s, maxiter)
  | S budget' =>
      let r := cg_r s in
      if Qltb (dot r r) atol2 then (cg_x s, 0%Z) else
      let rho_cur := Qred (dot rtilde r) in
      if Qltb (Qabs rho_cur) rhotol then (cg_x s, (-10)%Z) else
      let beta := rho_cur / cg_rho s in
      let u := if first then r else vadd r (scal beta (cg_q s)) in
      let p := if first then r
               else vadd u (scal beta (vadd (cg_q s) (scal beta (cg_p s)))) in
      let vhat := matvec A p in
      let rv := Qred (dot rtilde vhat) in
      if Qeq_bool rv 0 then (cg_x s, (-11)%Z) else
      let alpha := rho_cur / rv in
      let q := vsub u (scal alpha vhat) in
      let uhat := vadd u q in
      let x := vadd (cg_x s) (scal alpha uhat) in
      let r' := vsub b (matvec A x) in
      cgs_loop A b rtilde atol2 maxiter budget' false (mk_cgs x r' p u q rho_cur)
  end.

Definition scipy_cgs (rtol : Q) (maxiter : Z) (A : dia_matrix) (b : vec) : vec * Z :=
  let bnrm2 := dot b b in
  if Qeq_bool bnrm2 0 then (b, 0%Z) else
  let x0 := repeat 0 (length b) in
  cgs_loop A b b (rtol * rtol * bnrm2) maxiter (Z.to_nat maxiter) true
           (mk_cgs x0 b [] [] [] 1).

(** The call of the notebook, [cgs(A, b)]: [rtol = 1e-5],
    [maxiter = 10 * len(b)]. *)
Definition cgs_default (A : dia_matrix) (b : vec) : vec * Z :=
  scipy_cgs (1 # 100000) (10 * Z.of_nat (length b)) A b.

(** ** Spot checks in binary64

    Two computations of the notebook on which rounding decides a
    property, in float64 itself (Rocq's primitive floats): the diagonal
    coefficient of the 2D matrix, and one pass of the 1D loop on two
    interior cells ([N = 4]). *)

(** [1 + 4*r], the diagonal coefficient of [A] in the 2D assembly. *)
Definition diag_A2_float64 (r : float) : float := (1 + 4 * r)%float.

(** One pass of the 1D loop for [N = 4], on the interior [(u0, u1)]:
    [B @ u] is [(u1, u0)], the two slots are overwritten with
    [2*left_bc + u1] and [2*right_bc + u0], and the system with rows
    [(4, -1)] and [(-1, 4)] is solved by elimination on its dominant
    pivots. *)
Definition step_1d_float64 (left_bc right_bc u0 u1 : float) : float * float :=
  let b0 := (2 * left_bc + u1)%float in
  let b1 := (2 * right_bc + u0)%float in
  let l := (-1 / 4)%float in
  let p := (4 - l * -1)%float in
  let y1 := (b1 - l * b0)%float in
  let x1 := (y1 / p)%float in
  let x0 := ((b0 - -1 * x1) / 4)%float in
  (x0, x1).

(** ** Animations and thumbnail *)

(** [range(a, b, step)] for a positive [step]. *)
Definition py_range_step (a b step : Z) : list Z :=
  map (fun k => (a + step * Z.of_nat k)%Z)
      (seq 0 (Z.to_nat ((b - a + step - 1) / step))).

(** [np.arange(n)] *)
Definition np_arange (n : nat) : vec :=
  map (fun k => inject_Z (Z.of_nat k)) (seq 0 n).

(** [storage[i]] *)
Definition get_row {A : Type} (d : A) (storage : list A) (i : Z) : result A :=
  p <- py_pos (length storage) i ;; Ok (nth p storage d).

(** [update(frame)]: the abscissae and ordinates handed to
    [line.set_data], [np.arange(len(storage[frame]))] and
    [storage[frame]]. *)
Definition update (storage : list vec) (frame : Z) : result (vec * vec) :=
  row <- get_row (A := vec) [] storage frame ;;
  Ok (np_arange (length row), row).

(** [init()]: [np.arange(N)] against the full field [arr]. *)
Definition init (N : Z) (arr : vec) : vec * vec :=
  (np_arange (Z.to_nat N), arr).

(** The frames of the 1D animation, [range(0, len(storage), 20)], and of
    the 2D one, [range(0, len(arr), 25)]. *)
Definition frames_1d (storage : list vec) : list Z :=
  py_range_step 0 (Z.of_nat (length storage)) 20.

Definition frames_2d (arr : list (list vec)) : list Z :=
  py_range_step 0 (Z.of_nat (length arr)) 25.

(** [data = storage[-1]] of the thumbnail. *)
Definition thumbnail_data (storage : list vec) : result vec :=
  get_row (A := vec) [] storage (-1).

(** ** Ising snapshots: magnetization and first principal component

    The comparison cell of the second notebook, for [configs] (one
    flattened [28 x 28] lattice per row), their temperatures [temps]
    and the first principal component [pca.components_[0]]. *)

(** [np.unique(v)]: the distinct values in ascending order. *)
Fixpoint insert_unique (t : Q) (l : vec) : vec :=
  match l with
  | [] => [t]
  | h :: tl => if Qeq_bool t h then l
               else if Qle_bool t h then t :: l
               else h :: insert_unique t tl
  end.

Definition np_unique (v : vec) : vec := fold_right insert_unique [] v.

(** [np.mean(v)]; the mean of an empty array is [nan], here [None]. *)
Definition np_mean (v : vec) : option Q :=
  match v with
  | [] => None
  | _ => Some (Qsum v / inject_Z (Z.of_nat (length v)))
  end.

(** The entries of [v] where [temps] holds [t]. *)
Definition select {A : Type} (v : list A) (temps : vec) (t : Q) : list A :=
  map fst (filter (fun p => Qeq_bool (snd p) t) (combine v temps)).

(** [v[temps == t]]: the boolean index must have the length of [v]. *)
Definition mask_select {A : Type} (v : list A) (temps : vec) (t : Q)
  : result (list A) :=
  if (length v =? length temps)%nat then Ok (select v temps t)
  else Raise IndexError.

(** [magnetization = np.abs(np.mean(configs, axis = 1))]; [configs] has
    [28*28] columns.  (Of a row with no column numpy's mean is [nan];
    the quotient is [0] here, and the properties below are for rows of
    [28*28] sites.) *)
Definition magnetization (configs : list vec) : vec :=
  map (fun row => Qabs (Qsum row / inject_Z (Z.of_nat (length row)))) configs.

(** [temp = np.unique(temps)];
    [mag_mean = [np.mean(magnetization[temps == t]) for t in temp]] *)
Definition mag_mean (configs : list vec) (temps : vec)
  : result (list (option Q)) :=
  let magnetization := magnetization configs in
  mapM (fun t => sel <- mask_select magnetization temps t ;; Ok (np_mean sel))
       (np_unique temps).

(** [aux1 = pca.components_[0] / 28] *)
Definition aux1 (pc1 : vec) : vec := map (fun x => x / 28) pc1.

(** [row * a] with numpy's broadcasting of a length-one operand. *)
Definition broadcast_mul (row a : vec) : result vec :=
  if (length row =? length a)%nat
  then Ok (map (fun p => fst p * snd p) (combine row a))
  else match row, a with
       | [x], _ => Ok (map (fun y => x * y) a)
       | _, [y] => Ok (map (fun x => x * y) row)
       | _, _ => Raise ValueError
       end.

(** [aux = [np.mean(np.abs(np.sum(configs[temps == t, :] * aux1, axis=1)))
            for t in temp]] *)
Definition aux (configs : list vec) (temps pc1 : vec)
  : result (list (option Q)) :=
  let aux1 := aux1 pc1 in
  mapM (fun t =>
          rows <- mask_select configs temps t ;;
          prods <- mapM (fun row => broadcast_mul row aux1) rows ;;
          Ok (np_mean (map (fun p => Qabs (Qsum p)) prods)))
       (np_unique temps).

(** * Vocabulary of the properties *)

(** ** Band rows and banded matrices *)

(** A band row: [k] zeros, [n] copies of [c], [pad] zeros. *)
Definition band_const (k n pad : nat) (c : Q) : vec :=
  repeat 0 k ++ repeat c n ++ repeat 0 pad.

(** The data row [diags] stores for a constant diagonal at [off]. *)
Definition band_of (m cols off : Z) (c : Q) : vec :=
  band_const (Z.to_nat (Z.max 0 off)) (Z.to_nat (diag_length m off))
    (Z.to_nat cols - Z.to_nat (Z.max 0 off) - Z.to_nat (diag_length m off)) c.

(** An [m x m] matrix whose bands are constant: [(offset, coefficient)]. *)
Definition banded (m : Z) (bands : list (Z * Q)) : dia_matrix :=
  mk_dia (Z.to_nat m) (map fst bands)
         (map (fun p => band_of m m (fst p) (snd p)) bands).

(** The bands of the four assembled matrices, as the cells compute them
    ([-1*ones], [4*ones], [(1 + 4*r)*ones], ...). *)
Definition A1_bands : list (Z * Q) :=
  [((-1)%Z, -1 * 1); (0%Z, 4 * 1); (1%Z, -1 * 1)].

Definition B1_bands : list (Z * Q) := [((-1)%Z, 1); (1%Z, 1)].

Definition A2_bands (r : Q) (N : Z) : list (Z * Q) :=
  [(0%Z, (1 + 4 * r) * 1); ((-1)%Z, - r * 1); (1%Z, - r * 1);
   (N, - r * 1); ((- N)%Z, - r * 1)].

Definition M2_bands (r : Q) (N : Z) : list (Z * Q) :=
  [(0%Z, (1 - 4 * r) * 1); ((-1)%Z, r * 1); (1%Z, r * 1);
   ((- N)%Z, r * 1); (N, r * 1)].

(** What band [p] puts at position [(i, j)]. *)
Definition band_coeff (i j : nat) (p : Z * Q) : Q :=
  if (fst p =? Z.of_nat j - Z.of_nat i)%Z then snd p else 0.

(** What the bands off the main diagonal can contribute to one row. *)
Definition band_bound (bands : list (Z * Q)) : Q :=
  Qsum (map (fun p => if (fst p =? 0)%Z then 0 else Qabs (snd p)) bands).

(** Distance between two indices. *)
Definition dist (i j : nat) : Z := Z.abs (Z.of_nat j - Z.of_nat i).

(** Entry [(i, j)] of the tridiagonal matrix with [d] on the main diagonal
    and [c] next to it. *)
Definition tridiagonal (d c : Q) (i j : nat) : Q :=
  if (dist i j =? 0)%Z then d
  else if (dist i j =? 1)%Z then c else 0.

(** Entry [(i, j)] of the matrix with [d] on the main diagonal and [c] at
    distance [1] and at distance [n] from it. *)
Definition five_banded (n : Z) (d c : Q) (i j : nat) : Q :=
  if (dist i j =? 0)%Z then d
  else if ((dist i j =? 1) || (dist i j =? n))%Z then c else 0.

(** ** Linear systems *)

(** Sum of the magnitudes of row [i] off the diagonal. *)
Definition off_sum (n : nat) (a : nat -> nat -> Q) (i : nat) : Q :=
  sumn n (fun j => if (j =? i)%nat then 0 else Qabs (a i j)).

(** Strict diagonal dominance by rows. *)
Definition dominant (n : nat) (a : nat -> nat -> Q) : Prop :=
  forall i, (i < n)%nat -> off_sum n a i < Qabs (a i i).

Definition symmetric (n : nat) (a : nat -> nat -> Q) : Prop :=
  forall i j, (i < n)%nat -> (j < n)%nat -> a i j == a j i.

(** [x] solves the system [a x = b]. *)
Definition solves (n : nat) (a : nat -> nat -> Q) (x b : nat -> Q) : Prop :=
  forall i, (i < n)%nat -> sumn n (fun j => a i j * x j) == b i.

(** One elimination step on the matrix. *)
Definition schur (a : nat -> nat -> Q) (i j : nat) : Q :=
  a (S i) (S j) - a (S i) O * a O (S j) / a O O.

(** Equality of computed vectors. *)
Definition veq (x y : vec) : Prop :=
  length x = length y /\
  forall i, (i < length x)%nat -> nth i x 0 == nth i y 0.

(** [A @ x] is [b]. *)
Definition is_solution (A : dia_matrix) (x b : vec) : Prop :=
  exists y, mat_vec A x = Ok y /\ veq y b.

(** [A x = b] has exactly one solution for every [b]. *)
Definition unique_solution (A : dia_matrix) : Prop :=
  forall b : vec, length b = dia_shape A ->
  exists x : vec, is_solution A x b /\
                  forall x' : vec, is_solution A x' b -> veq x' x.

(** ** Loop invariants and steps *)

(** The right-hand side in closed form, for at least two interior cells. *)
Definition rhs_closed (B : dia_matrix) (l r : Q) (u : vec) : vec :=
  set_nth (length u - 1) (2 * r + nth (length u - 2) u 0)
    (set_nth 0 (2 * l + nth 1 u 0) (map (row_dot B u) (seq 0 (dia_shape B)))).

(** State of the 1D loop after [k] passes. *)
Definition inv_1d (A B : dia_matrix) (l r : Q) (T : nat) (u0 : vec)
    (k : nat) (s : loop1) : Prop :=
  length (storage s) = T /\ solves1 s = k /\ (k < T)%nat /\
  interior_points s = nth k (storage s) [] /\
  nth 0 (storage s) [] = u0 /\
  (forall i, (i <= k)%nat -> length (nth i (storage s) []) = dia_shape A) /\
  (forall i, (i < k)%nat ->
     step_1d A B l r (nth i (storage s) []) = Ok (nth (S i) (storage s) [])).

(** Row [i] of the initial 2D field. *)
Definition mask_row (mask : nat -> nat -> bool) (n i : nat) : vec :=
  map (fun j => if mask i j then 10 else 0) (seq 0 n).

(** Snapshot [next] holds the iterate returned for [M @ prev], which has
    [N*N] entries. *)
Definition solved_from (cgs : dia_matrix -> vec -> vec * Z) (A M : dia_matrix)
    (N : Z) (prev next : list vec) : Prop :=
  exists b, mat_vec M (concat prev) = Ok b /\
            next = chunks (Z.to_nat N) (Z.to_nat N) (fst (cgs A b)) /\
            length (fst (cgs A b)) = (Z.to_nat N * Z.to_nat N)%nat.

(** State of the 2D loop after [k] passes. *)
Definition inv_2d (cgs : dia_matrix -> vec -> vec * Z) (A M : dia_matrix)
    (N : Z) (T : nat) (frame0 : list vec) (k : nat) (s : loop2) : Prop :=
  length (frames s) = T /\ solves2 s = k /\ (k < T)%nat /\
  length (values s) = (Z.to_nat N * Z.to_nat N)%nat /\
  nth k (frames s) [] = chunks (Z.to_nat N) (Z.to_nat N) (values s) /\
  nth 0 (frames s) [] = frame0 /\
  (forall i, (i < k)%nat ->
     solved_from cgs A M N (nth i (frames s) []) (nth (S i) (frames s) [])).

(** Snapshot [next] is [cgs(A, M @ prev)[0]] reshaped. *)
Definition solve_step (cgs : dia_matrix -> vec -> vec * Z) (A M : dia_matrix)
    (N : Z) (prev next : list vec) : Prop :=
  exists b, mat_vec M (concat prev) = Ok b /\
            reshape N (fst (cgs A b)) = Ok next.

(** ** Solver calls *)

(** Default for [nth] on a list of calls. *)
Definition no_call : solver_call := mk_call (mk_dia 0 [] []) [] [].

(** [c] is the call of the 1D pass that leads from snapshot [prev] to
    snapshot [next]: the solver was given [A] and the right-hand side
    built from [prev], and returned [next]. *)
Definition call_1d (solver : dia_matrix -> vec -> result vec) (A B : dia_matrix)
    (l r : Q) (prev next : vec) (c : solver_call) : Prop :=
  exists rhs, rhs_1d B l r prev = Ok rhs /\ solver A rhs = Ok next /\
              c = mk_call A rhs next.

(** [c] is the call of the 2D pass that leads from snapshot [prev] to
    snapshot [next]: the solver was given [A] and [M @ prev], and [next]
    is the iterate it returned, reshaped. *)
Definition call_2d (cgs : dia_matrix -> vec -> vec * Z) (A M : dia_matrix)
    (N : Z) (prev next : list vec) (c : solver_call) : Prop :=
  exists b, mat_vec M (concat prev) = Ok b /\
            reshape N (fst (cgs A b)) = Ok next /\
            c = mk_call A b (fst (cgs A b)).

(** The loop states with the calls counted. *)
Definition forget1 (s : calls1) : loop1 :=
  mk_loop1 (c_points s) (c_storage s) (length (c_log1 s)).

Definition forget2 (s : calls2) : loop2 :=
  mk_loop2 (c_values s) (c_frames s) (length (c_log2 s)).

(** State of the 1D loop with calls after [k] passes. *)
Definition inv_1d_calls (solver : dia_matrix -> vec -> result vec)
    (A B : dia_matrix) (l r : Q) (T : nat) (u0 : vec) (k : nat) (s : calls1) : Prop :=
  length (c_storage s) = T /\ length (c_log1 s) = k /\ (k < T)%nat /\
  c_points s = nth k (c_storage s) [] /\
  nth 0 (c_storage s) [] = u0 /\
  (forall i, (i <= k)%nat -> length (nth i (c_storage s) []) = dia_shape B) /\
  (forall i, (i < k)%nat ->
     call_1d solver A B l r (nth i (c_storage s) []) (nth (S i) (c_storage s) [])
             (nth i (c_log1 s) no_call)).

(** State of the 2D loop with calls after [k] passes. *)
Definition inv_2d_calls (cgs : dia_matrix -> vec -> vec * Z) (A M : dia_matrix)
    (N : Z) (T : nat) (frame0 : list vec) (k : nat) (s : calls2) : Prop :=
  inv_2d cgs A M N T frame0 k (forget2 s) /\
  (forall i, (i < k)%nat ->
     call_2d cgs A M N (nth i (c_frames s) []) (nth (S i) (c_frames s) [])
             (nth i (c_log2 s) no_call)).

(** ** Example inputs *)

(** A [3 x 3] mask holding the centre cell. *)
Definition mask_centre (i j : nat) : bool := ((i =? 1) && (j =? 1))%nat.


(** [0.1] and [2^51] as float64 values. *)
Definition tenth : float := 0x1.999999999999ap-4%float.

Definition two_to_51 : float := 0x1p51%float.

(** A stand-in for an iterative solver in the examples, not a function
    of the notebook: it returns the exact solution, flagged as
    converged. *)
Definition cgs_exact (A : dia_matrix) (b : vec) : vec * Z :=
  match spsolve A b with
  | Ok x => (x, 0%Z)
  | Raise _ => (b, (-1)%Z)
  end.

(** ** Fields, schemes and norms *)

(** The full 1D field: the interior between its two boundary values. *)
Definition padded (left_bc right_bc : Q) (u : vec) : vec :=
  left_bc :: u ++ [right_bc].

(** Row [i] of the right-hand side of the 1D scheme for the field [u] on
    [n] interior cells, before rounding: [B u] plus twice the boundary
    value in the two end rows. *)
Definition scheme_rhs (B : dia_matrix) (l r : Q) (u : nat -> Q) (n i : nat) : Q :=
  sumn n (fun j => entry B i j * u j)
  + (if (i =? 0)%nat then 2 * l else 0)
  + (if (i =? n - 1)%nat then 2 * r else 0).

(** [x] solves [A x = b] to within [tol] times the size of [b] (the sum
    of the magnitudes of its entries), plus [slack]. *)
Definition solves_within (tol slack : Q) (A : dia_matrix) (x b : vec) : Prop :=
  length x = dia_shape A /\ length b = dia_shape A /\
  forall i, (i < dia_shape A)%nat ->
    Qabs (sumn (dia_shape A) (fun j => entry A i j * nth j x 0) - nth i b 0)
    <= tol * sumn (dia_shape A) (fun j => Qabs (nth j b 0)) + slack.

(** Each interior cell is the mean of its two neighbours. *)
Definition harmonic (U : vec) (n : nat) : Prop :=
  forall i, (i < n)%nat -> 2 * nth (S i) U 0 == nth i U 0 + nth (S (S i)) U 0.

(** The linear profile between the two boundary values, on [n] interior
    cells. *)
Definition linear_profile (left_bc right_bc : Q) (n : nat) : vec :=
  map (fun i => left_bc + inject_Z (Z.of_nat (S i)) * (right_bc - left_bc)
                          / inject_Z (Z.of_nat (S n)))
      (seq 0 n).




(** Number of lattice sites of a snapshot. *)
Definition n_sites : nat := Z.to_nat (28 * 28).

(** * Properties *)

(** ** Lists and slices *)

Lemma firstn_repeat_le {A : Type} (c : A) (k n : nat) :
  (k <= n)%nat -> firstn k (repeat c n) = repeat c k.
Proof.
  revert n; induction k as [|k IH]; intros [|n] H; simpl; try reflexivity; try lia.
  f_equal; apply IH; lia.
Qed.

Lemma drop_last_repeat (c : Q) (n : nat) :
  drop_last (repeat c n) = repeat c (n - 1).
Proof.
  unfold drop_last, py_slice, slice_bound.
  rewrite repeat_length.
  change (0 <? 0)%Z with false. change (-1 <? 0)%Z with true. cbv iota.
  change (Z.to_nat 0) with 0%nat. rewrite Nat.min_0_l, Nat.sub_0_r.
  replace (Z.to_nat (Z.max (-1 + Z.of_nat n) 0)) with (n - 1)%nat by lia.
  apply firstn_repeat_le; lia.
Qed.

Lemma scal_repeat (c x : Q) (n : nat) : scal c (repeat x n) = repeat (c * x) n.
Proof. unfold scal; induction n; simpl; congruence. Qed.

Lemma nth_repeat_lt (c : Q) (n j : nat) :
  nth j (repeat c n) 0 = if (j <? n)%nat then c else 0.
Proof.
  revert j; induction n as [|n IH]; intros [|j]; simpl; try reflexivity.
  rewrite IH. reflexivity.
Qed.

Lemma nth_band_const (k n pad : nat) (c : Q) (j : nat) :
  nth j (band_const k n pad c) 0 =
  if ((k <=? j) && (j <? k + n))%nat then c else 0.
Proof.
  unfold band_const.
  destruct (Nat.leb_spec k j) as [Hk|Hk]; simpl.
  - rewrite app_nth2 by (rewrite repeat_length; lia).
    rewrite repeat_length.
    destruct (Nat.ltb_spec j (k + n)) as [Hn|Hn].
    + rewrite app_nth1 by (rewrite repeat_length; lia).
      rewrite nth_repeat_lt.
      destruct (Nat.ltb_spec (j - k) n); [reflexivity | lia].
    + rewrite app_nth2 by (rewrite repeat_length; lia).
      rewrite nth_repeat_lt. destruct (_ <? _)%nat; reflexivity.
  - rewrite app_nth1 by (rewrite repeat_length; lia).
    rewrite nth_repeat_lt. destruct (_ <? _)%nat; reflexivity.
Qed.

Lemma diag_row_const (m cols : Z) (c : Q) (L : nat) (off : Z) :
  (0 <= diag_length m off)%Z ->
  (Z.to_nat (diag_length m off) <= L)%nat ->
  diag_row m cols (repeat c L) off = Ok (band_of m cols off c).
Proof.
  intros H0 HL. unfold diag_row, band_of.
  destruct (Z.ltb_spec (diag_length m off) 0); [lia|].
  rewrite repeat_length.
  destruct (Nat.leb_spec (Z.to_nat (diag_length m off)) L); [|lia].
  rewrite firstn_repeat_le by lia. reflexivity.
Qed.

(** ** Closed forms of the assembled matrices *)

Lemma assemble_A1_closed (N : Z) :
  (3 <= N)%Z -> assemble_A1 N = Ok (banded (N - 2) A1_bands).
Proof.
  intros HN. unfold assemble_A1, np_ones.
  destruct (Z.ltb_spec (N - 2) 0); [lia|]. simpl bind.
  set (n := Z.to_nat (N - 2)).
  rewrite drop_last_repeat, !scal_repeat.
  unfold diags. simpl length. simpl negb. cbv iota.
  rewrite repeat_length.
  replace (Z.of_nat (n - 1) + Z.abs (-1))%Z with (N - 2)%Z by lia.
  assert (Hc : data_cols (N - 2) [(-1)%Z; 0%Z; 1%Z] = (N - 2)%Z).
  { unfold data_cols; simpl. lia. }
  rewrite Hc. simpl combine. simpl mapM.
  rewrite !diag_row_const by (unfold diag_length; lia).
  reflexivity.
Qed.

Lemma assemble_B1_closed (N : Z) :
  (3 <= N)%Z -> assemble_B1 N = Ok (banded (N - 2) B1_bands).
Proof.
  intros HN. unfold assemble_B1, np_ones.
  destruct (Z.ltb_spec (N - 2) 0); [lia|]. simpl bind.
  set (n := Z.to_nat (N - 2)).
  rewrite drop_last_repeat.
  unfold diags. simpl length. simpl negb. cbv iota.
  rewrite repeat_length.
  replace (Z.of_nat (n - 1) + Z.abs (-1))%Z with (N - 2)%Z by lia.
  assert (Hc : data_cols (N - 2) [(-1)%Z; 1%Z] = (N - 2)%Z).
  { unfold data_cols; simpl. lia. }
  rewrite Hc. simpl combine. simpl mapM.
  rewrite !diag_row_const by (unfold diag_length; lia).
  reflexivity.
Qed.

Lemma has_dup_five (N : Z) :
  (2 <= Z.abs N)%Z -> has_dup [0%Z; (-1)%Z; 1%Z; N; (- N)%Z] = false.
Proof.
  intros HN. unfold has_dup, existsb.
  repeat match goal with
         | |- context [Z.eqb ?a ?b] => destruct (Z.eqb_spec a b); try lia
         end; reflexivity.
Qed.

Lemma has_dup_five' (N : Z) :
  (2 <= Z.abs N)%Z -> has_dup [0%Z; (-1)%Z; 1%Z; (- N)%Z; N] = false.
Proof.
  intros HN. unfold has_dup, existsb.
  repeat match goal with
         | |- context [Z.eqb ?a ?b] => destruct (Z.eqb_spec a b); try lia
         end; reflexivity.
Qed.

Lemma square_ge_abs (N : Z) : (Z.abs N <= N * N)%Z.
Proof. nia. Qed.

Lemma assemble_A2_closed (r : Q) (N : Z) :
  (2 <= Z.abs N)%Z -> assemble_A2 r N = Ok (banded (N * N) (A2_bands r N)).
Proof.
  intros HN. pose proof (square_ge_abs N) as Hsq.
  unfold assemble_A2, np_ones.
  set (m := (N * N)%Z) in *.
  destruct (Z.ltb_spec m 0); [lia|].
  destruct (Z.ltb_spec (m - 1) 0); [lia|].
  destruct (Z.ltb_spec (m - N) 0); [lia|].
  simpl bind. rewrite !scal_repeat.
  unfold diags. simpl length. simpl negb. cbv iota.
  rewrite repeat_length.
  replace (Z.of_nat (Z.to_nat m) + Z.abs 0)%Z with m by lia.
  assert (Hc : data_cols m [0%Z; (-1)%Z; 1%Z; N; (- N)%Z] = m).
  { unfold data_cols; simpl. lia. }
  rewrite Hc. simpl combine. simpl mapM.
  rewrite !diag_row_const by (unfold diag_length; lia).
  cbn [bind]. rewrite has_dup_five by lia.
  reflexivity.
Qed.

Lemma assemble_M2_closed (r : Q) (N : Z) :
  (2 <= Z.abs N)%Z -> assemble_M2 r N = Ok (banded (N * N) (M2_bands r N)).
Proof.
  intros HN. pose proof (square_ge_abs N) as Hsq.
  unfold assemble_M2, np_ones.
  set (m := (N * N)%Z) in *.
  destruct (Z.ltb_spec m 0); [lia|].
  destruct (Z.ltb_spec (m - 1) 0); [lia|].
  destruct (Z.ltb_spec (m - N) 0); [lia|].
  simpl bind. rewrite !scal_repeat.
  unfold diags. simpl length. simpl negb. cbv iota.
  rewrite repeat_length.
  replace (Z.of_nat (Z.to_nat m) + Z.abs 0)%Z with m by lia.
  assert (Hc : data_cols m [0%Z; (-1)%Z; 1%Z; (- N)%Z; N] = m).
  { unfold data_cols; simpl. lia. }
  rewrite Hc. simpl combine. simpl mapM.
  rewrite !diag_row_const by (unfold diag_length; lia).
  cbn [bind]. rewrite has_dup_five' by lia.
  reflexivity.
Qed.

(** Entries and row products of a matrix with constant bands. *)

Lemma band_entry_band_of (m : Z) (i j : nat) (off : Z) (c : Q) :
  (i < Z.to_nat m)%nat -> (j < Z.to_nat m)%nat ->
  band_entry i j off (band_of m m off c) = band_coeff i j (off, c).
Proof.
  intros Hi Hj. unfold band_entry, band_coeff, band_of; simpl fst; simpl snd.
  destruct (Z.eqb_spec off (Z.of_nat j - Z.of_nat i)) as [E|E]; [|reflexivity].
  rewrite nth_band_const.
  unfold diag_length.
  destruct (Nat.leb_spec (Z.to_nat (Z.max 0 off)) j); [|lia].
  destruct (Nat.ltb_spec j (Z.to_nat (Z.max 0 off) +
       Z.to_nat (Z.min (Z.min (m + off) (m - off)) m))); [reflexivity|lia].
Qed.

Lemma entry_banded (m : Z) (bands : list (Z * Q)) (i j : nat) :
  (i < Z.to_nat m)%nat -> (j < Z.to_nat m)%nat ->
  entry (banded m bands) i j = Qsum (map (band_coeff i j) bands).
Proof.
  intros Hi Hj. unfold entry, banded; simpl.
  destruct (Nat.ltb_spec i (Z.to_nat m)); [|lia].
  destruct (Nat.ltb_spec j (Z.to_nat m)); [|lia].
  simpl. f_equal.
  induction bands as [|[off c] t IH]; simpl; [reflexivity|].
  rewrite band_entry_band_of by assumption. f_equal. exact IH.
Qed.

(** ** Finite sums *)

Lemma sumn_S_r (n : nat) (f : nat -> Q) : sumn (S n) f == sumn n f + f n.
Proof.
  unfold sumn. rewrite seq_S, map_app. simpl.
  generalize (map f (seq 0 n)) as l.
  induction l as [|a l IH]; simpl; [ring | rewrite IH; ring].
Qed.

Lemma sumn_S_l (n : nat) (f : nat -> Q) :
  sumn (S n) f = f O + sumn n (fun j => f (S j)).
Proof.
  unfold sumn. simpl. f_equal. f_equal. rewrite <- seq_shift, map_map. reflexivity.
Qed.

Lemma sumn_ext (n : nat) (f g : nat -> Q) :
  (forall i, (i < n)%nat -> f i == g i) -> sumn n f == sumn n g.
Proof.
  induction n as [|n IH]; intros H; [reflexivity|].
  rewrite !sumn_S_r, IH, (H n) by auto with arith. reflexivity.
Qed.

Lemma sumn_plus (n : nat) (f g : nat -> Q) :
  sumn n (fun i => f i + g i) == sumn n f + sumn n g.
Proof.
  induction n as [|n IH]; [reflexivity|].
  rewrite !sumn_S_r, IH. ring.
Qed.

Lemma sumn_scal (n : nat) (c : Q) (f : nat -> Q) :
  sumn n (fun i => c * f i) == c * sumn n f.
Proof.
  induction n as [|n IH]; [unfold sumn; simpl; ring|].
  rewrite !sumn_S_r, IH. ring.
Qed.

Lemma sumn_zero (n : nat) : sumn n (fun _ => 0) == 0.
Proof.
  induction n as [|n IH]; [reflexivity|]. rewrite sumn_S_r, IH. ring.
Qed.

Lemma sumn_le (n : nat) (f g : nat -> Q) :
  (forall i, (i < n)%nat -> f i <= g i) -> sumn n f <= sumn n g.
Proof.
  induction n as [|n IH]; intros H; [apply Qle_refl|].
  rewrite !sumn_S_r. apply Qplus_le_compat; auto with arith.
Qed.

Lemma sumn_nonneg (n : nat) (f : nat -> Q) :
  (forall i, (i < n)%nat -> 0 <= f i) -> 0 <= sumn n f.
Proof.
  intros H. rewrite <- (sumn_zero n). apply sumn_le. exact H.
Qed.

Lemma sumn_abs (n : nat) (f : nat -> Q) :
  Qabs (sumn n f) <= sumn n (fun i => Qabs (f i)).
Proof.
  induction n as [|n IH]; [unfold sumn; simpl; apply Qle_refl|].
  rewrite !sumn_S_r.
  eapply Qle_trans; [apply Qabs_triangle|].
  apply Qplus_le_compat; [exact IH | apply Qle_refl].
Qed.

(** A sum with a single possibly nonzero term. *)
Lemma sumn_delta (n c : nat) (f : nat -> Q) :
  sumn n (fun j => if (j =? c)%nat then f j else 0) ==
  if (c <? n)%nat then f c else 0.
Proof.
  induction n as [|n IH]; [reflexivity|].
  rewrite sumn_S_r, IH.
  destruct (Nat.eqb_spec n c) as [->|E].
  - destruct (Nat.ltb_spec c c); [lia|].
    destruct (Nat.ltb_spec c (S c)); [ring|lia].
  - destruct (Nat.ltb_spec c n); destruct (Nat.ltb_spec c (S n));
      try lia; ring.
Qed.

(** Taking one term out of a sum. *)
Lemma sumn_split (n i : nat) (f : nat -> Q) :
  (i < n)%nat ->
  sumn n f == f i + sumn n (fun j => if (j =? i)%nat then 0 else f j).
Proof.
  intros Hi.
  assert (E : sumn n f ==
              sumn n (fun j => (if (j =? i)%nat then f j else 0) +
                               (if (j =? i)%nat then 0 else f j))).
  { apply sumn_ext; intros j _. destruct (j =? i)%nat; ring. }
  rewrite E, sumn_plus, sumn_delta.
  destruct (Nat.ltb_spec i n); [reflexivity|lia].
Qed.

(** ** Rows of [A @ x] as sums over entries *)

Lemma band_dot_sum (m i : nat) (x : vec) (off : Z) (row : vec) :
  (i < m)%nat ->
  band_dot m i x off row ==
  sumn m (fun j => band_entry i j off row * nth j x 0).
Proof.
  intros Hi. unfold band_dot.
  destruct (Z.leb_spec 0 (Z.of_nat i + off));
    destruct (Z.ltb_spec (Z.of_nat i + off) (Z.of_nat m)); simpl.
  - rewrite (sumn_ext m _
       (fun j => if (j =? Z.to_nat (Z.of_nat i + off))%nat
                 then nth j row 0 * nth j x 0 else 0)).
    + rewrite sumn_delta.
      destruct (Nat.ltb_spec (Z.to_nat (Z.of_nat i + off)) m); [reflexivity|lia].
    + intros j Hj. unfold band_entry.
      destruct (Z.eqb_spec off (Z.of_nat j - Z.of_nat i));
        destruct (Nat.eqb_spec j (Z.to_nat (Z.of_nat i + off))); try lia; ring.
  - rewrite <- (sumn_zero m). apply sumn_ext. intros j Hj. unfold band_entry.
    destruct (Z.eqb_spec off (Z.of_nat j - Z.of_nat i)); [lia|ring].
  - rewrite <- (sumn_zero m). apply sumn_ext. intros j Hj. unfold band_entry.
    destruct (Z.eqb_spec off (Z.of_nat j - Z.of_nat i)); [lia|ring].
  - rewrite <- (sumn_zero m). apply sumn_ext. intros j Hj. unfold band_entry.
    destruct (Z.eqb_spec off (Z.of_nat j - Z.of_nat i)); [lia|ring].
Qed.

Lemma row_dot_entries (A : dia_matrix) (x : vec) (i : nat) :
  (i < dia_shape A)%nat ->
  row_dot A x i == sumn (dia_shape A) (fun j => entry A i j * nth j x 0).
Proof.
  intros Hi. unfold row_dot.
  transitivity (sumn (dia_shape A) (fun j =>
     Qsum (map (fun p => band_entry i j (fst p) (snd p))
               (combine (dia_offsets A) (dia_data A))) * nth j x 0)).
  - induction (combine (dia_offsets A) (dia_data A)) as [|[off row] t IH]; simpl.
    + rewrite <- (sumn_zero (dia_shape A)). apply sumn_ext; intros; ring.
    + rewrite IH, band_dot_sum by assumption. rewrite <- sumn_plus.
      apply sumn_ext; intros; ring.
  - apply sumn_ext. intros j Hj. unfold entry.
    destruct (Nat.ltb_spec i (dia_shape A)); [|lia].
    destruct (Nat.ltb_spec j (dia_shape A)); [|lia]. reflexivity.
Qed.

Lemma mat_vec_ok (A : dia_matrix) (x : vec) :
  length x = dia_shape A ->
  mat_vec A x = Ok (map (row_dot A x) (seq 0 (dia_shape A))).
Proof.
  intros H. unfold mat_vec. rewrite H, Nat.eqb_refl. reflexivity.
Qed.

Lemma mat_vec_length (A : dia_matrix) (x y : vec) :
  mat_vec A x = Ok y -> length x = dia_shape A /\ length y = dia_shape A.
Proof.
  unfold mat_vec. destruct (Nat.eqb_spec (length x) (dia_shape A)); simpl;
    [|discriminate].
  intros H. injection H as <-. rewrite length_map, length_seq. auto.
Qed.

Lemma nth_map_seq (f : nat -> Q) (n i : nat) :
  (i < n)%nat -> nth i (map f (seq 0 n)) 0 = f i.
Proof.
  intros Hi.
  rewrite (nth_indep _ 0 (f O)) by (rewrite length_map, length_seq; exact Hi).
  rewrite (map_nth f (seq 0 n) O i), seq_nth by exact Hi. reflexivity.
Qed.

(** ** Strict diagonal dominance *)


Lemma off_sum_nonneg n a i : 0 <= off_sum n a i.
Proof.
  apply sumn_nonneg. intros j _.
  destruct (j =? i)%nat; [apply Qle_refl | apply Qabs_nonneg].
Qed.

Lemma dominant_ext n a a' :
  (forall i j, (i < n)%nat -> (j < n)%nat -> a' i j == a i j) ->
  dominant n a -> dominant n a'.
Proof.
  intros E H i Hi. unfold off_sum.
  rewrite (E i i Hi Hi).
  eapply Qle_lt_trans; [|apply (H i Hi)].
  apply Qle_lteq; right. apply sumn_ext. intros j Hj.
  destruct (j =? i)%nat; [reflexivity | rewrite (E i j Hi Hj); reflexivity].
Qed.

Lemma dominant_pivot n a i : dominant n a -> (i < n)%nat -> ~ a i i == 0.
Proof.
  intros H Hi E. specialize (H i Hi). rewrite E in H.
  pose proof (off_sum_nonneg n a i). simpl in H. lra.
Qed.

(** An index where [|x|] is largest. *)
Lemma argmax (n : nat) (x : nat -> Q) :
  (0 < n)%nat ->
  exists k, (k < n)%nat /\ forall i, (i < n)%nat -> Qabs (x i) <= Qabs (x k).
Proof.
  induction n as [|n IH]; intros Hn; [lia|].
  destruct n as [|n].
  - exists O. split; [lia|]. intros i Hi. replace i with O by lia. apply Qle_refl.
  - destruct IH as [k [Hk Hmax]]; [lia|].
    destruct (Qlt_le_dec (Qabs (x k)) (Qabs (x (S n)))) as [Hlt|Hle].
    + exists (S n). split; [lia|]. intros i Hi.
      destruct (Nat.eq_dec i (S n)) as [->|Hne]; [apply Qle_refl|].
      eapply Qle_trans; [apply Hmax; lia | apply Qlt_le_weak; exact Hlt].
    + exists k. split; [lia|]. intros i Hi.
      destruct (Nat.eq_dec i (S n)) as [->|Hne]; [exact Hle | apply Hmax; lia].
Qed.

(** A strictly diagonally dominant matrix has a trivial kernel. *)
Lemma dominant_kernel n a x :
  dominant n a -> solves n a x (fun _ => 0) ->
  forall i, (i < n)%nat -> x i == 0.
Proof.
  intros Hd Hs i Hi.
  destruct (argmax n x) as [k [Hk Hmax]]; [lia|].
  assert (Hz : Qabs (x k) <= 0).
  { destruct (Qlt_le_dec 0 (Qabs (x k))) as [Hpos|]; [exfalso | assumption].
    pose proof (Hs k Hk) as Hrow. simpl in Hrow.
    rewrite (sumn_split n k) in Hrow by exact Hk.
    set (rest := sumn n (fun j => if (j =? k)%nat then 0 else a k j * x j)) in Hrow.
    assert (Hrest : Qabs rest <= off_sum n a k * Qabs (x k)).
    { unfold rest, off_sum.
      eapply Qle_trans; [apply sumn_abs|].
      rewrite Qmult_comm, <- sumn_scal.
      apply sumn_le. intros j Hj.
      destruct (j =? k)%nat.
      - simpl. lra.
      - rewrite Qabs_Qmult, Qmult_comm.
        apply Qmult_le_compat_r; [apply Hmax; exact Hj | apply Qabs_nonneg]. }
    assert (Hdiag : Qabs (a k k) * Qabs (x k) == Qabs rest).
    { rewrite <- Qabs_Qmult.
      assert (E : a k k * x k == - rest) by lra.
      rewrite E. apply Qabs_opp. }
    specialize (Hd k Hk).
    assert (off_sum n a k * Qabs (x k) < Qabs (a k k) * Qabs (x k)).
    { apply Qmult_lt_compat_r; assumption. }
    lra. }
  specialize (Hmax i Hi).
  assert (E : Qabs (x i) <= 0) by lra.
  apply Qabs_Qle_condition in E. lra.
Qed.

(** Hence the solution of a dominant system is unique. *)
Lemma dominant_unique n a b x y :
  dominant n a -> solves n a x b -> solves n a y b ->
  forall i, (i < n)%nat -> x i == y i.
Proof.
  intros Hd Hx Hy i Hi.
  pose proof (dominant_kernel n a (fun j => x j - y j) Hd) as H0.
  simpl in H0.
  assert (Hk : solves n a (fun j => x j - y j) (fun _ => 0)).
  { intros k Hk. simpl.
    rewrite (sumn_ext n _ (fun j => a k j * x j + (-1) * (a k j * y j)))
      by (intros; ring).
    rewrite sumn_plus, sumn_scal, (Hx k Hk), (Hy k Hk). ring. }
  specialize (H0 Hk i Hi). lra.
Qed.


(** ** Elimination solves dominant systems *)

Lemma nth_map_seq_gen {A : Type} (f : nat -> A) (d : A) (n i : nat) :
  (i < n)%nat -> nth i (map f (seq 0 n)) d = f i.
Proof.
  intros Hi.
  rewrite (nth_indep _ d (f O)) by (rewrite length_map, length_seq; exact Hi).
  rewrite (map_nth f (seq 0 n) O i), seq_nth by exact Hi. reflexivity.
Qed.

Lemma tab_spec (n : nat) (f : nat -> Q) (i : nat) :
  (i < n)%nat -> tab n f i == f i.
Proof.
  intros Hi. unfold tab. rewrite nth_map_seq_gen by exact Hi. apply Qred_correct.
Qed.

Lemma tab2_spec (n : nat) (f : nat -> nat -> Q) (i j : nat) :
  (i < n)%nat -> (j < n)%nat -> tab2 n f i j == f i j.
Proof.
  intros Hi Hj. unfold tab2.
  rewrite (nth_map_seq_gen _ [] n i Hi), nth_map_seq_gen by exact Hj.
  apply Qred_correct.
Qed.

Lemma Qabs_sub_le (x y : Q) : Qabs (x - y) <= Qabs x + Qabs y.
Proof.
  unfold Qminus. eapply Qle_trans; [apply Qabs_triangle|].
  rewrite Qabs_opp. apply Qle_refl.
Qed.

Lemma Qabs_quot (v u p : Q) : Qabs (v * u / p) == Qabs v * Qabs (/ p) * Qabs u.
Proof. unfold Qdiv. rewrite !Qabs_Qmult. ring. Qed.

(** Dominance survives the step. *)
Lemma schur_dominant (n : nat) (a : nat -> nat -> Q) :
  dominant (S n) a -> dominant n (schur a).
Proof.
  intros Hd i Hi.
  pose proof (Hd O (Nat.lt_0_succ n)) as H0.
  pose proof (Hd (S i) (proj1 (Nat.succ_lt_mono i n) Hi)) as H1.
  unfold off_sum in H0, H1. rewrite sumn_S_l in H0, H1. simpl in H0, H1.
  assert (Hp : ~ a O O == 0) by (apply (dominant_pivot (S n)); [exact Hd | lia]).
  assert (Hw : Qabs (a O O) * Qabs (/ a O O) == 1).
  { rewrite <- Qabs_Qmult, Qmult_inv_r by exact Hp. reflexivity. }
  rewrite (sumn_split n i) in H0 by exact Hi.
  set (R := sumn n (fun j => if (j =? i)%nat then 0 else Qabs (a (S i) (S j)))) in *.
  set (Ur := sumn n (fun j => if (j =? i)%nat then 0 else Qabs (a O (S j)))) in *.
  set (t := Qabs (a (S i) O) * Qabs (/ a O O)).
  assert (HUr : 0 <= Ur).
  { apply sumn_nonneg. intros j _.
    destruct (j =? i)%nat; [apply Qle_refl | apply Qabs_nonneg]. }
  assert (Ht : 0 <= t).
  { apply Qmult_le_0_compat; apply Qabs_nonneg. }
  assert (H3 : off_sum n (schur a) i <= R + t * Ur).
  { unfold off_sum, R, Ur. rewrite <- sumn_scal, <- sumn_plus.
    apply sumn_le. intros j Hj.
    destruct (j =? i)%nat; [lra|].
    unfold schur. eapply Qle_trans; [apply Qabs_sub_le|].
    rewrite Qabs_quot. apply Qle_refl. }
  assert (H4 : Qabs (a (S i) (S i)) <=
               Qabs (schur a i i) + t * Qabs (a O (S i))).
  { assert (E : a (S i) (S i) == schur a i i + a (S i) O * a O (S i) / a O O).
    { unfold schur. ring. }
    rewrite E at 1. eapply Qle_trans; [apply Qabs_triangle|].
    rewrite Qabs_quot. apply Qle_refl. }
  assert (H5 : t * (Qabs (a O (S i)) + Ur) <= Qabs (a (S i) O)).
  { assert (E : Qabs (a (S i) O) == t * Qabs (a O O)).
    { unfold t. rewrite <- Qmult_assoc, (Qmult_comm (Qabs (/ a O O))), Hw. ring. }
    apply Qle_trans with (t * Qabs (a O O)); [| rewrite <- E; apply Qle_refl].
    rewrite !(Qmult_comm t).
    apply Qmult_le_compat_r; [lra | exact Ht]. }
  pose proof (Qabs_nonneg (a O (S i))).
  lra.
Qed.

Lemma solves_ext (n : nat) (a a' : nat -> nat -> Q) (x x' b b' : nat -> Q) :
  (forall i j, (i < n)%nat -> (j < n)%nat -> a' i j == a i j) ->
  (forall i, (i < n)%nat -> x' i == x i) ->
  (forall i, (i < n)%nat -> b' i == b i) ->
  solves n a x b -> solves n a' x' b'.
Proof.
  intros Ea Ex Eb H i Hi. rewrite (Eb i Hi), <- (H i Hi).
  apply sumn_ext. intros j Hj. rewrite (Ea i j Hi Hj), (Ex j Hj). reflexivity.
Qed.

Theorem elim_correct (n : nat) :
  forall a b, dominant n a -> solves n a (elim n a b) b.
Proof.
  induction n as [|n IH]; intros a b Hd i Hi; [lia|].
  assert (Hp : ~ a O O == 0) by (apply (dominant_pivot (S n)); [exact Hd | lia]).
  set (a' := tab2 n (fun i j => a (S i) (S j) - a (S i) O * a O (S j) / a O O)).
  set (b' := tab n (fun i => b (S i) - a (S i) O * b O / a O O)).
  set (y := tab n (elim n a' b')).
  set (s0 := sumn n (fun j => a O (S j) * y j)).
  assert (Hd' : dominant n a').
  { apply (dominant_ext n (schur a)); [|apply schur_dominant; exact Hd].
    intros; unfold a'. rewrite tab2_spec by assumption. reflexivity. }
  assert (Hy : solves n (schur a) y
                 (fun i => b (S i) - a (S i) O * b O / a O O)).
  { apply (solves_ext n a' _ (elim n a' b') _ b').
    - intros; unfold a'. rewrite tab2_spec by assumption. reflexivity.
    - intros; unfold y. apply tab_spec; assumption.
    - intros; unfold b'. symmetry. apply tab_spec; assumption.
    - apply IH. exact Hd'. }
  rewrite sumn_S_l.
  change (elim (S n) a b O) with ((b O - s0) / a O O).
  assert (Etail : forall k, sumn n (fun j => a k (S j) * elim (S n) a b (S j)) ==
                            sumn n (fun j => a k (S j) * y j)).
  { intros k. apply sumn_ext. intros j Hj. reflexivity. }
  rewrite Etail.
  destruct i as [|i].
  - fold s0. field. exact Hp.
  - assert (Hi' : (i < n)%nat) by lia.
    pose proof (Hy i Hi') as Hrow. simpl in Hrow.
    rewrite (sumn_ext n _ (fun j => a (S i) (S j) * y j +
                 (- (a (S i) O / a O O)) * (a O (S j) * y j))) in Hrow
      by (intros; unfold schur; field; exact Hp).
    rewrite sumn_plus, sumn_scal in Hrow. fold s0 in Hrow.
    set (T := sumn n (fun j => a (S i) (S j) * y j)) in *.
    assert (E : T == b (S i) - a (S i) O * b O / a O O + a (S i) O / a O O * s0)
      by lra.
    rewrite E. field. exact Hp.
Qed.

Lemma spsolve_correct (A : dia_matrix) (b : vec) :
  dominant (dia_shape A) (entry A) ->
  length b = dia_shape A ->
  exists x, spsolve A b = Ok x /\ length x = dia_shape A /\
    solves (dia_shape A) (entry A) (fun j => nth j x 0) (fun i => nth i b 0).
Proof.
  intros Hd Hb. unfold spsolve. rewrite Hb, Nat.eqb_refl. simpl negb. cbv iota.
  set (m := dia_shape A) in *.
  set (e := elim m (tab2 m (entry A)) (fun i => nth i b 0)).
  exists (map (fun i => Qred (e i)) (seq 0 m)).
  split; [reflexivity|]. split; [rewrite length_map, length_seq; reflexivity|].
  apply (solves_ext m (tab2 m (entry A)) _ e _ (fun i => nth i b 0)).
  - intros i j Hi Hj. symmetry. apply tab2_spec; assumption.
  - intros i Hi. rewrite nth_map_seq_gen by exact Hi. apply Qred_correct.
  - intros; reflexivity.
  - apply elim_correct. apply (dominant_ext m (entry A)); [|exact Hd].
    intros i j Hi Hj. apply tab2_spec; assumption.
Qed.

(** ** Off-diagonal row sums of banded matrices *)

Lemma one_band_off_sum (m i : nat) (p : Z * Q) :
  sumn m (fun j => if (j =? i)%nat then 0 else Qabs (band_coeff i j p)) <=
  if (fst p =? 0)%Z then 0 else Qabs (snd p).
Proof.
  destruct p as [off c]. unfold band_coeff; simpl fst; simpl snd.
  destruct (Z.eqb_spec off 0) as [E0|E0].
  - rewrite <- (sumn_zero m). apply sumn_le. intros j Hj.
    destruct (Nat.eqb_spec j i); [apply Qle_refl|].
    destruct (Z.eqb_spec off (Z.of_nat j - Z.of_nat i)); [lia | apply Qle_refl].
  - rewrite (sumn_ext m _
      (fun j => if (j =? Z.to_nat (Z.of_nat i + off))%nat
                then (if (0 <=? Z.of_nat i + off)%Z then Qabs c else 0) else 0)).
    + rewrite sumn_delta.
      destruct (_ <? _)%nat; [|apply Qabs_nonneg].
      destruct (_ <=? _)%Z; [apply Qle_refl | apply Qabs_nonneg].
    + intros j Hj.
      destruct (Nat.eqb_spec j i);
        destruct (Z.eqb_spec off (Z.of_nat j - Z.of_nat i));
        destruct (Nat.eqb_spec j (Z.to_nat (Z.of_nat i + off)));
        destruct (Z.leb_spec 0 (Z.of_nat i + off)); try lia; reflexivity.
Qed.

Lemma Qabs_Qsum_coeff (i j : nat) (bands : list (Z * Q)) :
  Qabs (Qsum (map (band_coeff i j) bands)) <=
  Qsum (map (fun p => Qabs (band_coeff i j p)) bands).
Proof.
  induction bands as [|p t IH]; simpl; [apply Qle_refl|].
  eapply Qle_trans; [apply Qabs_triangle|].
  apply Qplus_le_compat; [apply Qle_refl | exact IH].
Qed.

Lemma off_sum_banded (m : Z) (bands : list (Z * Q)) (i : nat) :
  (i < Z.to_nat m)%nat ->
  off_sum (Z.to_nat m) (entry (banded m bands)) i <= band_bound bands.
Proof.
  intros Hi. unfold off_sum.
  apply Qle_trans with
    (sumn (Z.to_nat m) (fun j => if (j =? i)%nat then 0
        else Qsum (map (fun p => Qabs (band_coeff i j p)) bands))).
  { apply sumn_le. intros j Hj. destruct (j =? i)%nat; [apply Qle_refl|].
    rewrite entry_banded by assumption. apply Qabs_Qsum_coeff. }
  unfold band_bound. clear Hi.
  induction bands as [|p t IH]; simpl.
  - rewrite <- (sumn_zero (Z.to_nat m)). apply sumn_le.
    intros j _. destruct (j =? i)%nat; apply Qle_refl.
  - rewrite (sumn_ext _ _ (fun j =>
        (if (j =? i)%nat then 0 else Qabs (band_coeff i j p)) +
        (if (j =? i)%nat then 0
         else Qsum (map (fun p => Qabs (band_coeff i j p)) t))))
      by (intros j _; destruct (j =? i)%nat; ring).
    rewrite sumn_plus.
    apply Qplus_le_compat; [apply one_band_off_sum | exact IH].
Qed.

(** ** Entries of the assembled matrices *)

Ltac band_cases :=
  unfold band_coeff, tridiagonal, five_banded, dist; simpl fst; simpl snd;
  repeat match goal with
         | |- context [Z.eqb ?a ?b] => destruct (Z.eqb_spec a b); try lia
         end;
  simpl; try ring.

Lemma entry_A1 (n : Z) (i j : nat) :
  (i < Z.to_nat n)%nat -> (j < Z.to_nat n)%nat ->
  entry (banded n A1_bands) i j == tridiagonal 4 (-1) i j.
Proof.
  intros Hi Hj. rewrite entry_banded by assumption.
  unfold A1_bands. simpl map. unfold Qsum, fold_right. band_cases.
Qed.

Lemma entry_B1 (n : Z) (i j : nat) :
  (i < Z.to_nat n)%nat -> (j < Z.to_nat n)%nat ->
  entry (banded n B1_bands) i j == tridiagonal 0 1 i j.
Proof.
  intros Hi Hj. rewrite entry_banded by assumption.
  unfold B1_bands. simpl map. unfold Qsum, fold_right. band_cases.
Qed.

Lemma entry_A2 (r : Q) (N : Z) (i j : nat) :
  (2 <= Z.abs N)%Z ->
  (i < Z.to_nat (N * N))%nat -> (j < Z.to_nat (N * N))%nat ->
  entry (banded (N * N) (A2_bands r N)) i j ==
  five_banded (Z.abs N) (1 + 4 * r) (- r) i j.
Proof.
  intros HN Hi Hj. rewrite entry_banded by assumption.
  unfold A2_bands. simpl map. unfold Qsum, fold_right. band_cases.
Qed.

Lemma entry_M2 (r : Q) (N : Z) (i j : nat) :
  (2 <= Z.abs N)%Z ->
  (i < Z.to_nat (N * N))%nat -> (j < Z.to_nat (N * N))%nat ->
  entry (banded (N * N) (M2_bands r N)) i j ==
  five_banded (Z.abs N) (1 - 4 * r) r i j.
Proof.
  intros HN Hi Hj. rewrite entry_banded by assumption.
  unfold M2_bands. simpl map. unfold Qsum, fold_right. band_cases.
Qed.

(** ** The implicit matrices are symmetric and dominant *)

Lemma tridiagonal_sym (d c : Q) (i j : nat) : tridiagonal d c i j = tridiagonal d c j i.
Proof.
  unfold tridiagonal, dist.
  replace (Z.abs (Z.of_nat i - Z.of_nat j)) with (Z.abs (Z.of_nat j - Z.of_nat i)) by lia.
  reflexivity.
Qed.

Lemma five_banded_sym (n : Z) (d c : Q) (i j : nat) :
  five_banded n d c i j = five_banded n d c j i.
Proof.
  unfold five_banded, dist.
  replace (Z.abs (Z.of_nat i - Z.of_nat j)) with (Z.abs (Z.of_nat j - Z.of_nat i)) by lia.
  reflexivity.
Qed.

Lemma A1_symmetric (n : Z) : symmetric (Z.to_nat n) (entry (banded n A1_bands)).
Proof.
  intros i j Hi Hj. rewrite !entry_A1 by assumption.
  rewrite tridiagonal_sym. reflexivity.
Qed.

Lemma A2_symmetric (r : Q) (N : Z) :
  (2 <= Z.abs N)%Z ->
  symmetric (Z.to_nat (N * N)) (entry (banded (N * N) (A2_bands r N))).
Proof.
  intros HN i j Hi Hj. rewrite !entry_A2 by assumption.
  rewrite five_banded_sym. reflexivity.
Qed.

Lemma A1_diag (n : Z) (i : nat) :
  (i < Z.to_nat n)%nat -> Qabs (entry (banded n A1_bands) i i) == 4.
Proof.
  intros Hi. rewrite entry_A1 by assumption.
  unfold tridiagonal, dist. rewrite Z.sub_diag. reflexivity.
Qed.

Lemma A1_off_sum (n : Z) (i : nat) :
  (i < Z.to_nat n)%nat -> off_sum (Z.to_nat n) (entry (banded n A1_bands)) i <= 2.
Proof.
  intros Hi. eapply Qle_trans; [apply off_sum_banded; exact Hi|].
  unfold band_bound, A1_bands; simpl. lra.
Qed.

Lemma A1_dominant (n : Z) : dominant (Z.to_nat n) (entry (banded n A1_bands)).
Proof.
  intros i Hi. rewrite A1_diag by exact Hi.
  pose proof (A1_off_sum n i Hi). lra.
Qed.

Lemma Qabs_neg_coeff (r : Q) : 0 < r -> Qabs (- r * 1) == r.
Proof.
  intros Hr. setoid_replace (- r * 1) with (- r) by ring.
  rewrite Qabs_opp. apply Qabs_pos. lra.
Qed.

Lemma A2_diag (r : Q) (N : Z) (i : nat) :
  0 < r -> (2 <= Z.abs N)%Z -> (i < Z.to_nat (N * N))%nat ->
  Qabs (entry (banded (N * N) (A2_bands r N)) i i) == 1 + 4 * r.
Proof.
  intros Hr HN Hi. rewrite entry_A2 by assumption.
  unfold five_banded, dist. rewrite Z.sub_diag.
  change (Z.abs 0 =? 0)%Z with true. cbv iota.
  apply Qabs_pos. lra.
Qed.

Lemma A2_off_sum (r : Q) (N : Z) (i : nat) :
  0 < r -> (2 <= Z.abs N)%Z -> (i < Z.to_nat (N * N))%nat ->
  off_sum (Z.to_nat (N * N)) (entry (banded (N * N) (A2_bands r N))) i <= 4 * r.
Proof.
  intros Hr HN Hi. eapply Qle_trans; [apply off_sum_banded; exact Hi|].
  unfold band_bound, A2_bands. cbn [map Qsum fold_right fst snd].
  change (0 =? 0)%Z with true. change (-1 =? 0)%Z with false.
  change (1 =? 0)%Z with false. cbv iota.
  destruct (Z.eqb_spec N 0); [lia|]. destruct (Z.eqb_spec (- N) 0); [lia|].
  rewrite !Qabs_neg_coeff by exact Hr. lra.
Qed.

Lemma A2_dominant (r : Q) (N : Z) :
  0 < r -> (2 <= Z.abs N)%Z ->
  dominant (Z.to_nat (N * N)) (entry (banded (N * N) (A2_bands r N))).
Proof.
  intros Hr HN i Hi. rewrite A2_diag by assumption.
  pose proof (A2_off_sum r N i Hr HN Hi). lra.
Qed.

Lemma is_solution_solves (A : dia_matrix) (x b : vec) :
  is_solution A x b <->
  length x = dia_shape A /\ length b = dia_shape A /\
  solves (dia_shape A) (entry A) (fun j => nth j x 0) (fun i => nth i b 0).
Proof.
  split.
  - intros [y [Hy [Hlen Hyb]]].
    pose proof (mat_vec_length _ _ _ Hy) as [Hx Hly].
    rewrite mat_vec_ok in Hy by exact Hx.
    assert (Ey : y = map (row_dot A x) (seq 0 (dia_shape A))) by congruence.
    split; [exact Hx|]. split; [congruence|].
    intros i Hi. rewrite <- row_dot_entries by exact Hi.
    rewrite <- (Hyb i) by lia. rewrite Ey, nth_map_seq by exact Hi. reflexivity.
  - intros [Hx [Hb Hs]].
    exists (map (row_dot A x) (seq 0 (dia_shape A))).
    split; [apply mat_vec_ok; exact Hx|].
    split; [rewrite length_map, length_seq; congruence|].
    rewrite length_map, length_seq. intros i Hi.
    rewrite nth_map_seq by exact Hi.
    rewrite row_dot_entries by exact Hi. apply Hs. exact Hi.
Qed.

Lemma dominant_unique_solution (A : dia_matrix) :
  dominant (dia_shape A) (entry A) -> unique_solution A.
Proof.
  intros Hd b Hb.
  destruct (spsolve_correct A b Hd Hb) as [x [_ [Hlen Hx]]].
  exists x. split; [apply is_solution_solves; auto|].
  intros x' Hx'. apply is_solution_solves in Hx'. destruct Hx' as [Hl' [_ Hs']].
  split; [congruence|]. rewrite Hl'. intros i Hi.
  apply (dominant_unique (dia_shape A) (entry A) (fun i => nth i b 0)
           (fun j => nth j x' 0) (fun j => nth j x 0)); assumption.
Qed.

(** Below the smallest sizes the library calls raise. *)

Lemma assemble_A1_small (N : Z) : (N < 3)%Z -> assemble_A1 N = Raise ValueError.
Proof.
  intros HN. destruct (Z.eq_dec N 2) as [->|Hne]; [reflexivity|].
  unfold assemble_A1, np_ones.
  destruct (Z.ltb_spec (N - 2) 0); [reflexivity | lia].
Qed.

Lemma assemble_A2_small (r : Q) (N : Z) :
  (Z.abs N < 2)%Z -> assemble_A2 r N = Raise ValueError.
Proof.
  intros HN. assert (H : N = (-1)%Z \/ N = 0%Z \/ N = 1%Z) by lia.
  destruct H as [-> | [-> | ->]]; reflexivity.
Qed.

Lemma assemble_M2_small (r : Q) (N : Z) :
  (Z.abs N < 2)%Z -> assemble_M2 r N = Raise ValueError.
Proof.
  intros HN. assert (H : N = (-1)%Z \/ N = 0%Z \/ N = 1%Z) by lia.
  destruct H as [-> | [-> | ->]]; reflexivity.
Qed.

(** ** Loops and stores *)

Lemma bind_ok_inv {A B : Type} (e : result A) (f : A -> result B) (y : B) :
  bind e f = Ok y -> exists a, e = Ok a /\ f a = Ok y.
Proof. destruct e as [a|err]; simpl; [eauto | discriminate]. Qed.

Ltac bind_inv H :=
  let a := fresh "a" in
  let Ha := fresh "Ha" in
  apply bind_ok_inv in H; destruct H as [a [Ha H]].

Lemma set_nth_length {A : Type} (p : nat) (x : A) (l : list A) :
  length (set_nth p x l) = length l.
Proof.
  revert p; induction l as [|a l IH]; intros [|p]; simpl; auto.
Qed.

Lemma nth_set_nth {A : Type} (p i : nat) (x d : A) (l : list A) :
  (p < length l)%nat ->
  nth i (set_nth p x l) d = if (i =? p)%nat then x else nth i l d.
Proof.
  revert p i; induction l as [|a l IH]; intros [|p] [|i] H; simpl in *;
    try lia; try reflexivity.
  apply IH. lia.
Qed.

Lemma py_pos_nonneg (len : nat) (i : Z) :
  (0 <= i)%Z ->
  py_pos len i = if (i <? Z.of_nat len)%Z then Ok (Z.to_nat i) else Raise IndexError.
Proof.
  intros Hi. unfold py_pos.
  destruct (Z.ltb_spec i 0); [lia|].
  destruct (Z.leb_spec 0 i); [|lia]. reflexivity.
Qed.

Lemma py_pos_neg (len : nat) (i : Z) :
  (i < 0)%Z ->
  py_pos len i = if (0 <=? i + Z.of_nat len)%Z
                 then Ok (Z.to_nat (i + Z.of_nat len)) else Raise IndexError.
Proof.
  intros Hi. unfold py_pos.
  destruct (Z.ltb_spec i 0); [|lia].
  destruct (Z.leb_spec 0 (i + Z.of_nat len)); simpl; [|reflexivity].
  destruct (Z.ltb_spec (i + Z.of_nat len) (Z.of_nat len)); [reflexivity | lia].
Qed.

Lemma spsolve_length (A : dia_matrix) (b x : vec) :
  spsolve A b = Ok x -> length x = dia_shape A.
Proof.
  unfold spsolve. destruct (negb _); [discriminate|].
  intros H. injection H as <-. rewrite length_map, length_seq. reflexivity.
Qed.

(** The two ways to reason about a counted loop: what a completed loop
    established, and that the loop completes. *)
Lemma for_each_completed {S : Type} (body : Z -> S -> result S)
    (I : nat -> S -> Prop) (a : Z) (n : nat) :
  (forall k s s', (k < n)%nat -> I k s ->
     body (a + Z.of_nat k)%Z s = Ok s' -> I (Datatypes.S k) s') ->
  forall s s', I O s ->
    for_each body (map (fun k => (a + Z.of_nat k)%Z) (seq 0 n)) s = Ok s' ->
    I n s'.
Proof.
  intros Hstep.
  assert (G : forall m st s s', (st + m = n)%nat -> I st s ->
     for_each body (map (fun k => (a + Z.of_nat k)%Z) (seq st m)) s = Ok s' ->
     I n s').
  { induction m as [|m IH]; intros st s s' E Hs Hrun; simpl in Hrun.
    - injection Hrun as <-. replace n with st by lia. exact Hs.
    - bind_inv Hrun. apply (IH (Datatypes.S st) a0 s'); [lia | | exact Hrun].
      apply (Hstep st s a0); [lia | exact Hs | exact Ha]. }
  intros s s' Hs Hrun. apply (G n O s s'); [lia | exact Hs | exact Hrun].
Qed.

Lemma for_each_completes {S : Type} (body : Z -> S -> result S)
    (I : nat -> S -> Prop) (a : Z) (n : nat) :
  (forall k s, (k < n)%nat -> I k s ->
     exists s', body (a + Z.of_nat k)%Z s = Ok s') ->
  (forall k s s', (k < n)%nat -> I k s ->
     body (a + Z.of_nat k)%Z s = Ok s' -> I (Datatypes.S k) s') ->
  forall s, I O s ->
    exists s', for_each body (map (fun k => (a + Z.of_nat k)%Z) (seq 0 n)) s = Ok s'.
Proof.
  intros Hok Hstep.
  assert (G : forall m st s, (st + m = n)%nat -> I st s ->
     exists s',
       for_each body (map (fun k => (a + Z.of_nat k)%Z) (seq st m)) s = Ok s').
  { induction m as [|m IH]; intros st s E Hs; simpl.
    - eauto.
    - destruct (Hok st s) as [s1 H1]; [lia | exact Hs |].
      rewrite H1. simpl. apply IH; [lia|].
      apply (Hstep st s s1); [lia | exact Hs | exact H1]. }
  intros s Hs. apply (G n O s); [lia | exact Hs].
Qed.

(** ** The 1D loop *)

Lemma step_1d_length (A B : dia_matrix) (l r : Q) (u x : vec) :
  step_1d A B l r u = Ok x -> length x = dia_shape A.
Proof.
  unfold step_1d. intros H. bind_inv H. eapply spsolve_length; exact H.
Qed.

Lemma set_row_exact (cols : nat) (st : list vec) (i : Z) (v : vec) :
  length v = cols -> (0 <= i < Z.of_nat (length st))%Z ->
  set_row cols st i v = Ok (set_nth (Z.to_nat i) v st).
Proof.
  intros Hv Hi. unfold set_row. rewrite py_pos_nonneg by lia.
  destruct (Z.ltb_spec i (Z.of_nat (length st))); [|lia].
  simpl. rewrite Hv, Nat.eqb_refl. reflexivity.
Qed.

Lemma set_row_ok_index (cols : nat) (st st' : list vec) (i : Z) (v : vec) :
  (0 <= i)%Z -> set_row cols st i v = Ok st' -> (i < Z.of_nat (length st))%Z.
Proof.
  intros Hi H. unfold set_row in H. rewrite py_pos_nonneg in H by lia.
  destruct (Z.ltb_spec i (Z.of_nat (length st))); [lia | discriminate].
Qed.

Lemma body_1d_inv (A B : dia_matrix) (l r : Q) (T : nat) (u0 : vec)
    (k : nat) (s s' : loop1) :
  inv_1d A B l r T u0 k s ->
  body_1d A B l r (dia_shape A) (1 + Z.of_nat k) s = Ok s' ->
  inv_1d A B l r T u0 (S k) s'.
Proof.
  intros [HT [Hk [HkT [Hu [H0 [Hlen Hsteps]]]]]] Hb.
  unfold body_1d in Hb. bind_inv Hb. bind_inv Hb.
  pose proof (step_1d_length _ _ _ _ _ _ Ha) as Hla.
  assert (Hidx : (1 + Z.of_nat k < Z.of_nat (length (storage s)))%Z).
  { eapply set_row_ok_index; [|exact Ha0]. lia. }
  rewrite set_row_exact in Ha0 by (try assumption; lia).
  replace (Z.to_nat (1 + Z.of_nat k)) with (S k) in Ha0 by lia.
  assert (Es : s' = mk_loop1 a (set_nth (S k) a (storage s)) (S (solves1 s)))
    by congruence.
  subst s'. clear Hb Ha0.
  unfold inv_1d; cbn [storage interior_points solves1].
  rewrite set_nth_length.
  split; [exact HT|]. split; [congruence|]. split; [lia|].
  split; [rewrite nth_set_nth, Nat.eqb_refl by lia; reflexivity|].
  split; [rewrite nth_set_nth by lia; exact H0|].
  split.
  - intros i Hi. rewrite nth_set_nth by lia.
    destruct (Nat.eqb_spec i (S k)); [exact Hla | apply Hlen; lia].
  - intros i Hi. rewrite !nth_set_nth by lia.
    destruct (Nat.eqb_spec i (S k)); [lia|].
    destruct (Nat.eqb_spec (S i) (S k)) as [E|E].
    + injection E as ->. rewrite <- Hu. exact Ha.
    + apply Hsteps. lia.
Qed.
Lemma py_get_nonneg (v : vec) (i : Z) :
  (0 <= i < Z.of_nat (length v))%Z -> py_get v i = Ok (nth (Z.to_nat i) v 0).
Proof.
  intros Hi. unfold py_get. rewrite py_pos_nonneg by lia.
  destruct (Z.ltb_spec i (Z.of_nat (length v))); [reflexivity | lia].
Qed.

Lemma py_get_neg (v : vec) (i : Z) :
  (i < 0 <= i + Z.of_nat (length v))%Z ->
  py_get v i = Ok (nth (Z.to_nat (i + Z.of_nat (length v))) v 0).
Proof.
  intros Hi. unfold py_get. rewrite py_pos_neg by lia.
  destruct (Z.leb_spec 0 (i + Z.of_nat (length v))); [reflexivity | lia].
Qed.

Lemma py_set_nonneg (v : vec) (i : Z) (x : Q) :
  (0 <= i < Z.of_nat (length v))%Z -> py_set v i x = Ok (set_nth (Z.to_nat i) x v).
Proof.
  intros Hi. unfold py_set. rewrite py_pos_nonneg by lia.
  destruct (Z.ltb_spec i (Z.of_nat (length v))); [reflexivity | lia].
Qed.

Lemma py_set_neg (v : vec) (i : Z) (x : Q) :
  (i < 0 <= i + Z.of_nat (length v))%Z ->
  py_set v i x = Ok (set_nth (Z.to_nat (i + Z.of_nat (length v))) x v).
Proof.
  intros Hi. unfold py_set. rewrite py_pos_neg by lia.
  destruct (Z.leb_spec 0 (i + Z.of_nat (length v))); [reflexivity | lia].
Qed.

Lemma rhs_1d_ok (B : dia_matrix) (l r : Q) (u : vec) :
  length u = dia_shape B -> (2 <= length u)%nat ->
  rhs_1d B l r u = Ok (rhs_closed B l r u).
Proof.
  intros Hlen H2. unfold rhs_1d, rhs_closed.
  rewrite py_get_nonneg by lia. cbn [bind].
  rewrite py_get_neg by lia. cbn [bind].
  rewrite mat_vec_ok by exact Hlen. cbn [bind].
  rewrite py_set_nonneg by (rewrite length_map, length_seq; lia). cbn [bind].
  rewrite py_set_neg by (rewrite set_nth_length, length_map, length_seq; lia).
  rewrite set_nth_length, length_map, length_seq, <- Hlen.
  change (Z.to_nat 1) with 1%nat. change (Z.to_nat 0) with 0%nat.
  replace (Z.to_nat (-2 + Z.of_nat (length u))) with (length u - 2)%nat by lia.
  replace (Z.to_nat (-1 + Z.of_nat (length u))) with (length u - 1)%nat by lia.
  reflexivity.
Qed.

Lemma rhs_1d_short (B : dia_matrix) (l r : Q) (u : vec) :
  (length u < 2)%nat -> rhs_1d B l r u = Raise IndexError.
Proof.
  intros H. unfold rhs_1d, py_get. rewrite py_pos_nonneg by lia.
  destruct (Z.ltb_spec 1 (Z.of_nat (length u))); [lia | reflexivity].
Qed.

Lemma rhs_closed_length (B : dia_matrix) (l r : Q) (u : vec) :
  length (rhs_closed B l r u) = dia_shape B.
Proof.
  unfold rhs_closed. rewrite !set_nth_length, length_map, length_seq. reflexivity.
Qed.

Lemma step_1d_ok (A B : dia_matrix) (l r : Q) (u : vec) :
  dia_shape A = dia_shape B -> length u = dia_shape B -> (2 <= length u)%nat ->
  exists x, step_1d A B l r u = Ok x /\ spsolve A (rhs_closed B l r u) = Ok x.
Proof.
  intros HAB Hlen H2. unfold step_1d. rewrite rhs_1d_ok by assumption. cbn [bind].
  unfold spsolve. rewrite rhs_closed_length, HAB, Nat.eqb_refl. simpl negb.
  cbv iota. eauto.
Qed.

Lemma py_slice_interior_length (arr : vec) :
  length (py_slice arr 1 (-1)) = (length arr - 2)%nat.
Proof.
  unfold py_slice, slice_bound.
  change (1 <? 0)%Z with false. change (-1 <? 0)%Z with true. cbv iota.
  change (Z.to_nat 1) with 1%nat.
  rewrite length_firstn, length_skipn. lia.
Qed.

Lemma nth_interior (arr : vec) (i : nat) :
  (i + 2 < length arr)%nat ->
  nth i (py_slice arr 1 (-1)) 0 = nth (S i) arr 0.
Proof.
  intros Hi. unfold py_slice, slice_bound.
  change (1 <? 0)%Z with false. change (-1 <? 0)%Z with true. cbv iota.
  change (Z.to_nat 1) with 1%nat.
  destruct arr as [|a0 arr]; [simpl in Hi; lia|].
  replace (Nat.min 1 (length (a0 :: arr))) with 1%nat by (simpl; lia).
  cbn [skipn].
  rewrite nth_firstn.
  destruct (Nat.ltb_spec i (Z.to_nat (Z.max (-1 + Z.of_nat (length (a0 :: arr))) 0) - 1));
    [reflexivity | lia].
Qed.

Lemma np_zeros2_ok (rows cols : Z) (st : list vec) :
  np_zeros2 rows cols = Ok st ->
  (0 <= rows)%Z /\ (0 <= cols)%Z /\
  st = repeat (repeat 0 (Z.to_nat cols)) (Z.to_nat rows).
Proof.
  unfold np_zeros2.
  destruct (Z.ltb_spec rows 0); destruct (Z.ltb_spec cols 0); simpl;
    try discriminate.
  intros H'. injection H' as <-. auto.
Qed.

Lemma py_range_from (a b : Z) :
  py_range a b = map (fun k => (a + Z.of_nat k)%Z) (seq 0 (Z.to_nat (b - a))).
Proof. reflexivity. Qed.

(** What a completed 1D run recorded. *)
Lemma run_1d_completed (N : Z) (l r : Q) (T : Z) (arr : vec)
    (traj : list vec) (k : nat) :
  length arr = Z.to_nat N ->
  run_1d N l r T arr = Ok (traj, k) ->
  (3 <= N)%Z /\ (1 <= T)%Z /\
  k = Z.to_nat (T - 1) /\ length traj = Z.to_nat T /\
  nth 0 traj [] = py_slice arr 1 (-1) /\
  (forall i, (i < Z.to_nat T)%nat -> length (nth i traj []) = Z.to_nat (N - 2)) /\
  (forall i, (i < k)%nat ->
     step_1d (banded (N - 2) A1_bands) (banded (N - 2) B1_bands) l r
             (nth i traj []) = Ok (nth (S i) traj [])).
Proof.
  intros Harr Hrun.
  assert (HN : (3 <= N)%Z).
  { destruct (Z.le_gt_cases 3 N) as [|Hlt]; [assumption|].
    unfold run_1d in Hrun. rewrite assemble_A1_small in Hrun by lia.
    discriminate. }
  unfold run_1d in Hrun.
  rewrite assemble_A1_closed, assemble_B1_closed in Hrun by exact HN.
  cbn [bind] in Hrun.
  set (A := banded (N - 2) A1_bands) in *.
  set (B := banded (N - 2) B1_bands) in *.
  set (u0 := py_slice arr 1 (-1)) in *.
  bind_inv Hrun. apply np_zeros2_ok in Ha. destruct Ha as [HT0 [_ ->]].
  bind_inv Hrun. bind_inv Hrun. injection Hrun as <- <-.
  assert (Hu0 : length u0 = Z.to_nat (N - 2)).
  { unfold u0. rewrite py_slice_interior_length. lia. }
  pose proof (set_row_ok_index _ _ _ _ _ (Z.le_refl 0) Ha) as HT.
  rewrite repeat_length in HT.
  rewrite set_row_exact in Ha by (try assumption; rewrite repeat_length; lia).
  change (Z.to_nat 0) with 0%nat in Ha.
  assert (Ea : a = set_nth 0 u0 (repeat (repeat 0 (Z.to_nat (N - 2))) (Z.to_nat T)))
    by congruence.
  clear Ha. subst a.
  rewrite py_range_from in Ha0.
  assert (Hinv : inv_1d A B l r (Z.to_nat T) u0 (Z.to_nat (T - 1)) a0).
  { apply (for_each_completed
             (body_1d A B l r (Z.to_nat (N - 2)))
             (inv_1d A B l r (Z.to_nat T) u0) 1 (Z.to_nat (T - 1))) in Ha0.
    - exact Ha0.
    - intros j s s' Hj Hs Hb. eapply body_1d_inv; [exact Hs | exact Hb].
    - unfold inv_1d; cbn [storage interior_points solves1].
      rewrite set_nth_length, repeat_length.
      split; [reflexivity|]. split; [reflexivity|]. split; [lia|].
      rewrite nth_set_nth by (rewrite repeat_length; lia).
      split; [reflexivity|]. split; [reflexivity|].
      split; [|intros; lia].
      intros i Hi. replace i with 0%nat by lia.
      rewrite nth_set_nth by (rewrite repeat_length; lia). exact Hu0. }
  destruct Hinv as [H1 [H2 [H3 [H4 [H5 [H6 H7]]]]]].
  split; [exact HN|]. split; [lia|]. split; [exact H2|]. split; [exact H1|].
  split; [exact H5|]. split.
  - intros i Hi. apply H6. lia.
  - intros i Hi. apply H7. lia.
Qed.
(** A 1D run completes as soon as there are two interior cells and
    one snapshot to record. *)
Lemma run_1d_completes (N : Z) (l r : Q) (T : Z) (arr : vec) :
  (4 <= N)%Z -> (1 <= T)%Z -> length arr = Z.to_nat N ->
  exists traj k, run_1d N l r T arr = Ok (traj, k).
Proof.
  intros HN HT Harr. unfold run_1d.
  rewrite assemble_A1_closed, assemble_B1_closed by lia. cbn [bind].
  set (A := banded (N - 2) A1_bands).
  set (B := banded (N - 2) B1_bands).
  set (u0 := py_slice arr 1 (-1)).
  assert (Hu0 : length u0 = Z.to_nat (N - 2)).
  { unfold u0. rewrite py_slice_interior_length. lia. }
  unfold np_zeros2.
  destruct (Z.ltb_spec T 0); [lia|]. destruct (Z.ltb_spec (N - 2) 0); [lia|].
  cbn [orb bind].
  rewrite set_row_exact by (try assumption; rewrite repeat_length; lia).
  cbn [bind]. change (Z.to_nat 0) with 0%nat.
  rewrite py_range_from.
  destruct (for_each_completes
              (body_1d A B l r (Z.to_nat (N - 2)))
              (inv_1d A B l r (Z.to_nat T) u0) 1 (Z.to_nat (T - 1)))
    with (s := mk_loop1 u0
                 (set_nth 0 u0 (repeat (repeat 0 (Z.to_nat (N - 2))) (Z.to_nat T))) 0)
    as [s' Hs'].
  - intros k s Hk [H1 [H2 [H3 [H4 [H5 [H6 H7]]]]]].
    unfold body_1d.
    destruct (step_1d_ok A B l r (interior_points s)) as [x [Hx Hsp]].
    + reflexivity.
    + rewrite H4. apply H6. lia.
    + rewrite H4, H6 by lia. simpl. lia.
    + rewrite Hx. cbn [bind].
      rewrite set_row_exact.
      * cbn [bind]. eauto.
      * apply spsolve_length in Hsp. exact Hsp.
      * lia.
  - intros k s s' Hk Hs Hb. eapply body_1d_inv; [exact Hs | exact Hb].
  - unfold inv_1d; cbn [storage interior_points solves1].
    rewrite set_nth_length, repeat_length.
    split; [reflexivity|]. split; [reflexivity|]. split; [lia|].
    rewrite nth_set_nth by (rewrite repeat_length; lia).
    split; [reflexivity|]. split; [reflexivity|].
    split; [|intros; lia].
    intros i Hi. replace i with 0%nat by lia.
    rewrite nth_set_nth by (rewrite repeat_length; lia). exact Hu0.
  - rewrite Hs'. cbn [bind]. eauto.
Qed.

(** ** The 2D loop *)

Lemma chunks_length (rows cols : nat) (v : vec) :
  length (chunks rows cols v) = rows.
Proof.
  revert v; induction rows as [|rows IH]; intros v; simpl; auto.
Qed.

Lemma concat_chunks (rows cols : nat) (v : vec) :
  length v = (rows * cols)%nat -> concat (chunks rows cols v) = v.
Proof.
  revert v; induction rows as [|rows IH]; intros v Hv; simpl in *.
  - destruct v; [reflexivity | discriminate].
  - rewrite IH by (rewrite length_skipn; lia). apply firstn_skipn.
Qed.

Lemma chunks_flat_map (f : nat -> vec) (cols : nat) (l : list nat) :
  (forall i, length (f i) = cols) ->
  chunks (length l) cols (flat_map f l) = map f l.
Proof.
  intros Hf. induction l as [|a l IH]; simpl; [reflexivity|].
  rewrite firstn_app, <- (Hf a), Nat.sub_diag, firstn_all. simpl.
  rewrite app_nil_r. f_equal.
  rewrite skipn_app, Nat.sub_diag, skipn_all. simpl. rewrite (Hf a). exact IH.
Qed.

Lemma flat_map_length_const (f : nat -> vec) (cols : nat) (l : list nat) :
  (forall i, length (f i) = cols) ->
  length (flat_map f l) = (length l * cols)%nat.
Proof.
  intros Hf. induction l as [|a l IH]; simpl; [reflexivity|].
  rewrite length_app, Hf, IH. reflexivity.
Qed.

Lemma initial_values_ok (N : Z) (mask : nat -> nat -> bool) :
  (0 <= N)%Z ->
  initial_values N mask =
    Ok (flat_map (mask_row mask (Z.to_nat N)) (seq 0 (Z.to_nat N))).
Proof.
  intros HN. unfold initial_values.
  destruct (Z.ltb_spec N 0); [lia | reflexivity].
Qed.

Lemma initial_values_length (N : Z) (mask : nat -> nat -> bool) :
  length (flat_map (mask_row mask (Z.to_nat N)) (seq 0 (Z.to_nat N))) =
  (Z.to_nat N * Z.to_nat N)%nat.
Proof.
  rewrite (flat_map_length_const _ (Z.to_nat N)), length_seq; [reflexivity|].
  intros i. unfold mask_row. rewrite length_map, length_seq. reflexivity.
Qed.

Lemma initial_frame (N : Z) (mask : nat -> nat -> bool) :
  chunks (Z.to_nat N) (Z.to_nat N)
    (flat_map (mask_row mask (Z.to_nat N)) (seq 0 (Z.to_nat N))) =
  map (mask_row mask (Z.to_nat N)) (seq 0 (Z.to_nat N)).
Proof.
  pose proof (chunks_flat_map (mask_row mask (Z.to_nat N)) (Z.to_nat N)
                (seq 0 (Z.to_nat N))) as E.
  rewrite length_seq in E. apply E.
  intros i. unfold mask_row. rewrite length_map, length_seq. reflexivity.
Qed.

Lemma reshape_ok (N : Z) (v : vec) :
  (0 <= N)%Z -> length v = (Z.to_nat N * Z.to_nat N)%nat ->
  reshape N v = Ok (chunks (Z.to_nat N) (Z.to_nat N) v).
Proof.
  intros HN Hv. unfold reshape.
  destruct (Z.ltb_spec N 0); [lia|].
  destruct (Z.eqb_spec (Z.of_nat (length v)) (N * N)); [reflexivity | nia].
Qed.

Lemma reshape_inv (N : Z) (v : vec) (frame : list vec) :
  (0 <= N)%Z -> reshape N v = Ok frame ->
  length v = (Z.to_nat N * Z.to_nat N)%nat /\
  frame = chunks (Z.to_nat N) (Z.to_nat N) v.
Proof.
  intros HN. unfold reshape.
  destruct (Z.ltb_spec N 0) as [Hneg|_]; [lia|].
  destruct (Z.eqb_spec (Z.of_nat (length v)) (N * N)); [|discriminate].
  intros H. split; [nia | congruence].
Qed.

Lemma set_frame_inv (arr arr' : list (list vec)) (i : Z) (frame : list vec) :
  (0 <= i)%Z -> set_frame arr i frame = Ok arr' ->
  (i < Z.of_nat (length arr))%Z /\ arr' = set_nth (Z.to_nat i) frame arr.
Proof.
  intros Hi. unfold set_frame. rewrite py_pos_nonneg by lia.
  destruct (Z.ltb_spec i (Z.of_nat (length arr))); [|discriminate].
  cbn [bind]. intros H'. split; [lia | congruence].
Qed.

Lemma set_frame_ok (arr : list (list vec)) (i : Z) (frame : list vec) :
  (0 <= i < Z.of_nat (length arr))%Z ->
  set_frame arr i frame = Ok (set_nth (Z.to_nat i) frame arr).
Proof.
  intros Hi. unfold set_frame. rewrite py_pos_nonneg by lia.
  destruct (Z.ltb_spec i (Z.of_nat (length arr))); [reflexivity | lia].
Qed.

Section Loop2D.

Variable cgs : dia_matrix -> vec -> vec * Z.
Variables A M : dia_matrix.
Variable N : Z.
Hypothesis N_nonneg : (0 <= N)%Z.

Lemma body_2d_inv (T : nat) (frame0 : list vec) (k : nat) (s s' : loop2) :
  inv_2d cgs A M N T frame0 k s ->
  body_2d cgs A M N (1 + Z.of_nat k) s = Ok s' ->
  inv_2d cgs A M N T frame0 (S k) s'.
Proof.
  intros [HT [Hk [HkT [Hv [Hcur [H0 Hsteps]]]]]] Hb.
  unfold body_2d in Hb. bind_inv Hb. bind_inv Hb. bind_inv Hb.
  apply reshape_inv in Ha0; [|exact N_nonneg]. destruct Ha0 as [Hlen ->].
  apply set_frame_inv in Ha1; [|lia]. destruct Ha1 as [Hidx ->].
  replace (Z.to_nat (1 + Z.of_nat k)) with (S k) in Hb by lia.
  assert (Es : s' = mk_loop2 (fst (cgs A a))
                      (set_nth (S k) (chunks (Z.to_nat N) (Z.to_nat N) (fst (cgs A a))) (frames s))
                      (S (solves2 s))) by congruence.
  subst s'. clear Hb.
  unfold inv_2d; cbn [frames values solves2].
  rewrite set_nth_length.
  split; [exact HT|]. split; [congruence|]. split; [lia|].
  split; [exact Hlen|].
  split; [rewrite nth_set_nth, Nat.eqb_refl by lia; reflexivity|].
  split; [rewrite nth_set_nth by lia; exact H0|].
  intros i Hi. rewrite !nth_set_nth by lia.
  destruct (Nat.eqb_spec i (S k)); [lia|].
  destruct (Nat.eqb_spec (S i) (S k)) as [E|E].
  - injection E as ->. exists a.
    rewrite Hcur, concat_chunks by exact Hv. auto.
  - apply Hsteps. lia.
Qed.

Lemma body_2d_ok (T : nat) (frame0 : list vec) (k : nat) (s : loop2) :
  (forall A' b, length (fst (cgs A' b)) = length b) ->
  dia_shape M = (Z.to_nat N * Z.to_nat N)%nat ->
  inv_2d cgs A M N T frame0 k s -> (S k < T)%nat ->
  exists s', body_2d cgs A M N (1 + Z.of_nat k) s = Ok s'.
Proof.
  intros Hcgs HM [HT [Hk [HkT [Hv [Hcur [H0 Hsteps]]]]]] HST.
  unfold body_2d. rewrite mat_vec_ok by congruence. cbn [bind].
  rewrite reshape_ok;
    [| exact N_nonneg | rewrite Hcgs, length_map, length_seq; exact HM].
  cbn [bind]. rewrite set_frame_ok by lia. cbn [bind]. eauto.
Qed.

End Loop2D.

Lemma chunks_rows (rows cols : nat) (v : vec) (i : nat) :
  length v = (rows * cols)%nat -> (i < rows)%nat ->
  length (nth i (chunks rows cols v) []) = cols.
Proof.
  revert v i; induction rows as [|rows IH]; intros v i Hv Hi; [lia|].
  simpl in *. destruct i as [|i].
  - rewrite length_firstn. lia.
  - apply IH; [rewrite length_skipn; lia | lia].
Qed.


Lemma np_zeros3_ok (steps N : Z) (arr : list (list vec)) :
  np_zeros3 steps N = Ok arr ->
  (0 <= steps)%Z /\ length arr = Z.to_nat steps.
Proof.
  unfold np_zeros3.
  destruct (Z.ltb_spec steps 0); destruct (Z.ltb_spec N 0); simpl;
    try discriminate.
  intros H'. injection H' as <-. rewrite repeat_length. auto.
Qed.

Section Run2D.

Variable cgs : dia_matrix -> vec -> vec * Z.
Variable r : Q.
Variable N : Z.
Variable mask : nat -> nat -> bool.
Variable steps : Z.

Let n := Z.to_nat N.
Let A := banded (N * N) (A2_bands r N).
Let M := banded (N * N) (M2_bands r N).

(** What a completed 2D run recorded. *)
Lemma run_2d_completed (traj : list (list vec)) (k : nat) :
  run_2d cgs r N mask steps = Ok (traj, k) ->
  (2 <= N)%Z /\ (1 <= steps)%Z /\
  k = Z.to_nat (steps - 1) /\ length traj = Z.to_nat steps /\
  nth 0 traj [] = map (mask_row mask n) (seq 0 n) /\
  (forall i, (i < k)%nat ->
     solved_from cgs A M N (nth i traj []) (nth (S i) traj [])).
Proof.
  intros Hrun.
  assert (HN : (2 <= Z.abs N)%Z).
  { destruct (Z.le_gt_cases 2 (Z.abs N)) as [|Hlt]; [assumption|].
    unfold run_2d in Hrun. rewrite assemble_A2_small in Hrun by lia.
    discriminate. }
  unfold run_2d in Hrun.
  rewrite assemble_A2_closed in Hrun by exact HN. cbn [bind] in Hrun.
  bind_inv Hrun.
  assert (HN0 : (0 <= N)%Z).
  { unfold initial_values in Ha.
    destruct (Z.ltb_spec N 0); [discriminate | assumption]. }
  rewrite initial_values_ok in Ha by exact HN0.
  assert (Ea : a = flat_map (mask_row mask n) (seq 0 n))
    by (unfold n; congruence).
  clear Ha. subst a.
  rewrite assemble_M2_closed in Hrun by exact HN. cbn [bind] in Hrun.
  fold A M in Hrun.
  bind_inv Hrun. apply np_zeros3_ok in Ha. destruct Ha as [Hs0 Hlen].
  bind_inv Hrun.
  apply reshape_inv in Ha; [|exact HN0]. destruct Ha as [Hv0 ->].
  fold n in Hv0. fold n in Hrun.
  unfold n in Hrun at 1 2. rewrite initial_frame in Hrun. fold n in Hrun.
  bind_inv Hrun.
  apply set_frame_inv in Ha; [|lia]. destruct Ha as [Hidx ->].
  change (Z.to_nat 0) with 0%nat in Hrun.
  bind_inv Hrun.
  rename a0 into a1.
  assert (Et : (traj, k) = (frames a1, solves2 a1)) by congruence.
  injection Et as -> ->. clear Hrun.
  rewrite py_range_from in Ha.
  assert (Hinv : inv_2d cgs A M N (Z.to_nat steps)
                   (map (mask_row mask n) (seq 0 n)) (Z.to_nat (steps - 1)) a1).
  { apply (for_each_completed (body_2d cgs A M N)
             (inv_2d cgs A M N (Z.to_nat steps)
                (map (mask_row mask n) (seq 0 n))) 1 (Z.to_nat (steps - 1)))
      in Ha.
    - exact Ha.
    - intros j s s' Hj Hs Hb. eapply body_2d_inv; [exact HN0 | exact Hs | exact Hb].
    - unfold inv_2d; cbn [frames values solves2].
      rewrite set_nth_length.
      split; [exact Hlen|]. split; [reflexivity|]. split; [lia|].
      split; [exact Hv0|].
      rewrite nth_set_nth by lia. cbn [Nat.eqb].
      split; [unfold n; rewrite initial_frame; reflexivity|].
      split; [reflexivity | intros; lia]. }
  destruct Hinv as [H1 [H2 [H3 [H4 [H5 [H6 H7]]]]]].
  split; [lia|]. split; [lia|]. split; [exact H2|]. split; [exact H1|].
  split; [exact H6 | rewrite H2; exact H7].
Qed.

(** A 2D run completes whenever the solver returns vectors of the
    length it was given, whatever its convergence flag. *)
Lemma run_2d_completes :
  (forall A' b, length (fst (cgs A' b)) = length b) ->
  (2 <= N)%Z -> (1 <= steps)%Z ->
  exists traj k, run_2d cgs r N mask steps = Ok (traj, k).
Proof.
  intros Hcgs HN Hs. unfold run_2d.
  rewrite assemble_A2_closed by lia. cbn [bind].
  rewrite initial_values_ok by lia. cbn [bind].
  rewrite assemble_M2_closed by lia. cbn [bind].
  fold A M n.
  unfold np_zeros3.
  destruct (Z.ltb_spec steps 0); [lia|]. destruct (Z.ltb_spec N 0); [lia|].
  cbn [orb bind].
  rewrite reshape_ok by (try lia; apply initial_values_length). cbn [bind].
  rewrite set_frame_ok by (rewrite repeat_length; lia). cbn [bind].
  change (Z.to_nat 0) with 0%nat. rewrite py_range_from.
  unfold n. rewrite initial_frame. fold n.
  destruct (for_each_completes (body_2d cgs A M N)
              (inv_2d cgs A M N (Z.to_nat steps)
                 (map (mask_row mask n) (seq 0 n))) 1 (Z.to_nat (steps - 1)))
    with (s := mk_loop2 (flat_map (mask_row mask n) (seq 0 n))
                 (set_nth 0 (map (mask_row mask n) (seq 0 n))
                    (repeat (repeat (repeat 0 n) n) (Z.to_nat steps))) 0)
    as [s' Hs'].
  - intros j s Hj Hinv.
    eapply body_2d_ok; [lia | exact Hcgs | | exact Hinv | lia].
    unfold M, banded; cbn [dia_shape]. unfold n. nia.
  - intros j s s' Hj Hinv Hb. eapply body_2d_inv; [lia | exact Hinv | exact Hb].
  - unfold inv_2d; cbn [frames values solves2].
    rewrite set_nth_length, repeat_length.
    split; [reflexivity|]. split; [reflexivity|]. split; [lia|].
    split; [apply initial_values_length|].
    rewrite nth_set_nth by (rewrite repeat_length; lia). cbn [Nat.eqb].
    split; [unfold n; rewrite initial_frame; reflexivity|].
    split; [reflexivity | intros; lia].
  - rewrite Hs'. cbn [bind]. eauto.
Qed.

End Run2D.


(** ** Rows of a tridiagonal product *)

Lemma tridiagonal_row (n : nat) (d c : Q) (i : nat) (x : nat -> Q) :
  (i < n)%nat ->
  sumn n (fun j => tridiagonal d c i j * x j) ==
  d * x i + (if (1 <=? i)%nat then c * x (i - 1)%nat else 0)
          + (if (i + 1 <? n)%nat then c * x (i + 1)%nat else 0).
Proof.
  intros Hi.
  rewrite (sumn_ext n _ (fun j =>
     (if (j =? i)%nat then d * x j else 0) +
     ((if (j =? i - 1)%nat then (if (1 <=? i)%nat then c * x j else 0) else 0) +
      (if (j =? i + 1)%nat then c * x j else 0)))).
  - rewrite !sumn_plus, !sumn_delta.
    destruct (Nat.ltb_spec i n); [|lia].
    destruct (Nat.ltb_spec (i - 1) n); [|lia].
    destruct (Nat.leb_spec 1 i); destruct (Nat.ltb_spec (i + 1) n); ring.
  - intros j Hj. unfold tridiagonal, dist.
    destruct (Nat.eqb_spec j i); destruct (Nat.eqb_spec j (i - 1));
      destruct (Nat.eqb_spec j (i + 1)); destruct (Nat.leb_spec 1 i);
      repeat match goal with
             | |- context [Z.eqb ?a ?b] => destruct (Z.eqb_spec a b); try lia
             end; ring.
Qed.

Lemma B1_row (n : Z) (u : vec) (i : nat) :
  (i < Z.to_nat n)%nat ->
  row_dot (banded n B1_bands) u i ==
  (if (1 <=? i)%nat then nth (i - 1) u 0 else 0) +
  (if (i + 1 <? Z.to_nat n)%nat then nth (i + 1) u 0 else 0).
Proof.
  intros Hi.
  rewrite row_dot_entries by exact Hi. cbn [banded dia_shape].
  rewrite (sumn_ext _ _ (fun j => tridiagonal 0 1 i j * nth j u 0)).
  - rewrite tridiagonal_row by exact Hi.
    destruct (1 <=? i)%nat; destruct (i + 1 <? Z.to_nat n)%nat; ring.
  - intros j Hj. rewrite entry_B1 by assumption. reflexivity.
Qed.

Lemma A1_row (n : Z) (x : nat -> Q) (i : nat) :
  (i < Z.to_nat n)%nat ->
  sumn (Z.to_nat n) (fun j => entry (banded n A1_bands) i j * x j) ==
  4 * x i - (if (1 <=? i)%nat then x (i - 1)%nat else 0)
          - (if (i + 1 <? Z.to_nat n)%nat then x (i + 1)%nat else 0).
Proof.
  intros Hi.
  rewrite (sumn_ext _ _ (fun j => tridiagonal 4 (-1) i j * x j)).
  - rewrite tridiagonal_row by exact Hi.
    destruct (1 <=? i)%nat; destruct (i + 1 <? Z.to_nat n)%nat; ring.
  - intros j Hj. rewrite entry_A1 by assumption. reflexivity.
Qed.

Lemma nth_rhs_closed (B : dia_matrix) (l r : Q) (u : vec) (i : nat) :
  length u = dia_shape B -> (2 <= length u)%nat -> (i < length u)%nat ->
  nth i (rhs_closed B l r u) 0 =
  if (i =? length u - 1)%nat then 2 * r + nth (length u - 2) u 0
  else if (i =? 0)%nat then 2 * l + nth 1 u 0
  else row_dot B u i.
Proof.
  intros Hlen H2 Hi. unfold rhs_closed.
  rewrite nth_set_nth by (rewrite set_nth_length, length_map, length_seq; lia).
  destruct (i =? length u - 1)%nat; [reflexivity|].
  rewrite nth_set_nth by (rewrite length_map, length_seq; lia).
  destruct (i =? 0)%nat; [reflexivity|].
  apply nth_map_seq. lia.
Qed.

(** ** Initial configuration *)

Lemma slice_bound_le (len : nat) (i : Z) : (slice_bound len i <= len)%nat.
Proof.
  unfold slice_bound. destruct (Z.ltb_spec i 0); lia.
Qed.

Lemma py_slice_fill_length (v : vec) (a b : Z) (c : Q) :
  length (py_slice_fill v a b c) = length v.
Proof.
  unfold py_slice_fill.
  pose proof (slice_bound_le (length v) a).
  pose proof (slice_bound_le (length v) b).
  rewrite !length_app, length_firstn, repeat_length, length_skipn. lia.
Qed.

Lemma initial_config_ok (N : Z) (l r : Q) :
  (2 <= N)%Z ->
  exists arr, initial_config N l r = Ok arr /\ length arr = Z.to_nat N /\
              nth 0 arr 0 = l /\ nth (Z.to_nat N - 1) arr 0 = r.
Proof.
  intros HN. unfold initial_config, np_zeros.
  destruct (Z.ltb_spec N 0); [lia|]. cbn [bind].
  set (arr := py_slice_fill (repeat 0 (Z.to_nat N)) (4 * N / 10) (6 * N / 10) 100).
  assert (Hlen : length arr = Z.to_nat N).
  { unfold arr. rewrite py_slice_fill_length, repeat_length. reflexivity. }
  rewrite py_set_nonneg by lia. cbn [bind].
  rewrite py_set_neg by (rewrite set_nth_length; lia).
  rewrite set_nth_length, Hlen. change (Z.to_nat 0) with 0%nat.
  replace (Z.to_nat (-1 + Z.of_nat (Z.to_nat N))) with (Z.to_nat N - 1)%nat by lia.
  eexists. split; [reflexivity|].
  split; [rewrite !set_nth_length; exact Hlen|].
  rewrite !nth_set_nth by (rewrite ?set_nth_length; lia).
  destruct (Nat.eqb_spec 0 (Z.to_nat N - 1)); [lia|].
  split; [reflexivity | rewrite Nat.eqb_refl; reflexivity].
Qed.

(** Every frame of a completed 2D run is an [N x N] grid. *)
Lemma run_2d_frames (cgs : dia_matrix -> vec -> vec * Z) (r : Q) (N : Z)
    (mask : nat -> nat -> bool) (steps : Z) (traj : list (list vec)) (k : nat) :
  run_2d cgs r N mask steps = Ok (traj, k) ->
  forall i, (i < length traj)%nat ->
    exists v, nth i traj [] = chunks (Z.to_nat N) (Z.to_nat N) v /\
              length v = (Z.to_nat N * Z.to_nat N)%nat.
Proof.
  intros Hrun i Hi.
  apply run_2d_completed in Hrun.
  destruct Hrun as [HN [Hs [Hk [Hlen [H0 Hstep]]]]].
  destruct i as [|i].
  - exists (flat_map (mask_row mask (Z.to_nat N)) (seq 0 (Z.to_nat N))).
    rewrite H0, initial_frame. split; [reflexivity | apply initial_values_length].
  - destruct (Hstep i) as [b [_ [Hnext Hl]]]; [lia|].
    exists (fst (cgs (banded (N * N) (A2_bands r N)) b)). auto.
Qed.

(** ** Completed runs, in terms of the assembled matrices *)

Lemma run_1d_spec (N : Z) (l r : Q) (T : Z) (arr : vec)
    (traj : list vec) (k : nat) :
  length arr = Z.to_nat N ->
  run_1d N l r T arr = Ok (traj, k) ->
  Z.of_nat k = (T - 1)%Z /\ Z.of_nat (length traj) = T /\
  nth 0 traj [] = py_slice arr 1 (-1) /\
  (forall i, (i < length traj)%nat -> length (nth i traj []) = Z.to_nat (N - 2)) /\
  exists A B,
    assemble_A1 N = Ok A /\ assemble_B1 N = Ok B /\
    forall i, (i < k)%nat ->
      step_1d A B l r (nth i traj []) = Ok (nth (S i) traj []).
Proof.
  intros Harr Hrun.
  apply run_1d_completed in Hrun; [|exact Harr].
  destruct Hrun as [HN [HT [Hk [Hlen [H0 [Hrows Hstep]]]]]].
  split; [lia|]. split; [lia|]. split; [exact H0|].
  split; [intros i Hi; apply Hrows; lia|].
  exists (banded (N - 2) A1_bands), (banded (N - 2) B1_bands).
  split; [apply assemble_A1_closed; exact HN|].
  split; [apply assemble_B1_closed; exact HN | exact Hstep].
Qed.

Lemma run_2d_spec (cgs : dia_matrix -> vec -> vec * Z) (r : Q) (N : Z)
    (mask : nat -> nat -> bool) (steps : Z)
    (traj : list (list vec)) (k : nat) :
  run_2d cgs r N mask steps = Ok (traj, k) ->
  (0 <= N)%Z /\
  Z.of_nat k = (steps - 1)%Z /\ Z.of_nat (length traj) = steps /\
  nth 0 traj [] = map (mask_row mask (Z.to_nat N)) (seq 0 (Z.to_nat N)) /\
  exists A M,
    assemble_A2 r N = Ok A /\ assemble_M2 r N = Ok M /\
    forall i, (i < k)%nat ->
      solve_step cgs A M N (nth i traj []) (nth (S i) traj []).
Proof.
  intros Hrun.
  apply run_2d_completed in Hrun.
  destruct Hrun as [HN [HT [Hk [Hlen [H0 Hstep]]]]].
  split; [lia|]. split; [lia|]. split; [lia|]. split; [exact H0|].
  exists (banded (N * N) (A2_bands r N)), (banded (N * N) (M2_bands r N)).
  split; [apply assemble_A2_closed; lia|].
  split; [apply assemble_M2_closed; lia|].
  intros i Hi. destruct (Hstep i Hi) as [b [Hb [Hnext Hl]]].
  exists b. split; [exact Hb|].
  rewrite Hnext. apply reshape_ok; [lia | exact Hl].
Qed.

(** ** The iterate of [cgs] keeps the length of the right-hand side *)








(** ** A property that every solve keeps is kept by the run *)

(** A property of the flat field that holds initially and that every
    solve the loop makes preserves, together with the length, holds for
    every snapshot of a run, and the run completes. *)
Lemma run_2d_preserves (cgs : dia_matrix -> vec -> vec * Z) (r : Q) (N : Z)
    (mask : nat -> nat -> bool) (steps : Z) (P : vec -> Prop) :
  (2 <= N)%Z -> (1 <= steps)%Z ->
  P (flat_map (mask_row mask (Z.to_nat N)) (seq 0 (Z.to_nat N))) ->
  (forall v b, P v -> length v = (Z.to_nat N * Z.to_nat N)%nat ->
     mat_vec (banded (N * N) (M2_bands r N)) v = Ok b ->
     length (fst (cgs (banded (N * N) (A2_bands r N)) b)) =
       (Z.to_nat N * Z.to_nat N)%nat /\
     P (fst (cgs (banded (N * N) (A2_bands r N)) b))) ->
  exists traj k,
    run_2d cgs r N mask steps = Ok (traj, k) /\
    forall t, (t < length traj)%nat -> P (concat (nth t traj [])).
Proof.
  intros HN Hs HP0 Hstep.
  set (n := Z.to_nat N) in *.
  set (A := banded (N * N) (A2_bands r N)) in *.
  set (M := banded (N * N) (M2_bands r N)) in *.
  assert (HM : dia_shape M = (n * n)%nat).
  { unfold M, banded; cbn [dia_shape]. unfold n. nia. }
  assert (Hrun : exists traj k, run_2d cgs r N mask steps = Ok (traj, k)).
  { unfold run_2d.
    rewrite assemble_A2_closed by lia. cbn [bind].
    rewrite initial_values_ok by lia. cbn [bind].
    rewrite assemble_M2_closed by lia. cbn [bind].
    fold A M n.
    unfold np_zeros3.
    destruct (Z.ltb_spec steps 0); [lia|]. destruct (Z.ltb_spec N 0); [lia|].
    cbn [orb bind].
    rewrite reshape_ok by (try lia; apply initial_values_length). cbn [bind].
    rewrite set_frame_ok by (rewrite repeat_length; lia). cbn [bind].
    change (Z.to_nat 0) with 0%nat. rewrite py_range_from.
    unfold n. rewrite initial_frame. fold n.
    destruct (for_each_completes (body_2d cgs A M N)
                (fun k s => inv_2d cgs A M N (Z.to_nat steps)
                              (map (mask_row mask n) (seq 0 n)) k s /\
                            P (values s))
                1 (Z.to_nat (steps - 1)))
      with (s := mk_loop2 (flat_map (mask_row mask n) (seq 0 n))
                   (set_nth 0 (map (mask_row mask n) (seq 0 n))
                      (repeat (repeat (repeat 0 n) n) (Z.to_nat steps))) 0)
      as [s' Hs'].
    - intros j s Hj [Hinv HP].
      destruct Hinv as [HT [Hk [HkT [Hv [Hcur [Hf0 Hsteps]]]]]].
      assert (HvM : length (values s) = dia_shape M) by (rewrite HM; exact Hv).
      unfold body_2d. rewrite mat_vec_ok by exact HvM. cbn [bind].
      destruct (Hstep (values s) (map (row_dot M (values s)) (seq 0 (dia_shape M))))
        as [Hl _]; [exact HP | exact Hv | apply mat_vec_ok; exact HvM |].
      rewrite reshape_ok by (try lia; exact Hl). cbn [bind].
      rewrite set_frame_ok by lia. cbn [bind]. eauto.
    - intros j s s' Hj [Hinv HP] Hb. split.
      + eapply body_2d_inv; [lia | exact Hinv | exact Hb].
      + destruct Hinv as [HT [Hk [HkT [Hv [Hcur [Hf0 Hsteps]]]]]].
        unfold body_2d in Hb. bind_inv Hb. bind_inv Hb. bind_inv Hb.
        assert (Es : values s' = fst (cgs A a)).
        { assert (E' : s' = mk_loop2 (fst (cgs A a)) a1 (S (solves2 s)))
            by congruence.
          rewrite E'. reflexivity. }
        rewrite Es. apply (Hstep (values s) a HP Hv Ha).
    - split.
      + unfold inv_2d; cbn [frames values solves2].
        rewrite set_nth_length, repeat_length.
        split; [reflexivity|]. split; [reflexivity|]. split; [lia|].
        split; [apply initial_values_length|].
        rewrite nth_set_nth by (rewrite repeat_length; lia). cbn [Nat.eqb].
        split; [unfold n; rewrite initial_frame; reflexivity|].
        split; [reflexivity | intros; lia].
      + cbn [values]. exact HP0.
    - rewrite Hs'. cbn [bind]. eauto. }
  destruct Hrun as [traj [k Hrun]]. exists traj, k. split; [exact Hrun|].
  apply run_2d_completed in Hrun.
  destruct Hrun as [_ [_ [Hk [Hlen [Hf0 Hchain]]]]].
  fold n A M in Hf0, Hchain.
  assert (G : forall t, (t <= k)%nat ->
            P (concat (nth t traj [])) /\
            length (concat (nth t traj [])) = (n * n)%nat).
  { induction t as [|t IH]; intros Ht.
    - rewrite Hf0. unfold n. rewrite <- initial_frame.
      rewrite concat_chunks by apply initial_values_length.
      split; [exact HP0 | apply initial_values_length].
    - destruct IH as [HPt Hlt]; [lia|].
      destruct (Hchain t) as [b [Hb [Hnext Hl]]]; [lia|].
      rewrite Hnext, concat_chunks by exact Hl.
      split; [|exact Hl]. apply (Hstep _ b HPt Hlt Hb). }
  intros t Ht. apply G. lia.
Qed.

(** A 2D run completes whenever the solver returns, on the square
    systems it is given, vectors of the length of the right-hand side. *)
Lemma run_2d_completes_square (cgs : dia_matrix -> vec -> vec * Z) (r : Q) (N : Z)
    (mask : nat -> nat -> bool) (steps : Z) :
  (forall A b, length b = dia_shape A -> length (fst (cgs A b)) = length b) ->
  (2 <= N)%Z -> (1 <= steps)%Z ->
  exists traj k, run_2d cgs r N mask steps = Ok (traj, k).
Proof.
  intros Hcgs HN Hs.
  destruct (run_2d_preserves cgs r N mask steps (fun _ => True) HN Hs Logic.I)
    as [traj [k [Hrun _]]]; [|eauto].
  intros v b _ Hv Hb. split; [|exact Logic.I].
  apply mat_vec_length in Hb. destruct Hb as [_ Hb].
  rewrite Hcgs by (rewrite Hb; reflexivity).
  rewrite Hb. unfold banded; cbn [dia_shape]. nia.
Qed.

(** ** The loops with the calls on record *)

Lemma py_set_length (v v' : vec) (i : Z) (x : Q) :
  py_set v i x = Ok v' -> length v' = length v.
Proof.
  unfold py_set. intros H. bind_inv H. injection H as <-. apply set_nth_length.
Qed.

Lemma rhs_1d_length (B : dia_matrix) (l r : Q) (u rhs : vec) :
  rhs_1d B l r u = Ok rhs -> length u = dia_shape B /\ length rhs = dia_shape B.
Proof.
  unfold rhs_1d. intros H. bind_inv H. bind_inv H. bind_inv H. bind_inv H.
  apply py_set_length in H. apply py_set_length in Ha2.
  apply mat_vec_length in Ha1. destruct Ha1 as [H1 H2]. split; [exact H1 | congruence].
Qed.

Lemma spsolve_same_length (A : dia_matrix) (b x : vec) :
  spsolve A b = Ok x -> length x = length b.
Proof.
  intros H. pose proof (spsolve_length _ _ _ H) as Hx. unfold spsolve in H.
  destruct (Nat.eqb_spec (length b) (dia_shape A)); [congruence | discriminate].
Qed.

Lemma spsolve_total (A : dia_matrix) (b : vec) :
  length b = dia_shape A -> exists x, spsolve A b = Ok x.
Proof.
  intros H. unfold spsolve. rewrite H, Nat.eqb_refl. simpl. eauto.
Qed.

Section Calls1D.

Variable solver : dia_matrix -> vec -> result vec.
Hypothesis solver_length : forall A b x, solver A b = Ok x -> length x = length b.

Lemma body_1d_calls_inv (A B : dia_matrix) (l r : Q) (T : nat) (u0 : vec)
    (k : nat) (s s' : calls1) :
  inv_1d_calls solver A B l r T u0 k s ->
  body_1d_calls solver A B l r (dia_shape B) (1 + Z.of_nat k) s = Ok s' ->
  inv_1d_calls solver A B l r T u0 (S k) s'.
Proof.
  intros [HT [Hk [HkT [Hu [H0 [Hlen Hsteps]]]]]] Hb.
  unfold body_1d_calls in Hb. bind_inv Hb. bind_inv Hb. bind_inv Hb.
  rename a into rhs, a0 into u, a1 into st. rename Ha into Hrhs, Ha0 into Hsol, Ha1 into Hset.
  pose proof (rhs_1d_length _ _ _ _ _ Hrhs) as [_ Hlr].
  pose proof (solver_length _ _ _ Hsol) as Hlu. rewrite Hlr in Hlu.
  assert (Hidx : (1 + Z.of_nat k < Z.of_nat (length (c_storage s)))%Z).
  { eapply set_row_ok_index; [|exact Hset]. lia. }
  rewrite set_row_exact in Hset by (try assumption; lia).
  replace (Z.to_nat (1 + Z.of_nat k)) with (S k) in Hset by lia.
  assert (Es : s' = mk_calls1 u (set_nth (S k) u (c_storage s))
                      (c_log1 s ++ [mk_call A rhs u])) by congruence.
  subst s'. clear Hb Hset.
  unfold inv_1d_calls; cbn [c_storage c_points c_log1].
  rewrite set_nth_length, length_app. cbn [length].
  split; [exact HT|]. split; [lia|]. split; [lia|].
  split; [rewrite nth_set_nth, Nat.eqb_refl by lia; reflexivity|].
  split; [rewrite nth_set_nth by lia; exact H0|].
  split.
  - intros i Hi. rewrite nth_set_nth by lia.
    destruct (Nat.eqb_spec i (S k)); [exact Hlu | apply Hlen; lia].
  - intros i Hi. rewrite !nth_set_nth by lia.
    destruct (Nat.eqb_spec i (S k)); [lia|].
    destruct (Nat.eqb_spec (S i) (S k)) as [E|E].
    + injection E as ->. rewrite app_nth2 by lia.
      rewrite Hk, Nat.sub_diag. cbn [nth].
      exists rhs. rewrite <- Hu. auto.
    + rewrite app_nth1 by lia. apply Hsteps. lia.
Qed.

(** What a completed 1D run recorded, snapshots and calls. *)
Lemma run_1d_calls_completed (N : Z) (l r : Q) (T : Z) (arr : vec)
    (traj : list vec) (log : list solver_call) :
  length arr = Z.to_nat N ->
  run_1d_calls solver N l r T arr = Ok (traj, log) ->
  (3 <= N)%Z /\ (1 <= T)%Z /\
  length log = Z.to_nat (T - 1) /\ length traj = Z.to_nat T /\
  nth 0 traj [] = py_slice arr 1 (-1) /\
  (forall i, (i < Z.to_nat T)%nat -> length (nth i traj []) = Z.to_nat (N - 2)) /\
  (forall i, (i < length log)%nat ->
     call_1d solver (banded (N - 2) A1_bands) (banded (N - 2) B1_bands) l r
             (nth i traj []) (nth (S i) traj []) (nth i log no_call)).
Proof.
  intros Harr Hrun.
  assert (HN : (3 <= N)%Z).
  { destruct (Z.le_gt_cases 3 N) as [|Hlt]; [assumption|].
    unfold run_1d_calls in Hrun. rewrite assemble_A1_small in Hrun by lia.
    discriminate. }
  unfold run_1d_calls in Hrun.
  rewrite assemble_A1_closed, assemble_B1_closed in Hrun by exact HN.
  cbn [bind] in Hrun.
  set (A := banded (N - 2) A1_bands) in *.
  set (B := banded (N - 2) B1_bands) in *.
  set (u0 := py_slice arr 1 (-1)) in *.
  bind_inv Hrun. apply np_zeros2_ok in Ha. destruct Ha as [HT0 [_ ->]].
  bind_inv Hrun. bind_inv Hrun. injection Hrun as <- <-.
  assert (Hu0 : length u0 = Z.to_nat (N - 2)).
  { unfold u0. rewrite py_slice_interior_length. lia. }
  pose proof (set_row_ok_index _ _ _ _ _ (Z.le_refl 0) Ha) as HT.
  rewrite repeat_length in HT.
  rewrite set_row_exact in Ha by (try assumption; rewrite repeat_length; lia).
  change (Z.to_nat 0) with 0%nat in Ha.
  assert (Ea : a = set_nth 0 u0 (repeat (repeat 0 (Z.to_nat (N - 2))) (Z.to_nat T)))
    by congruence.
  clear Ha. subst a.
  rewrite py_range_from in Ha0.
  assert (HB : dia_shape B = Z.to_nat (N - 2)) by reflexivity.
  assert (Hinv : inv_1d_calls solver A B l r (Z.to_nat T) u0 (Z.to_nat (T - 1)) a0).
  { apply (for_each_completed
             (body_1d_calls solver A B l r (Z.to_nat (N - 2)))
             (inv_1d_calls solver A B l r (Z.to_nat T) u0) 1 (Z.to_nat (T - 1))) in Ha0.
    - exact Ha0.
    - intros j s s' Hj Hs Hb. eapply body_1d_calls_inv; [exact Hs | exact Hb].
    - unfold inv_1d_calls; cbn [c_storage c_points c_log1].
      rewrite set_nth_length, repeat_length.
      split; [reflexivity|]. split; [reflexivity|]. split; [lia|].
      rewrite nth_set_nth by (rewrite repeat_length; lia).
      split; [reflexivity|]. split; [reflexivity|].
      split; [|intros; lia].
      intros i Hi. replace i with 0%nat by lia.
      rewrite nth_set_nth by (rewrite repeat_length; lia). exact Hu0. }
  destruct Hinv as [H1 [H2 [H3 [H4 [H5 [H6 H7]]]]]].
  split; [exact HN|]. split; [lia|]. split; [exact H2|]. split; [exact H1|].
  split; [exact H5|]. split.
  - intros i Hi. rewrite <- HB. apply H6. lia.
  - intros i Hi. apply H7. lia.
Qed.

(** A 1D run completes when the solver answers every system of the
    assembled size. *)
Lemma run_1d_calls_completes (N : Z) (l r : Q) (T : Z) (arr : vec) :
  (forall b, length b = Z.to_nat (N - 2) ->
     exists x, solver (banded (N - 2) A1_bands) b = Ok x) ->
  (4 <= N)%Z -> (1 <= T)%Z -> length arr = Z.to_nat N ->
  exists traj log, run_1d_calls solver N l r T arr = Ok (traj, log).
Proof.
  intros Htot HN HT Harr. unfold run_1d_calls.
  rewrite assemble_A1_closed, assemble_B1_closed by lia. cbn [bind].
  set (A := banded (N - 2) A1_bands).
  set (B := banded (N - 2) B1_bands).
  set (u0 := py_slice arr 1 (-1)).
  assert (Hu0 : length u0 = Z.to_nat (N - 2)).
  { unfold u0. rewrite py_slice_interior_length. lia. }
  assert (HB : dia_shape B = Z.to_nat (N - 2)) by reflexivity.
  unfold np_zeros2.
  destruct (Z.ltb_spec T 0); [lia|]. destruct (Z.ltb_spec (N - 2) 0); [lia|].
  cbn [orb bind].
  rewrite set_row_exact by (try assumption; rewrite repeat_length; lia).
  cbn [bind]. change (Z.to_nat 0) with 0%nat.
  rewrite py_range_from.
  destruct (for_each_completes
              (body_1d_calls solver A B l r (Z.to_nat (N - 2)))
              (inv_1d_calls solver A B l r (Z.to_nat T) u0) 1 (Z.to_nat (T - 1)))
    with (s := mk_calls1 u0
                 (set_nth 0 u0 (repeat (repeat 0 (Z.to_nat (N - 2))) (Z.to_nat T))) [])
    as [s' Hs'].
  - intros k s Hk [H1 [H2 [H3 [H4 [H5 [H6 H7]]]]]].
    unfold body_1d_calls.
    assert (Hlp : length (c_points s) = dia_shape B) by (rewrite H4; apply H6; lia).
    rewrite rhs_1d_ok by (try exact Hlp; rewrite Hlp, HB; lia). cbn [bind].
    destruct (Htot (rhs_closed B l r (c_points s))) as [x Hx];
      [rewrite rhs_closed_length; exact HB|].
    fold A in Hx. rewrite Hx. cbn [bind].
    rewrite set_row_exact.
    + cbn [bind]. eauto.
    + apply solver_length in Hx. rewrite Hx, rhs_closed_length. exact HB.
    + lia.
  - intros k s s' Hk Hs Hb. eapply body_1d_calls_inv; [exact Hs | exact Hb].
  - unfold inv_1d_calls; cbn [c_storage c_points c_log1].
    rewrite set_nth_length, repeat_length.
    split; [reflexivity|]. split; [reflexivity|]. split; [lia|].
    rewrite nth_set_nth by (rewrite repeat_length; lia).
    split; [reflexivity|]. split; [reflexivity|].
    split; [|intros; lia].
    intros i Hi. replace i with 0%nat by lia.
    rewrite nth_set_nth by (rewrite repeat_length; lia). exact Hu0.
  - rewrite Hs'. cbn [bind]. eauto.
Qed.

End Calls1D.

(** Forgetting the record of calls but their number gives back the loops
    above. *)
Lemma for_each_forget {S S' : Type} (f : S' -> S)
    (body : Z -> S -> result S) (body' : Z -> S' -> result S') (idx : list Z) :
  (forall i s, body i (f s) = (s' <- body' i s ;; Ok (f s'))) ->
  forall s, for_each body idx (f s) = (s' <- for_each body' idx s ;; Ok (f s')).
Proof.
  intros E. induction idx as [|i t IH]; intros s; simpl; [reflexivity|].
  rewrite E. destruct (body' i s) as [s1|e]; simpl; [apply IH | reflexivity].
Qed.

Lemma body_1d_forget (A B : dia_matrix) (l r : Q) (cols : nat) (i : Z) (s : calls1) :
  body_1d A B l r cols i (forget1 s) =
  (s' <- body_1d_calls spsolve A B l r cols i s ;; Ok (forget1 s')).
Proof.
  unfold body_1d, body_1d_calls, step_1d, forget1; cbn [interior_points storage solves1].
  destruct (rhs_1d B l r (c_points s)) as [rhs|]; [|reflexivity]. cbn [bind].
  destruct (spsolve A rhs) as [u|]; [|reflexivity]. cbn [bind].
  destruct (set_row cols (c_storage s) i u) as [st|]; [|reflexivity]. cbn [bind].
  cbn [c_points c_storage c_log1]. rewrite length_app. cbn [length].
  rewrite Nat.add_1_r. reflexivity.
Qed.

Lemma run_1d_forget (N : Z) (l r : Q) (T : Z) (arr : vec) :
  run_1d N l r T arr =
  (p <- run_1d_calls spsolve N l r T arr ;; Ok (fst p, length (snd p))).
Proof.
  unfold run_1d, run_1d_calls.
  destruct (assemble_A1 N) as [A|]; [|reflexivity]. cbn [bind].
  destruct (assemble_B1 N) as [B|]; [|reflexivity]. cbn [bind].
  destruct (np_zeros2 T (N - 2)) as [st|]; [|reflexivity]. cbn [bind].
  destruct (set_row (Z.to_nat (N - 2)) st 0 (py_slice arr 1 (-1))) as [st'|];
    [|reflexivity]. cbn [bind].
  change (mk_loop1 (py_slice arr 1 (-1)) st' 0)
    with (forget1 (mk_calls1 (py_slice arr 1 (-1)) st' [])).
  rewrite (for_each_forget forget1 _
             (body_1d_calls spsolve A B l r (Z.to_nat (N - 2))))
    by (intros; apply body_1d_forget).
  destruct (for_each _ _ _) as [s|]; reflexivity.
Qed.

Lemma body_2d_forget (cgs : dia_matrix -> vec -> vec * Z) (A M : dia_matrix)
    (N : Z) (i : Z) (s : calls2) :
  body_2d cgs A M N i (forget2 s) =
  (s' <- body_2d_calls cgs A M N i s ;; Ok (forget2 s')).
Proof.
  unfold body_2d, body_2d_calls, forget2; cbn [values frames solves2].
  destruct (mat_vec M (c_values s)) as [b|]; [|reflexivity]. cbn [bind].
  destruct (reshape N (fst (cgs A b))) as [f|]; [|reflexivity]. cbn [bind].
  destruct (set_frame (c_frames s) i f) as [arr|]; [|reflexivity]. cbn [bind].
  cbn [c_values c_frames c_log2]. rewrite length_app. cbn [length].
  rewrite Nat.add_1_r. reflexivity.
Qed.

Lemma run_2d_forget (cgs : dia_matrix -> vec -> vec * Z) (r : Q) (N : Z)
    (mask : nat -> nat -> bool) (steps : Z) :
  run_2d cgs r N mask steps =
  (p <- run_2d_calls cgs r N mask steps ;; Ok (fst p, length (snd p))).
Proof.
  unfold run_2d, run_2d_calls.
  destruct (assemble_A2 r N) as [A|]; [|reflexivity]. cbn [bind].
  destruct (initial_values N mask) as [v0|]; [|reflexivity]. cbn [bind].
  destruct (assemble_M2 r N) as [M|]; [|reflexivity]. cbn [bind].
  destruct (np_zeros3 steps N) as [arr|]; [|reflexivity]. cbn [bind].
  destruct (reshape N v0) as [f0|]; [|reflexivity]. cbn [bind].
  destruct (set_frame arr 0 f0) as [arr'|]; [|reflexivity]. cbn [bind].
  change (mk_loop2 v0 arr' 0) with (forget2 (mk_calls2 v0 arr' [])).
  rewrite (for_each_forget forget2 _ (body_2d_calls cgs A M N))
    by (intros; apply body_2d_forget).
  destruct (for_each _ _ _) as [s|]; reflexivity.
Qed.

Lemma body_2d_calls_inv (cgs : dia_matrix -> vec -> vec * Z) (A M : dia_matrix)
    (N : Z) (T : nat) (frame0 : list vec) (k : nat) (s s' : calls2) :
  (0 <= N)%Z ->
  inv_2d_calls cgs A M N T frame0 k s ->
  body_2d_calls cgs A M N (1 + Z.of_nat k) s = Ok s' ->
  inv_2d_calls cgs A M N T frame0 (S k) s'.
Proof.
  intros HN [Hinv Hcalls] Hb. split.
  - eapply body_2d_inv; [exact HN | exact Hinv |].
    rewrite body_2d_forget, Hb. reflexivity.
  - destruct Hinv as [HT [Hk [HkT [Hv [Hcur [H0 _]]]]]].
    cbn [forget2 frames values solves2] in HT, Hk, Hv, Hcur.
    unfold body_2d_calls in Hb. bind_inv Hb. bind_inv Hb. bind_inv Hb.
    rename a into b, a0 into frame. rename Ha into Hmv, Ha0 into Hre.
    apply set_frame_inv in Ha1; [|lia]. destruct Ha1 as [Hidx ->].
    replace (Z.to_nat (1 + Z.of_nat k)) with (S k) in Hb by lia.
    assert (Es : s' = mk_calls2 (fst (cgs A b)) (set_nth (S k) frame (c_frames s))
                        (c_log2 s ++ [mk_call A b (fst (cgs A b))])) by congruence.
    subst s'. clear Hb. cbn [c_frames c_log2].
    intros i Hi. rewrite !nth_set_nth by lia.
    destruct (Nat.eqb_spec i (S k)); [lia|].
    destruct (Nat.eqb_spec (S i) (S k)) as [E|E].
    + injection E as ->. rewrite app_nth2 by lia.
      rewrite Hk, Nat.sub_diag. cbn [nth].
      exists b. rewrite Hcur, concat_chunks by exact Hv. auto.
    + rewrite app_nth1 by lia. apply Hcalls. lia.
Qed.

(** What a completed 2D run recorded, snapshots and calls. *)
Lemma run_2d_calls_completed (cgs : dia_matrix -> vec -> vec * Z) (r : Q) (N : Z)
    (mask : nat -> nat -> bool) (steps : Z)
    (traj : list (list vec)) (log : list solver_call) :
  run_2d_calls cgs r N mask steps = Ok (traj, log) ->
  (2 <= N)%Z /\ (1 <= steps)%Z /\
  length log = Z.to_nat (steps - 1) /\ length traj = Z.to_nat steps /\
  nth 0 traj [] = map (mask_row mask (Z.to_nat N)) (seq 0 (Z.to_nat N)) /\
  (forall i, (i < length log)%nat ->
     call_2d cgs (banded (N * N) (A2_bands r N)) (banded (N * N) (M2_bands r N)) N
             (nth i traj []) (nth (S i) traj []) (nth i log no_call)).
Proof.
  intros Hrun.
  assert (Hrun' : run_2d cgs r N mask steps = Ok (traj, length log)).
  { rewrite run_2d_forget, Hrun. reflexivity. }
  apply run_2d_completed in Hrun'.
  destruct Hrun' as [HN [HT [Hk [Hlen [Hf0 _]]]]].
  split; [exact HN|]. split; [exact HT|]. split; [exact Hk|].
  split; [exact Hlen|]. split; [exact Hf0|].
  set (n := Z.to_nat N) in *.
  set (A := banded (N * N) (A2_bands r N)).
  set (M := banded (N * N) (M2_bands r N)).
  unfold run_2d_calls in Hrun.
  rewrite assemble_A2_closed in Hrun by lia. cbn [bind] in Hrun.
  rewrite initial_values_ok in Hrun by lia. cbn [bind] in Hrun.
  rewrite assemble_M2_closed in Hrun by lia. cbn [bind] in Hrun.
  fold A M n in Hrun.
  bind_inv Hrun. apply np_zeros3_ok in Ha. destruct Ha as [Hs0 Hla].
  rewrite reshape_ok in Hrun by (try lia; apply initial_values_length).
  cbn [bind] in Hrun. fold n in Hrun.
  unfold n in Hrun at 1 2. rewrite initial_frame in Hrun. fold n in Hrun.
  bind_inv Hrun.
  apply set_frame_inv in Ha; [|lia]. destruct Ha as [Hidx ->].
  change (Z.to_nat 0) with 0%nat in Hrun.
  bind_inv Hrun. rename a0 into s1.
  assert (Et : (traj, log) = (c_frames s1, c_log2 s1)) by congruence.
  injection Et as -> ->. clear Hrun.
  rewrite py_range_from in Ha.
  assert (Hinv : inv_2d_calls cgs A M N (Z.to_nat steps)
                   (map (mask_row mask n) (seq 0 n)) (Z.to_nat (steps - 1)) s1).
  { apply (for_each_completed (body_2d_calls cgs A M N)
             (inv_2d_calls cgs A M N (Z.to_nat steps)
                (map (mask_row mask n) (seq 0 n))) 1 (Z.to_nat (steps - 1)))
      in Ha.
    - exact Ha.
    - intros j s s' Hj Hs Hb.
      eapply body_2d_calls_inv; [lia | exact Hs | exact Hb].
    - split; [|intros; lia].
      unfold inv_2d; cbn [forget2 frames values solves2 c_values c_frames c_log2 length].
      rewrite set_nth_length.
      split; [exact Hla|]. split; [reflexivity|]. split; [lia|].
      split; [apply initial_values_length|].
      rewrite nth_set_nth by lia. cbn [Nat.eqb].
      split; [unfold n; rewrite initial_frame; reflexivity|].
      split; [reflexivity | intros; lia]. }
  destruct Hinv as [_ Hcalls]. intros i Hi. apply Hcalls. lia.
Qed.

Lemma run_2d_calls_completes (cgs : dia_matrix -> vec -> vec * Z) (r : Q) (N : Z)
    (mask : nat -> nat -> bool) (steps : Z) :
  (forall A b, length b = dia_shape A -> length (fst (cgs A b)) = length b) ->
  (2 <= N)%Z -> (1 <= steps)%Z ->
  exists traj log, run_2d_calls cgs r N mask steps = Ok (traj, log).
Proof.
  intros Hcgs HN Hs.
  destruct (run_2d_completes_square cgs r N mask steps Hcgs HN Hs) as [traj [k Hrun]].
  rewrite run_2d_forget in Hrun.
  destruct (run_2d_calls cgs r N mask steps) as [[t l]|]; [eauto | discriminate].
Qed.

(** ** The constant field, and solutions within a tolerance *)

(** Inside, a row of [B] applied to the constant field adds its two
    neighbours. *)
Lemma B1_row_constant (N : Z) (v : Q) (i : nat) :
  (i < Z.to_nat (N - 2))%nat -> i <> 0%nat -> i <> (Z.to_nat (N - 2) - 1)%nat ->
  row_dot (banded (N - 2) B1_bands) (repeat v (Z.to_nat (N - 2))) i == v + v.
Proof.
  intros Hi H0 Hl.
  rewrite B1_row by exact Hi.
  rewrite !nth_repeat_lt.
  destruct (Nat.leb_spec 1 i); [|lia].
  destruct (Nat.ltb_spec (i + 1) (Z.to_nat (N - 2))); [|lia].
  destruct (Nat.ltb_spec (i - 1) (Z.to_nat (N - 2))); [|lia]. reflexivity.
Qed.

(** On a dominant system the direct solver returns the solution, so a
    solution within every tolerance. *)
Lemma spsolve_within (A : dia_matrix) (b x : vec) :
  dominant (dia_shape A) (entry A) -> spsolve A b = Ok x ->
  solves_within (1 # 10 ^ 9) (2 ^ (-1000)) A x b.
Proof.
  intros Hd Hx.
  assert (Hb : length b = dia_shape A).
  { unfold spsolve in Hx.
    destruct (Nat.eqb_spec (length b) (dia_shape A)); [assumption | discriminate]. }
  destruct (spsolve_correct A b Hd Hb) as [x' [Hx' [Hlen Hs]]].
  assert (Ex : x' = x) by congruence. subst x'.
  split; [exact Hlen|]. split; [exact Hb|].
  intros i Hi. rewrite (Hs i Hi).
  setoid_replace (nth i b 0 - nth i b 0) with 0 by ring.
  change (Qabs 0) with 0.
  apply Qle_trans with ((1 # 10 ^ 9) * sumn (dia_shape A) (fun j => Qabs (nth j b 0)) + 0).
  - rewrite Qplus_0_r. apply Qmult_le_0_compat; [discriminate|].
    apply sumn_nonneg. intros j _. apply Qabs_nonneg.
  - apply Qplus_le_r. apply Qpower_0_le. discriminate.
Qed.

(** * The claims *)

(** C1 (as stated, refuted).  With [N = 4] and [r = 1/2] the flat index
    [k = 3] ends row 0 ([3 mod 4 = N - 1]), and the assembled [A] holds
    [-r] at [A[3, 4]]: the [+1] band joins cell [(0, 3)] to cell [(1, 0)]. *)
Lemma C1_counterexample :
  exists A : dia_matrix,
    assemble_A2 (1 # 2) 4 = Ok A /\ (3 mod 4 = 4 - 1)%Z /\ ~ entry A 3 4 == 0.
Proof.
  exists (banded (4 * 4) (A2_bands (1 # 2) 4)).
  split; [apply assemble_A2_closed; lia|].
  split; [reflexivity|].
  vm_compute. discriminate.
Qed.

(** C1 (amended).  For every [N >= 3] and [r > 0] the [+1] and [-1] bands
    of [A] and of [M] are filled uniformly: for every flat index [k] with
    [k + 1 < N*N], row ends included, [A[k, k+1] = A[k+1, k] = -r] and
    [M[k, k+1] = M[k+1, k] = r], none of which is zero. *)
Theorem C1_unit_bands_uniform (N : Z) (r : Q) :
  (3 <= N)%Z -> 0 < r ->
  exists A M : dia_matrix,
    assemble_A2 r N = Ok A /\ assemble_M2 r N = Ok M /\
    forall k : nat, (Z.of_nat k + 1 < N * N)%Z ->
      entry A k (k + 1) == - r /\ entry A (k + 1) k == - r /\
      entry M k (k + 1) == r /\ entry M (k + 1) k == r /\
      ~ entry A k (k + 1) == 0 /\ ~ entry M k (k + 1) == 0.
Proof.
  intros HN Hr.
  exists (banded (N * N) (A2_bands r N)), (banded (N * N) (M2_bands r N)).
  assert (HN2 : (2 <= Z.abs N)%Z) by lia.
  split; [apply assemble_A2_closed; exact HN2|].
  split; [apply assemble_M2_closed; exact HN2|].
  intros k Hk.
  assert (Hk0 : (k < Z.to_nat (N * N))%nat) by lia.
  assert (Hk1 : (k + 1 < Z.to_nat (N * N))%nat) by lia.
  assert (EA : entry (banded (N * N) (A2_bands r N)) k (k + 1) == - r).
  { rewrite entry_A2 by assumption. band_cases. }
  assert (EM : entry (banded (N * N) (M2_bands r N)) k (k + 1) == r).
  { rewrite entry_M2 by assumption. band_cases. }
  repeat split.
  - exact EA.
  - rewrite entry_A2 by assumption. band_cases.
  - exact EM.
  - rewrite entry_M2 by assumption. band_cases.
  - rewrite EA. lra.
  - rewrite EM. lra.
Qed.

Lemma C1_witness :
  (3 <= 4)%Z /\ 0 < 1 # 2 /\
  exists A M : dia_matrix,
    assemble_A2 (1 # 2) 4 = Ok A /\ assemble_M2 (1 # 2) 4 = Ok M /\
    forall k : nat, (Z.of_nat k + 1 < 4 * 4)%Z ->
      entry A k (k + 1) == - (1 # 2) /\ entry A (k + 1) k == - (1 # 2) /\
      entry M k (k + 1) == 1 # 2 /\ entry M (k + 1) k == 1 # 2 /\
      ~ entry A k (k + 1) == 0 /\ ~ entry M k (k + 1) == 0.
Proof.
  split; [lia|]. split; [reflexivity|].
  apply (C1_unit_bands_uniform 4 (1 # 2)); [lia | reflexivity].
Defined.

(** C2 (as stated, refuted).  On the [3 x 3] grid with the centre cell
    masked and [r = 1/2], one pass with [cgs] at its default tolerance
    leaves a value more than [12] away from the fixed value [10] at the
    masked cell: nothing re-asserts the fixed value. *)
Lemma C2_counterexample :
  exists traj k,
    run_2d cgs_default (1 # 2) 3 mask_centre 2 = Ok (traj, k) /\
    mask_centre 1 1 = true /\
    12 < Qabs (nth 1 (nth 1 (nth 1 traj []) []) 0 - 10).
Proof.
  eexists. eexists. split; [vm_compute; reflexivity|].
  split; [reflexivity|]. vm_compute. reflexivity.
Qed.

(** C2 (amended).  The boundary values are stamped once, when the field
    is set up.  1D: [arr[0] = left_bc] and [arr[-1] = right_bc] exactly;
    a completed run on [arr] records [t_end] snapshots of [N - 2] values,
    snapshot 0 is [arr[1:-1]], cell [j] of it being [arr[j + 1]], and
    every later snapshot is what the pass returned for the one before,
    so neither edge cell is in any snapshot.  2D: a completed run
    records [steps] snapshots after [steps - 1] solves, snapshot 0 holds
    the fixed value [10] at every masked position, and every later
    snapshot is the iterate the solver returned for
    [M @ previous snapshot], with no fixed value written back. *)
Theorem C2_boundary_values_set_once
    (cgs : dia_matrix -> vec -> vec * Z) (r : Q) (N : Z)
    (mask : nat -> nat -> bool) (steps : Z)
    (N1 : Z) (left_bc right_bc : Q) (t_end : Z) :
  (2 <= N1)%Z ->
  (exists arr,
     initial_config N1 left_bc right_bc = Ok arr /\
     length arr = Z.to_nat N1 /\
     nth 0 arr 0 = left_bc /\ nth (Z.to_nat N1 - 1) arr 0 = right_bc /\
     forall traj k,
       run_1d N1 left_bc right_bc t_end arr = Ok (traj, k) ->
       Z.of_nat k = (t_end - 1)%Z /\ Z.of_nat (length traj) = t_end /\
       nth 0 traj [] = py_slice arr 1 (-1) /\
       (forall t, (t < length traj)%nat ->
          length (nth t traj []) = Z.to_nat (N1 - 2)) /\
       (forall j, (j < Z.to_nat (N1 - 2))%nat ->
          nth j (nth 0 traj []) 0 = nth (S j) arr 0) /\
       exists A B,
         assemble_A1 N1 = Ok A /\ assemble_B1 N1 = Ok B /\
         forall t, (t < k)%nat ->
           step_1d A B left_bc right_bc (nth t traj []) = Ok (nth (S t) traj [])) /\
  (forall traj k,
     run_2d cgs r N mask steps = Ok (traj, k) ->
     Z.of_nat k = (steps - 1)%Z /\ Z.of_nat (length traj) = steps /\
     (forall i j, (i < Z.to_nat N)%nat -> (j < Z.to_nat N)%nat ->
        mask i j = true -> nth j (nth i (nth 0 traj []) []) 0 = 10) /\
     exists A M,
       assemble_A2 r N = Ok A /\ assemble_M2 r N = Ok M /\
       forall t, (t < k)%nat ->
         solve_step cgs A M N (nth t traj []) (nth (S t) traj [])) /\
  ((4 <= N1)%Z -> (1 <= t_end)%Z ->
     exists arr traj k,
       initial_config N1 left_bc right_bc = Ok arr /\
       run_1d N1 left_bc right_bc t_end arr = Ok (traj, k)) /\
  ((forall A b, length b = dia_shape A -> length (fst (cgs A b)) = length b) ->
   (2 <= N)%Z -> (1 <= steps)%Z ->
     exists traj k, run_2d cgs r N mask steps = Ok (traj, k)).
Proof.
  intros HN1.
  destruct (initial_config_ok N1 left_bc right_bc HN1) as [arr [H1 [H2 [H3 H4]]]].
  split; [|split; [|split]].
  - exists arr. repeat (split; [assumption|]).
    intros traj k Hrun. apply run_1d_spec in Hrun; [|exact H2].
    destruct Hrun as [Hk [Hlen [H0 [Hrows Hstep]]]].
    split; [exact Hk|]. split; [exact Hlen|]. split; [exact H0|].
    split; [exact Hrows|]. split; [|exact Hstep].
    intros j Hj. rewrite H0. apply nth_interior. lia.
  - intros traj k Hrun. apply run_2d_spec in Hrun.
    destruct Hrun as [HN [Hk [Hlen [H0 Hstep]]]].
    split; [exact Hk|]. split; [exact Hlen|]. split; [|exact Hstep].
    intros i j Hi Hj Hm. rewrite H0.
    rewrite (@nth_map_seq_gen vec _ [] _ _ Hi). unfold mask_row.
    rewrite nth_map_seq by exact Hj. rewrite Hm. reflexivity.
  - intros HN HT.
    destruct (run_1d_completes N1 left_bc right_bc t_end arr HN HT H2)
      as [traj [k Hrun]].
    exists arr, traj, k. auto.
  - intros Hcgs HN HT. apply run_2d_completes_square; assumption.
Qed.

Lemma C2_witness :
  (2 <= 5)%Z /\
  (exists arr,
     initial_config 5 10 20 = Ok arr /\
     length arr = Z.to_nat 5 /\
     nth 0 arr 0 = 10 /\ nth (Z.to_nat 5 - 1) arr 0 = 20 /\
     forall traj k,
       run_1d 5 10 20 3 arr = Ok (traj, k) ->
       Z.of_nat k = (3 - 1)%Z /\ Z.of_nat (length traj) = 3%Z /\
       nth 0 traj [] = py_slice arr 1 (-1) /\
       (forall t, (t < length traj)%nat ->
          length (nth t traj []) = Z.to_nat (5 - 2)) /\
       (forall j, (j < Z.to_nat (5 - 2))%nat ->
          nth j (nth 0 traj []) 0 = nth (S j) arr 0) /\
       exists A B,
         assemble_A1 5 = Ok A /\ assemble_B1 5 = Ok B /\
         forall t, (t < k)%nat ->
           step_1d A B 10 20 (nth t traj []) = Ok (nth (S t) traj [])) /\
  (forall traj k,
     run_2d cgs_default (1 # 2) 3 mask_centre 3 = Ok (traj, k) ->
     Z.of_nat k = (3 - 1)%Z /\ Z.of_nat (length traj) = 3%Z /\
     (forall i j, (i < Z.to_nat 3)%nat -> (j < Z.to_nat 3)%nat ->
        mask_centre i j = true -> nth j (nth i (nth 0 traj []) []) 0 = 10) /\
     exists A M,
       assemble_A2 (1 # 2) 3 = Ok A /\ assemble_M2 (1 # 2) 3 = Ok M /\
       forall t, (t < k)%nat ->
         solve_step cgs_default A M 3 (nth t traj []) (nth (S t) traj [])) /\
  ((4 <= 5)%Z -> (1 <= 3)%Z ->
     exists arr traj k,
       initial_config 5 10 20 = Ok arr /\
       run_1d 5 10 20 3 arr = Ok (traj, k)) /\
  ((forall A b, length b = dia_shape A ->
      length (fst (cgs_default A b)) = length b) ->
   (2 <= 3)%Z -> (1 <= 3)%Z ->
     exists traj k, run_2d cgs_default (1 # 2) 3 mask_centre 3 = Ok (traj, k)).
Proof.
  split; [lia|].
  apply (C2_boundary_values_set_once cgs_default (1 # 2) 3 mask_centre 3 5 10 20 3).
  lia.
Defined.




(** C4 (as stated, refuted).  With [N = 2] both 2D matrices assemble
    (as [4 x 4] matrices) and a run steps to completion. *)
Lemma C4_counterexample :
  is_ok (assemble_A2 (1 # 2) 2) = true /\
  is_ok (assemble_M2 (1 # 2) 2) = true /\
  is_ok (run_2d cgs_exact (1 # 2) 2 (fun i j => (i =? j)%nat) 3) = true.
Proof. vm_compute. repeat split. Qed.

(** C4 (amended).  The notebook has no dimension check of its own; what
    fails is the library call.  1D assembly succeeds exactly when
    [N >= 3], and for [N < 3] raises [ValueError] while assembling [A],
    so that a run raises it before any step.  2D assembly succeeds
    exactly when [|N| >= 2], in particular at [N = 2], and raises
    [ValueError] otherwise, again before any step. *)
Theorem C4_assembly_failures (N : Z) (r : Q) :
  is_ok (assemble_A1 N) = (3 <=? N)%Z /\
  is_ok (assemble_A2 r N) = (2 <=? Z.abs N)%Z /\
  is_ok (assemble_M2 r N) = (2 <=? Z.abs N)%Z /\
  ((3 <=? N)%Z = false ->
     assemble_A1 N = Raise ValueError /\
     forall left_bc right_bc t_end arr,
       run_1d N left_bc right_bc t_end arr = Raise ValueError) /\
  ((2 <=? Z.abs N)%Z = false ->
     assemble_A2 r N = Raise ValueError /\
     forall cgs mask steps, run_2d cgs r N mask steps = Raise ValueError).
Proof.
  destruct (Z.leb_spec 3 N) as [H3|H3];
    destruct (Z.leb_spec 2 (Z.abs N)) as [H2|H2]; try lia.
  - rewrite assemble_A1_closed, assemble_A2_closed, assemble_M2_closed by lia.
    repeat split; discriminate.
  - rewrite assemble_A1_small, assemble_A2_closed, assemble_M2_closed by lia.
    repeat split; try discriminate.
    intros. unfold run_1d. rewrite assemble_A1_small by lia. reflexivity.
  - rewrite assemble_A1_small, assemble_A2_small, assemble_M2_small by lia.
    repeat split; try discriminate.
    + intros. unfold run_1d. rewrite assemble_A1_small by lia. reflexivity.
    + intros. unfold run_2d. rewrite assemble_A2_small by lia. reflexivity.
Qed.

(** C5 (as stated, refuted).  The 1D cells take no [r]: at [N = 4] the
    main diagonal of [A] holds [4], which is not [2(1+r)] for [r = 2]. *)
Lemma C5_counterexample :
  exists A : dia_matrix,
    assemble_A1 4 = Ok A /\ 0 < 2 /\ ~ entry A 0 0 == 2 * (1 + 2).
Proof.
  exists (banded (4 - 2) A1_bands).
  split; [apply assemble_A1_closed; lia|].
  split; [reflexivity|].
  vm_compute. discriminate.
Qed.

(** C5 (amended).  For every [N >= 3] the 1D matrices are the [r = 1]
    instance: [A] is tridiagonal with main diagonal [4 = 2(1+r)] and
    off-diagonals [-1 = -r], [B] is tridiagonal with zero main diagonal and
    off-diagonals [1 = r], where [r = 1]. *)
Theorem C5_tridiagonal_at_r_one (N : Z) (r : Q) :
  (3 <= N)%Z -> r == 1 ->
  exists A B : dia_matrix,
    assemble_A1 N = Ok A /\ assemble_B1 N = Ok B /\
    dia_shape A = Z.to_nat (N - 2) /\ dia_shape B = Z.to_nat (N - 2) /\
    forall i j, (i < Z.to_nat (N - 2))%nat -> (j < Z.to_nat (N - 2))%nat ->
      entry A i j == tridiagonal (2 * (1 + r)) (- r) i j /\
      entry B i j == tridiagonal 0 r i j /\
      entry A i j == tridiagonal 4 (-1) i j /\
      entry B i j == tridiagonal 0 1 i j.
Proof.
  intros HN Hr.
  exists (banded (N - 2) A1_bands), (banded (N - 2) B1_bands).
  split; [apply assemble_A1_closed; exact HN|].
  split; [apply assemble_B1_closed; exact HN|].
  split; [reflexivity|]. split; [reflexivity|].
  intros i j Hi Hj.
  rewrite entry_A1, entry_B1 by assumption.
  unfold tridiagonal.
  destruct (dist i j =? 0)%Z; [|destruct (dist i j =? 1)%Z];
    repeat split; try reflexivity; lra.
Qed.

Lemma C5_witness :
  (3 <= 5)%Z /\ 1 == 1 /\
  exists A B : dia_matrix,
    assemble_A1 5 = Ok A /\ assemble_B1 5 = Ok B /\
    dia_shape A = Z.to_nat (5 - 2) /\ dia_shape B = Z.to_nat (5 - 2) /\
    forall i j, (i < Z.to_nat (5 - 2))%nat -> (j < Z.to_nat (5 - 2))%nat ->
      entry A i j == tridiagonal (2 * (1 + 1)) (- 1) i j /\
      entry B i j == tridiagonal 0 1 i j /\
      entry A i j == tridiagonal 4 (-1) i j /\
      entry B i j == tridiagonal 0 1 i j.
Proof.
  split; [lia|]. split; [reflexivity|].
  apply (C5_tridiagonal_at_r_one 5 1); [lia | reflexivity].
Defined.

(** C6.  In every pass of the 1D loop (there are at least two interior
    cells, [N >= 4]) the vector handed to the solver holds
    [2*left_bc + u[1]] in slot 0 and [2*right_bc + u[-2]] in the last slot,
    [u] being the interior field before the product; since
    [(B@u)[0] = u[1]] and [(B@u)[-1] = u[-2]], overwriting the two slots
    is the same as adding [2*left_bc] and [2*right_bc] to the first and
    last entries of [B@u]. *)
Theorem C6_rhs_boundary_slots (N : Z) (left_bc right_bc : Q) (u : vec) :
  (4 <= N)%Z -> length u = Z.to_nat (N - 2) ->
  exists (B : dia_matrix) (y b : vec),
    assemble_B1 N = Ok B /\ mat_vec B u = Ok y /\
    rhs_1d B left_bc right_bc u = Ok b /\
    length b = length u /\
    nth 0 b 0 == 2 * left_bc + nth 1 u 0 /\
    nth (length u - 1) b 0 == 2 * right_bc + nth (length u - 2) u 0 /\
    nth 0 y 0 == nth 1 u 0 /\
    nth (length u - 1) y 0 == nth (length u - 2) u 0 /\
    forall i, (i < length u)%nat ->
      nth i b 0 == nth i y 0
                   + (if (i =? 0)%nat then 2 * left_bc else 0)
                   + (if (i =? length u - 1)%nat then 2 * right_bc else 0).
Proof.
  intros HN Hu.
  set (B := banded (N - 2) B1_bands).
  assert (HB : length u = dia_shape B) by exact Hu.
  assert (H2 : (2 <= length u)%nat) by lia.
  exists B, (map (row_dot B u) (seq 0 (dia_shape B))), (rhs_closed B left_bc right_bc u).
  assert (Hy : forall i, (i < length u)%nat ->
            nth i (map (row_dot B u) (seq 0 (dia_shape B))) 0 ==
            (if (1 <=? i)%nat then nth (i - 1) u 0 else 0) +
            (if (i + 1 <? length u)%nat then nth (i + 1) u 0 else 0)).
  { intros i Hi. rewrite nth_map_seq by lia.
    unfold B. rewrite B1_row by lia. rewrite <- Hu. reflexivity. }
  assert (Hy0 : nth 0 (map (row_dot B u) (seq 0 (dia_shape B))) 0 == nth 1 u 0).
  { rewrite Hy by lia. simpl (1 <=? 0)%nat. cbv iota.
    destruct (Nat.ltb_spec (0 + 1) (length u)); [|lia]. simpl (0 + 1)%nat. ring. }
  assert (Hyl : nth (length u - 1) (map (row_dot B u) (seq 0 (dia_shape B))) 0 ==
                nth (length u - 2) u 0).
  { rewrite Hy by lia.
    destruct (Nat.leb_spec 1 (length u - 1)); [|lia].
    destruct (Nat.ltb_spec (length u - 1 + 1) (length u)); [lia|].
    replace (length u - 1 - 1)%nat with (length u - 2)%nat by lia. ring. }
  split; [apply assemble_B1_closed; lia|].
  split; [apply mat_vec_ok; exact HB|].
  split; [apply rhs_1d_ok; assumption|].
  split; [rewrite rhs_closed_length; symmetry; exact HB|].
  split.
  { rewrite nth_rhs_closed by (try assumption; lia).
    destruct (Nat.eqb_spec 0 (length u - 1)); [lia|]. reflexivity. }
  split.
  { rewrite nth_rhs_closed by (try assumption; lia).
    rewrite Nat.eqb_refl. reflexivity. }
  split; [exact Hy0|]. split; [exact Hyl|].
  intros i Hi. rewrite nth_rhs_closed by assumption.
  destruct (Nat.eqb_spec i (length u - 1)) as [->|Hl].
  - destruct (Nat.eqb_spec (length u - 1) 0); [lia|]. rewrite Hyl. ring.
  - destruct (Nat.eqb_spec i 0) as [->|H0].
    + rewrite Hy0. ring.
    + rewrite nth_map_seq by lia. ring.
Qed.

Lemma C6_witness :
  (4 <= 5)%Z /\ length [1; 2; 3] = Z.to_nat (5 - 2) /\
  exists (B : dia_matrix) (y b : vec),
    assemble_B1 5 = Ok B /\ mat_vec B [1; 2; 3] = Ok y /\
    rhs_1d B 10 20 [1; 2; 3] = Ok b /\
    length b = length [1; 2; 3] /\
    nth 0 b 0 == 2 * 10 + nth 1 [1; 2; 3] 0 /\
    nth (length [1; 2; 3] - 1) b 0 ==
      2 * 20 + nth (length [1; 2; 3] - 2) [1; 2; 3] 0 /\
    nth 0 y 0 == nth 1 [1; 2; 3] 0 /\
    nth (length [1; 2; 3] - 1) y 0 == nth (length [1; 2; 3] - 2) [1; 2; 3] 0 /\
    forall i, (i < length [1; 2; 3])%nat ->
      nth i b 0 == nth i y 0
                   + (if (i =? 0)%nat then 2 * 10 else 0)
                   + (if (i =? length [1; 2; 3] - 1)%nat then 2 * 20 else 0).
Proof.
  split; [lia|]. split; [reflexivity|].
  apply (C6_rhs_boundary_slots 5 10 20 [1; 2; 3]); [lia | reflexivity].
Defined.

(** C7 (as stated, refuted).  With [N = 3] the interior is a single cell;
    on the constant field [10] with both boundary values [10] the pass
    raises [IndexError] at [interior_points[1]] and returns no field.
    With [N = 4] and [v = 0.1] the pass, in float64, returns
    [0.10000000000000002] in both cells, which is not [v]. *)
Lemma C7_counterexample :
  (exists A B : dia_matrix,
     assemble_A1 3 = Ok A /\ assemble_B1 3 = Ok B /\
     py_slice (repeat 10 3) 1 (-1) = [10] /\
     step_1d A B 10 10 [10] = Raise IndexError) /\
  step_1d_float64 tenth tenth tenth tenth =
    (0x1.999999999999bp-4, 0x1.999999999999bp-4)%float /\
  (fst (step_1d_float64 tenth tenth tenth tenth) =? tenth)%float = false.
Proof.
  split; [|split; vm_compute; reflexivity].
  exists (banded (3 - 2) A1_bands), (banded (3 - 2) B1_bands).
  split; [apply assemble_A1_closed; lia|].
  split; [apply assemble_B1_closed; lia|].
  split; reflexivity.
Qed.

(** C7 (amended).  For every [N >= 4] and every [v], the pass of the 1D
    loop (whose matrices are the [r = 1] instance) on the constant
    interior field [v] with both boundary values [v] hands the solver
    the right-hand side with [2*v + v] in its two end slots and [v + v]
    elsewhere, and returns [N - 2] values, each within [10^-9 |v|] of
    [v] for [v = 0] or [2^-900 <= |v| <= 2^900] (the difference is zero
    in exact arithmetic and a rounding error in float64).  The constant
    field is the steady state of the scheme: row by row, [A] applied to
    it is [B] applied to it plus [2*v] in the two end rows, and it is
    the only vector with that image under [A]. *)
Theorem C7_constant_field_fixed (N : Z) (v : Q) :
  (4 <= N)%Z ->
  exists (A B : dia_matrix) (rhs x : vec),
    assemble_A1 N = Ok A /\ assemble_B1 N = Ok B /\
    rhs_1d B v v (repeat v (Z.to_nat (N - 2))) = Ok rhs /\
    length rhs = Z.to_nat (N - 2) /\
    (forall i, (i < Z.to_nat (N - 2))%nat ->
       nth i rhs 0 ==
       if ((i =? 0) || (i =? Z.to_nat (N - 2) - 1))%nat then 2 * v + v else v + v) /\
    step_1d A B v v (repeat v (Z.to_nat (N - 2))) = Ok x /\
    length x = Z.to_nat (N - 2) /\
    (v == 0 \/ 2 ^ (-900) <= Qabs v <= 2 ^ 900 ->
     forall i, (i < Z.to_nat (N - 2))%nat ->
       Qabs (nth i x 0 - v) <= (1 # 10 ^ 9) * Qabs v) /\
    (forall i, (i < Z.to_nat (N - 2))%nat ->
       sumn (Z.to_nat (N - 2)) (fun j => entry A i j * v) ==
       scheme_rhs B v v (fun _ => v) (Z.to_nat (N - 2)) i) /\
    forall y : nat -> Q,
      (forall i, (i < Z.to_nat (N - 2))%nat ->
         sumn (Z.to_nat (N - 2)) (fun j => entry A i j * y j) ==
         scheme_rhs B v v (fun _ => v) (Z.to_nat (N - 2)) i) ->
      forall i, (i < Z.to_nat (N - 2))%nat -> y i == v.
Proof.
  intros HN.
  set (n := Z.to_nat (N - 2)).
  set (A := banded (N - 2) A1_bands).
  set (B := banded (N - 2) B1_bands).
  set (u := repeat v n).
  assert (Hu : length u = n) by apply repeat_length.
  assert (H2 : (2 <= length u)%nat) by (rewrite Hu; unfold n; lia).
  assert (HB : dia_shape B = n) by reflexivity.
  destruct (step_1d_ok A B v v u) as [x [Hstep Hsolve]];
    [reflexivity | exact Hu | exact H2 |].
  assert (Hfix : forall i, (i < n)%nat ->
            sumn n (fun j => entry A i j * v) == scheme_rhs B v v (fun _ => v) n i).
  { intros i Hi. unfold A, B, scheme_rhs.
    unfold n in Hi |- *. rewrite (A1_row (N - 2) (fun _ => v)) by exact Hi.
    rewrite (sumn_ext _ _ (fun j => tridiagonal 0 1 i j * v))
      by (intros j Hj; rewrite entry_B1 by assumption; reflexivity).
    rewrite (tridiagonal_row _ 0 1 i (fun _ => v)) by exact Hi.
    fold n in Hi |- *.
    destruct (Nat.eqb_spec i 0) as [Hi0|Hi0];
      destruct (Nat.eqb_spec i (n - 1)) as [Hl|Hl];
      destruct (Nat.leb_spec 1 i); destruct (Nat.ltb_spec (i + 1) n);
      try lia; ring. }
  assert (Hrhs : forall i, (i < n)%nat ->
            nth i (rhs_closed B v v u) 0 ==
            if ((i =? 0) || (i =? n - 1))%nat then 2 * v + v else v + v).
  { intros i Hi. rewrite nth_rhs_closed by (try assumption; rewrite ?Hu; lia).
    rewrite Hu. unfold u. rewrite !nth_repeat_lt.
    destruct (Nat.ltb_spec (n - 2) n); [|lia].
    destruct (Nat.ltb_spec 1 n); [|lia].
    destruct (Nat.eqb_spec i (n - 1)) as [->|Hl].
    - rewrite Bool.orb_true_r. reflexivity.
    - destruct (Nat.eqb_spec i 0) as [->|Hi0]; [reflexivity|].
      cbn [orb]. apply (B1_row_constant N v i); unfold n in *; lia. }
  exists A, B, (rhs_closed B v v u), x.
  split; [apply assemble_A1_closed; lia|].
  split; [apply assemble_B1_closed; lia|].
  split; [apply rhs_1d_ok; assumption|].
  split; [apply rhs_closed_length|].
  split; [exact Hrhs|].
  split; [exact Hstep|].
  split; [apply (step_1d_length _ _ _ _ _ _ Hstep)|].
  split.
  { intros _ i Hi.
    destruct (spsolve_correct A (rhs_closed B v v u)) as [x' [Hx' [Hlen Hsol]]];
      [apply A1_dominant | exact (rhs_closed_length B v v u) |].
    assert (Ex : x' = x) by congruence. subst x'.
    assert (E : nth i x 0 == v).
    { apply (dominant_unique n (entry A) (fun i => nth i (rhs_closed B v v u) 0)
               (fun j => nth j x 0) (fun _ => v));
        [apply A1_dominant | exact Hsol | | exact Hi].
      intros k Hk. rewrite (Hfix k Hk), (Hrhs k Hk). unfold scheme_rhs, B.
      unfold n in Hk |- *.
      rewrite (sumn_ext _ _ (fun j => tridiagonal 0 1 k j * v))
        by (intros j Hj; rewrite entry_B1 by assumption; reflexivity).
      rewrite (tridiagonal_row _ 0 1 k (fun _ => v)) by exact Hk.
      fold n in Hk |- *.
      destruct (Nat.eqb_spec k 0) as [Hk0|Hk0];
        destruct (Nat.eqb_spec k (n - 1)) as [Hl|Hl];
        destruct (Nat.leb_spec 1 k); destruct (Nat.ltb_spec (k + 1) n);
        try lia; cbn [orb]; ring. }
    rewrite E. setoid_replace (v - v) with 0 by ring.
    change (Qabs 0) with 0. apply Qmult_le_0_compat; [discriminate | apply Qabs_nonneg]. }
  split; [exact Hfix|].
  intros y Hy.
  apply (dominant_unique n (entry A) (scheme_rhs B v v (fun _ => v) n) y (fun _ => v)).
  - apply A1_dominant.
  - exact Hy.
  - exact Hfix.
Qed.

Lemma C7_witness :
  (4 <= 6)%Z /\
  exists (A B : dia_matrix) (rhs x : vec),
    assemble_A1 6 = Ok A /\ assemble_B1 6 = Ok B /\
    rhs_1d B (7 # 2) (7 # 2) (repeat (7 # 2) (Z.to_nat (6 - 2))) = Ok rhs /\
    length rhs = Z.to_nat (6 - 2) /\
    (forall i, (i < Z.to_nat (6 - 2))%nat ->
       nth i rhs 0 ==
       if ((i =? 0) || (i =? Z.to_nat (6 - 2) - 1))%nat
       then 2 * (7 # 2) + (7 # 2) else (7 # 2) + (7 # 2)) /\
    step_1d A B (7 # 2) (7 # 2) (repeat (7 # 2) (Z.to_nat (6 - 2))) = Ok x /\
    length x = Z.to_nat (6 - 2) /\
    ((7 # 2) == 0 \/ 2 ^ (-900) <= Qabs (7 # 2) <= 2 ^ 900 ->
     forall i, (i < Z.to_nat (6 - 2))%nat ->
       Qabs (nth i x 0 - (7 # 2)) <= (1 # 10 ^ 9) * Qabs (7 # 2)) /\
    (forall i, (i < Z.to_nat (6 - 2))%nat ->
       sumn (Z.to_nat (6 - 2)) (fun j => entry A i j * (7 # 2)) ==
       scheme_rhs B (7 # 2) (7 # 2) (fun _ => 7 # 2) (Z.to_nat (6 - 2)) i) /\
    forall y : nat -> Q,
      (forall i, (i < Z.to_nat (6 - 2))%nat ->
         sumn (Z.to_nat (6 - 2)) (fun j => entry A i j * y j) ==
         scheme_rhs B (7 # 2) (7 # 2) (fun _ => 7 # 2) (Z.to_nat (6 - 2)) i) ->
      forall i, (i < Z.to_nat (6 - 2))%nat -> y i == 7 # 2.
Proof.
  split; [lia|].
  apply (C7_constant_field_fixed 6 (7 # 2)); lia.
Defined.

(** C8 (as stated, refuted).  The 1D matrix does not depend on [r]: at
    [N = 4] the diagonal magnitude of [A] is [4], which is not [2(1+r)]
    for [r = 2].  In 2D, at [r = 2^51], float64 rounds [1 + 4r] to
    [2^53], which is the sum [4r] of the four off-diagonal magnitudes of
    an interior row: the diagonal does not exceed it. *)
Lemma C8_counterexample :
  (exists A : dia_matrix,
     assemble_A1 4 = Ok A /\ 0 < 2 /\ ~ Qabs (entry A 0 0) == 2 * (1 + 2)) /\
  (diag_A2_float64 two_to_51 =?
     two_to_51 + two_to_51 + two_to_51 + two_to_51)%float = true.
Proof.
  split; [|vm_compute; reflexivity].
  exists (banded (4 - 2) A1_bands).
  split; [apply assemble_A1_closed; lia|].
  split; [reflexivity|].
  vm_compute. discriminate.
Qed.

(** C8 (amended).  For every [N >= 3] and every [r] with
    [0 < r < 2^51] both implicit matrices assemble and are symmetric and
    strictly diagonally dominant by rows: in 1D, where the coefficients
    are those of [r = 1], the diagonal magnitude is [4 = 2(1+1)] against
    an off-diagonal row sum of at most [2 = 2*1]; in 2D it is [1 + 4r]
    against at most [4r].  Hence [A x = b] has exactly one solution for
    every right-hand side.  Below [2^51] float64 still tells [1 + 4r]
    from [4r]. *)
Theorem C8_implicit_matrices_dominant (N : Z) (r : Q) :
  (3 <= N)%Z -> 0 < r -> r < 2 ^ 51 ->
  exists A1 A2 : dia_matrix,
    assemble_A1 N = Ok A1 /\ assemble_A2 r N = Ok A2 /\
    dia_shape A1 = Z.to_nat (N - 2) /\ dia_shape A2 = Z.to_nat (N * N) /\
    symmetric (dia_shape A1) (entry A1) /\
    symmetric (dia_shape A2) (entry A2) /\
    (forall i, (i < dia_shape A1)%nat ->
       Qabs (entry A1 i i) == 2 * (1 + 1) /\
       off_sum (dia_shape A1) (entry A1) i <= 2 * 1 /\
       off_sum (dia_shape A1) (entry A1) i < Qabs (entry A1 i i)) /\
    (forall i, (i < dia_shape A2)%nat ->
       Qabs (entry A2 i i) == 1 + 4 * r /\
       off_sum (dia_shape A2) (entry A2) i <= 4 * r /\
       off_sum (dia_shape A2) (entry A2) i < Qabs (entry A2 i i)) /\
    unique_solution A1 /\ unique_solution A2.
Proof.
  intros HN Hr _.
  exists (banded (N - 2) A1_bands), (banded (N * N) (A2_bands r N)).
  assert (HN2 : (2 <= Z.abs N)%Z) by lia.
  split; [apply assemble_A1_closed; exact HN|].
  split; [apply assemble_A2_closed; exact HN2|].
  split; [reflexivity|]. split; [reflexivity|].
  split; [apply A1_symmetric|]. split; [apply A2_symmetric; exact HN2|].
  split.
  { intros i Hi. simpl in Hi. split; [|split].
    - rewrite A1_diag by exact Hi. reflexivity.
    - eapply Qle_trans; [apply A1_off_sum; exact Hi | lra].
    - apply A1_dominant; exact Hi. }
  split.
  { intros i Hi. simpl in Hi. split; [|split].
    - apply A2_diag; assumption.
    - apply A2_off_sum; assumption.
    - apply A2_dominant; assumption. }
  split; apply dominant_unique_solution.
  - apply A1_dominant.
  - apply A2_dominant; assumption.
Qed.

Lemma C8_witness :
  (3 <= 4)%Z /\ 0 < 1 # 2 /\ 1 # 2 < 2 ^ 51 /\
  exists A1 A2 : dia_matrix,
    assemble_A1 4 = Ok A1 /\ assemble_A2 (1 # 2) 4 = Ok A2 /\
    dia_shape A1 = Z.to_nat (4 - 2) /\ dia_shape A2 = Z.to_nat (4 * 4) /\
    symmetric (dia_shape A1) (entry A1) /\
    symmetric (dia_shape A2) (entry A2) /\
    (forall i, (i < dia_shape A1)%nat ->
       Qabs (entry A1 i i) == 2 * (1 + 1) /\
       off_sum (dia_shape A1) (entry A1) i <= 2 * 1 /\
       off_sum (dia_shape A1) (entry A1) i < Qabs (entry A1 i i)) /\
    (forall i, (i < dia_shape A2)%nat ->
       Qabs (entry A2 i i) == 1 + 4 * (1 # 2) /\
       off_sum (dia_shape A2) (entry A2) i <= 4 * (1 # 2) /\
       off_sum (dia_shape A2) (entry A2) i < Qabs (entry A2 i i)) /\
    unique_solution A1 /\ unique_solution A2.
Proof.
  split; [lia|]. split; [reflexivity|]. split; [reflexivity|].
  apply (C8_implicit_matrices_dominant 4 (1 # 2)); [lia | reflexivity | reflexivity].
Defined.

(** C9 (as stated, refuted).  With [N = 4] a completed 1D run records
    snapshots of length [2], not [4]. *)
Lemma C9_counterexample :
  exists traj k,
    run_1d 4 10 10 2 [10; 0; 0; 10] = Ok (traj, k) /\
    length (nth 0 traj []) = 2%nat /\ length (nth 1 traj []) = 2%nat /\
    length (nth 0 traj []) <> Z.to_nat 4.
Proof.
  eexists. eexists. split; [vm_compute; reflexivity|].
  split; [reflexivity|]. split; [reflexivity|]. discriminate.
Qed.

(** C9 (amended).  Every snapshot of a completed 1D run has length
    [N - 2]: it holds the interior cells only, the two boundary cells of
    [arr] are in no snapshot.  Every snapshot of a completed 2D run is an
    [N x N] grid, [N*N] values row-major, and from snapshot 1 on all of
    them, at masked positions too, are the values the solver returned. *)
Theorem C9_snapshot_sizes
    (cgs : dia_matrix -> vec -> vec * Z)
    (N : Z) (left_bc right_bc : Q) (t_end : Z) (arr : vec)
    (r : Q) (N2 : Z) (mask : nat -> nat -> bool) (steps : Z) :
  length arr = Z.to_nat N ->
  (forall traj k,
     run_1d N left_bc right_bc t_end arr = Ok (traj, k) ->
     forall i, (i < length traj)%nat ->
       length (nth i traj []) = Z.to_nat (N - 2)) /\
  (forall traj k,
     run_2d cgs r N2 mask steps = Ok (traj, k) ->
     (forall i, (i < length traj)%nat ->
        length (nth i traj []) = Z.to_nat N2 /\
        (forall j, (j < Z.to_nat N2)%nat ->
           length (nth j (nth i traj []) []) = Z.to_nat N2) /\
        length (concat (nth i traj [])) = (Z.to_nat N2 * Z.to_nat N2)%nat) /\
     exists A M,
       assemble_A2 r N2 = Ok A /\ assemble_M2 r N2 = Ok M /\
       forall t, (t < k)%nat ->
         exists b,
           mat_vec M (concat (nth t traj [])) = Ok b /\
           concat (nth (S t) traj []) = fst (cgs A b)) /\
  ((4 <= N)%Z -> (1 <= t_end)%Z ->
     exists traj k, run_1d N left_bc right_bc t_end arr = Ok (traj, k)) /\
  ((forall A b, length (fst (cgs A b)) = length b) ->
   (2 <= N2)%Z -> (1 <= steps)%Z ->
     exists traj k, run_2d cgs r N2 mask steps = Ok (traj, k)).
Proof.
  intros Harr. split; [|split; [|split]].
  - intros traj k Hrun i Hi.
    apply run_1d_spec in Hrun; [|exact Harr].
    destruct Hrun as [_ [_ [_ [Hrows _]]]].
    apply Hrows. exact Hi.
  - intros traj k Hrun. split.
    + intros i Hi.
      destruct (run_2d_frames _ _ _ _ _ _ _ Hrun i Hi) as [v [-> Hv]].
      split; [apply chunks_length|].
      split; [intros j Hj; apply chunks_rows; assumption|].
      rewrite concat_chunks by exact Hv. exact Hv.
    + apply run_2d_spec in Hrun.
      destruct Hrun as [HN [_ [_ [_ [A [M [HA [HM Hstep]]]]]]]].
      exists A, M. split; [exact HA|]. split; [exact HM|].
      intros t Ht. destruct (Hstep t Ht) as [b [Hb Hnext]].
      exists b. split; [exact Hb|].
      apply reshape_inv in Hnext; [|exact HN].
      destruct Hnext as [Hl ->]. apply concat_chunks. exact Hl.
  - intros HN HT. apply run_1d_completes; assumption.
  - intros Hcgs HN HT. apply run_2d_completes; assumption.
Qed.

Lemma C9_witness :
  length [10; 0; 100; 0; 10] = Z.to_nat 5 /\
  (forall traj k,
     run_1d 5 10 10 3 [10; 0; 100; 0; 10] = Ok (traj, k) ->
     forall i, (i < length traj)%nat ->
       length (nth i traj []) = Z.to_nat (5 - 2)) /\
  (forall traj k,
     run_2d cgs_exact (1 # 2) 3 mask_centre 3 = Ok (traj, k) ->
     (forall i, (i < length traj)%nat ->
        length (nth i traj []) = Z.to_nat 3 /\
        (forall j, (j < Z.to_nat 3)%nat ->
           length (nth j (nth i traj []) []) = Z.to_nat 3) /\
        length (concat (nth i traj [])) = (Z.to_nat 3 * Z.to_nat 3)%nat) /\
     exists A M,
       assemble_A2 (1 # 2) 3 = Ok A /\ assemble_M2 (1 # 2) 3 = Ok M /\
       forall t, (t < k)%nat ->
         exists b,
           mat_vec M (concat (nth t traj [])) = Ok b /\
           concat (nth (S t) traj []) = fst (cgs_exact A b)) /\
  ((4 <= 5)%Z -> (1 <= 3)%Z ->
     exists traj k, run_1d 5 10 10 3 [10; 0; 100; 0; 10] = Ok (traj, k)) /\
  ((forall A b, length (fst (cgs_exact A b)) = length b) ->
   (2 <= 3)%Z -> (1 <= 3)%Z ->
     exists traj k, run_2d cgs_exact (1 # 2) 3 mask_centre 3 = Ok (traj, k)).
Proof.
  split; [reflexivity|].
  apply (C9_snapshot_sizes cgs_exact 5 10 10 3 [10; 0; 100; 0; 10]
           (1 # 2) 3 mask_centre 3).
  reflexivity.
Defined.

(** C10.  A completed run with step count [T] ([t_end] in 1D, [steps] in
    2D) called the solver exactly [T - 1] times and recorded exactly [T]
    snapshots.  Snapshot 0 is the initial field (the interior
    [arr[1:-1]] in 1D, the full [N x N] grid in 2D).  Call number
    [i + 1] was given the implicit matrix [A] and the right-hand side
    built from snapshot [i] (with [B] and the two boundary slots in 1D,
    [M @ snapshot] in 2D), and snapshot [i + 1] is the vector it
    returned.  This holds for every solver that returns vectors of the
    length of the right-hand side; when the 1D solver returns
    solutions, snapshot [i + 1] solves that system, and with [spsolve]
    on data of magnitude at most [2^900] it does so to within [10^-9]
    of the size of the right-hand side (exactly, in exact arithmetic).
    [run_1d] and [run_2d] are these runs with the calls counted, and
    such runs exist: a 1D run with [spsolve] completes for [N >= 4] and
    [T >= 1], a 2D run for [N >= 2] and [T >= 1]. *)
Theorem C10_trajectory_shape
    (solver : dia_matrix -> vec -> result vec)
    (cgs : dia_matrix -> vec -> vec * Z)
    (N : Z) (left_bc right_bc : Q) (t_end : Z) (arr : vec)
    (r : Q) (N2 : Z) (mask : nat -> nat -> bool) (steps : Z) :
  length arr = Z.to_nat N ->
  (forall A b x, solver A b = Ok x -> length x = length b) ->
  (forall traj calls,
     run_1d_calls solver N left_bc right_bc t_end arr = Ok (traj, calls) ->
     Z.of_nat (length calls) = (t_end - 1)%Z /\
     Z.of_nat (length traj) = t_end /\
     nth 0 traj [] = py_slice arr 1 (-1) /\
     exists A B,
       assemble_A1 N = Ok A /\ assemble_B1 N = Ok B /\
       (forall i, (i < length calls)%nat ->
          call_1d solver A B left_bc right_bc (nth i traj []) (nth (S i) traj [])
                  (nth i calls no_call)) /\
       ((forall b x, solver A b = Ok x -> is_solution A x b) ->
        forall i, (i < length calls)%nat ->
          is_solution A (nth (S i) traj []) (call_rhs (nth i calls no_call)))) /\
  (forall traj calls,
     run_2d_calls cgs r N2 mask steps = Ok (traj, calls) ->
     Z.of_nat (length calls) = (steps - 1)%Z /\
     Z.of_nat (length traj) = steps /\
     (exists v0, initial_values N2 mask = Ok v0 /\
                 length v0 = (Z.to_nat N2 * Z.to_nat N2)%nat /\
                 reshape N2 v0 = Ok (nth 0 traj [])) /\
     exists A M,
       assemble_A2 r N2 = Ok A /\ assemble_M2 r N2 = Ok M /\
       forall i, (i < length calls)%nat ->
         call_2d cgs A M N2 (nth i traj []) (nth (S i) traj [])
                 (nth i calls no_call)) /\
  ((forall j, Qabs (nth j arr 0) <= 2 ^ 900) ->
   Qabs left_bc <= 2 ^ 900 -> Qabs right_bc <= 2 ^ 900 ->
   forall traj calls,
     run_1d_calls spsolve N left_bc right_bc t_end arr = Ok (traj, calls) ->
     forall i, (i < length calls)%nat ->
       call_result (nth i calls no_call) = nth (S i) traj [] /\
       solves_within (1 # 10 ^ 9) (2 ^ (-1000))
         (call_matrix (nth i calls no_call))
         (call_result (nth i calls no_call))
         (call_rhs (nth i calls no_call))) /\
  run_1d N left_bc right_bc t_end arr =
    (p <- run_1d_calls spsolve N left_bc right_bc t_end arr ;;
     Ok (fst p, length (snd p))) /\
  run_2d cgs r N2 mask steps =
    (p <- run_2d_calls cgs r N2 mask steps ;; Ok (fst p, length (snd p))) /\
  ((4 <= N)%Z -> (1 <= t_end)%Z ->
     exists traj calls,
       run_1d_calls spsolve N left_bc right_bc t_end arr = Ok (traj, calls)) /\
  ((forall A b, length b = dia_shape A -> length (fst (cgs A b)) = length b) ->
   (2 <= N2)%Z -> (1 <= steps)%Z ->
     exists traj calls, run_2d_calls cgs r N2 mask steps = Ok (traj, calls)).
Proof.
  intros Harr Hsolver. split; [|split; [|split; [|split; [|split; [|split]]]]].
  - intros traj calls Hrun.
    apply (run_1d_calls_completed solver Hsolver) in Hrun; [|exact Harr].
    destruct Hrun as [HN [HT [Hk [Hlen [H0 [_ Hcalls]]]]]].
    split; [lia|]. split; [lia|]. split; [exact H0|].
    exists (banded (N - 2) A1_bands), (banded (N - 2) B1_bands).
    split; [apply assemble_A1_closed; exact HN|].
    split; [apply assemble_B1_closed; exact HN|].
    split; [exact Hcalls|].
    intros Hexact i Hi.
    destruct (Hcalls i Hi) as [rhs [_ [Hsol ->]]]. cbn [call_rhs].
    apply Hexact. exact Hsol.
  - intros traj calls Hrun.
    apply run_2d_calls_completed in Hrun.
    destruct Hrun as [HN [HT [Hk [Hlen [H0 Hcalls]]]]].
    split; [lia|]. split; [lia|]. split.
    + exists (flat_map (mask_row mask (Z.to_nat N2)) (seq 0 (Z.to_nat N2))).
      split; [apply initial_values_ok; lia|].
      split; [apply initial_values_length|].
      rewrite H0, <- initial_frame.
      apply reshape_ok; [lia | apply initial_values_length].
    + exists (banded (N2 * N2) (A2_bands r N2)), (banded (N2 * N2) (M2_bands r N2)).
      split; [apply assemble_A2_closed; lia|].
      split; [apply assemble_M2_closed; lia|]. exact Hcalls.
  - intros _ _ _ traj calls Hrun i Hi.
    apply (run_1d_calls_completed spsolve spsolve_same_length) in Hrun;
      [|exact Harr].
    destruct Hrun as [HN [_ [_ [_ [_ [_ Hcalls]]]]]].
    destruct (Hcalls i Hi) as [rhs [Hrhs [Hsol ->]]].
    cbn [call_matrix call_rhs call_result]. split; [reflexivity|].
    apply spsolve_within; [apply A1_dominant | exact Hsol].
  - apply run_1d_forget.
  - apply run_2d_forget.
  - intros HN HT.
    apply (run_1d_calls_completes spsolve spsolve_same_length); try assumption.
    intros b Hb. apply spsolve_total. exact Hb.
  - intros Hcgs HN HT. apply run_2d_calls_completes; assumption.
Qed.

Lemma C10_witness :
  length [10; 0; 100; 0; 10] = Z.to_nat 5 /\
  (forall A b x, spsolve A b = Ok x -> length x = length b) /\
  (forall traj calls,
     run_1d_calls spsolve 5 10 10 3 [10; 0; 100; 0; 10] = Ok (traj, calls) ->
     Z.of_nat (length calls) = (3 - 1)%Z /\
     Z.of_nat (length traj) = 3%Z /\
     nth 0 traj [] = py_slice [10; 0; 100; 0; 10] 1 (-1) /\
     exists A B,
       assemble_A1 5 = Ok A /\ assemble_B1 5 = Ok B /\
       (forall i, (i < length calls)%nat ->
          call_1d spsolve A B 10 10 (nth i traj []) (nth (S i) traj [])
                  (nth i calls no_call)) /\
       ((forall b x, spsolve A b = Ok x -> is_solution A x b) ->
        forall i, (i < length calls)%nat ->
          is_solution A (nth (S i) traj []) (call_rhs (nth i calls no_call)))) /\
  (forall traj calls,
     run_2d_calls cgs_default (1 # 2) 3 mask_centre 3 = Ok (traj, calls) ->
     Z.of_nat (length calls) = (3 - 1)%Z /\
     Z.of_nat (length traj) = 3%Z /\
     (exists v0, initial_values 3 mask_centre = Ok v0 /\
                 length v0 = (Z.to_nat 3 * Z.to_nat 3)%nat /\
                 reshape 3 v0 = Ok (nth 0 traj [])) /\
     exists A M,
       assemble_A2 (1 # 2) 3 = Ok A /\ assemble_M2 (1 # 2) 3 = Ok M /\
       forall i, (i < length calls)%nat ->
         call_2d cgs_default A M 3 (nth i traj []) (nth (S i) traj [])
                 (nth i calls no_call)) /\
  ((forall j, Qabs (nth j [10; 0; 100; 0; 10] 0) <= 2 ^ 900) ->
   Qabs 10 <= 2 ^ 900 -> Qabs 10 <= 2 ^ 900 ->
   forall traj calls,
     run_1d_calls spsolve 5 10 10 3 [10; 0; 100; 0; 10] = Ok (traj, calls) ->
     forall i, (i < length calls)%nat ->
       call_result (nth i calls no_call) = nth (S i) traj [] /\
       solves_within (1 # 10 ^ 9) (2 ^ (-1000))
         (call_matrix (nth i calls no_call))
         (call_result (nth i calls no_call))
         (call_rhs (nth i calls no_call))) /\
  run_1d 5 10 10 3 [10; 0; 100; 0; 10] =
    (p <- run_1d_calls spsolve 5 10 10 3 [10; 0; 100; 0; 10] ;;
     Ok (fst p, length (snd p))) /\
  run_2d cgs_default (1 # 2) 3 mask_centre 3 =
    (p <- run_2d_calls cgs_default (1 # 2) 3 mask_centre 3 ;;
     Ok (fst p, length (snd p))) /\
  ((4 <= 5)%Z -> (1 <= 3)%Z ->
     exists traj calls,
       run_1d_calls spsolve 5 10 10 3 [10; 0; 100; 0; 10] = Ok (traj, calls)) /\
  ((forall A b, length b = dia_shape A ->
      length (fst (cgs_default A b)) = length b) ->
   (2 <= 3)%Z -> (1 <= 3)%Z ->
     exists traj calls,
       run_2d_calls cgs_default (1 # 2) 3 mask_centre 3 = Ok (traj, calls)).
Proof.
  split; [reflexivity|]. split; [exact spsolve_same_length|].
  apply (C10_trajectory_shape spsolve cgs_default 5 10 10 3 [10; 0; 100; 0; 10]
           (1 # 2) 3 mask_centre 3);
    [reflexivity | exact spsolve_same_length].
Defined.

(** * Further properties of the notebooks *)

(** ** 1D: the maximum principle and the steady state of the scheme *)

Lemma nth_padded (l r : Q) (u : vec) (k : nat) :
  nth k (padded l r u) 0 =
  if (k =? 0)%nat then l
  else if (k <=? length u)%nat then nth (k - 1) u 0
  else if (k =? S (length u))%nat then r else 0.
Proof.
  unfold padded. destruct k as [|k]; [reflexivity|].
  cbn [nth Nat.eqb]. rewrite Nat.sub_succ, Nat.sub_0_r.
  destruct (Nat.leb_spec (S k) (length u)).
  - apply app_nth1. lia.
  - rewrite app_nth2 by lia.
    destruct (Nat.eqb_spec k (length u)) as [E|E].
    + replace (k - length u)%nat with 0%nat by lia. reflexivity.
    + destruct (k - length u)%nat as [|[|d]] eqn:Ed; try lia; reflexivity.
Qed.

(** An index where [x] is largest. *)
Lemma argmax_val (n : nat) (x : nat -> Q) :
  (0 < n)%nat ->
  exists k, (k < n)%nat /\ forall i, (i < n)%nat -> x i <= x k.
Proof.
  induction n as [|n IH]; intros Hn; [lia|].
  destruct n as [|n].
  - exists O. split; [lia|]. intros i Hi. replace i with O by lia. apply Qle_refl.
  - destruct IH as [k [Hk Hmax]]; [lia|].
    destruct (Qlt_le_dec (x k) (x (S n))) as [Hlt|Hle].
    + exists (S n). split; [lia|]. intros i Hi.
      destruct (Nat.eq_dec i (S n)) as [->|Hne]; [apply Qle_refl|].
      eapply Qle_trans; [apply Hmax; lia | apply Qlt_le_weak; exact Hlt].
    + exists k. split; [lia|]. intros i Hi.
      destruct (Nat.eq_dec i (S n)) as [->|Hne]; [exact Hle | apply Hmax; lia].
Qed.

Lemma padded_eq (l r : Q) (u v : vec) :
  length u = length v ->
  (forall i, (i < length u)%nat -> nth i u 0 == nth i v 0) ->
  forall j, nth j (padded l r u) 0 == nth j (padded l r v) 0.
Proof.
  intros Hlen Huv j. rewrite !nth_padded, <- Hlen.
  destruct (Nat.eqb_spec j 0); [reflexivity|].
  destruct (Nat.leb_spec j (length u)); [apply Huv; lia|].
  destruct (Nat.eqb_spec j (S (length u))); reflexivity.
Qed.

(** The rows of [A] sum to [4] less one for each neighbour in the row. *)
Lemma A1_row_sum (n : Z) (i : nat) :
  (i < Z.to_nat n)%nat ->
  sumn (Z.to_nat n) (fun j => entry (banded n A1_bands) i j) ==
  4 - (if (1 <=? i)%nat then 1 else 0)
    - (if (i + 1 <? Z.to_nat n)%nat then 1 else 0).
Proof.
  intros Hi.
  rewrite (sumn_ext _ _ (fun j => entry (banded n A1_bands) i j * (fun _ => 1) j))
    by (intros j _; cbv beta; ring).
  rewrite A1_row by exact Hi. ring.
Qed.

(** Upper half of the maximum principle: at an index where [x] is
    largest, the row of [A x = b] bounds [x] by [b]. *)
Lemma A1_solution_le (n : Z) (x b : nat -> Q) (hi : Q) :
  solves (Z.to_nat n) (entry (banded n A1_bands)) x b ->
  (forall i, (i < Z.to_nat n)%nat ->
     b i <= hi * sumn (Z.to_nat n) (fun j => entry (banded n A1_bands) i j)) ->
  forall i, (i < Z.to_nat n)%nat -> x i <= hi.
Proof.
  intros Hs Hb i Hi.
  destruct (argmax_val (Z.to_nat n) x) as [k [Hk Hmax]]; [lia|].
  apply Qle_trans with (x k); [apply Hmax; exact Hi|].
  pose proof (Hs k Hk) as E. cbv beta in E. rewrite A1_row in E by exact Hk.
  pose proof (Hb k Hk) as Hbk. rewrite A1_row_sum in Hbk by exact Hk.
  destruct (Nat.leb_spec 1 k); destruct (Nat.ltb_spec (k + 1) (Z.to_nat n));
    try (pose proof (Hmax (k - 1)%nat ltac:(lia)));
    try (pose proof (Hmax (k + 1)%nat ltac:(lia))); lra.
Qed.

(** X2.  Discrete maximum principle of the 1D implicit matrix, for
    [N >= 3]: the rows of [A] sum to [4] less the number of neighbours
    in the row ([3] in the first and last row, [2] in between), and if
    [A x = b] with every [b[i]] between [lo] and [hi] times the sum of
    row [i], then every [x[i]] lies between [lo] and [hi].  The
    right-hand side of a pass, [u[i-1] + u[i+1]] with twice the boundary
    value at the two ends, is of this kind before rounding when the data
    lie in [[lo, hi]]. *)
Theorem X2_A1_maximum_principle (N : Z) :
  (3 <= N)%Z ->
  exists A : dia_matrix,
    assemble_A1 N = Ok A /\
    (forall i, (i < dia_shape A)%nat ->
       sumn (dia_shape A) (fun j => entry A i j) ==
       4 - (if (1 <=? i)%nat then 1 else 0)
         - (if (i + 1 <? dia_shape A)%nat then 1 else 0)) /\
    forall (x b : vec) (lo hi : Q),
      is_solution A x b ->
      (forall i, (i < length b)%nat ->
         lo * sumn (dia_shape A) (fun j => entry A i j) <= nth i b 0 /\
         nth i b 0 <= hi * sumn (dia_shape A) (fun j => entry A i j)) ->
      forall i, (i < length x)%nat -> lo <= nth i x 0 <= hi.
Proof.
  intros HN.
  exists (banded (N - 2) A1_bands).
  split; [apply assemble_A1_closed; lia|].
  cbn [banded dia_shape].
  split; [intros i Hi; apply A1_row_sum; exact Hi|].
  intros x b lo hi Hsol Hb i Hi.
  apply is_solution_solves in Hsol. destruct Hsol as [Hx [Hlb Hs]].
  cbn [banded dia_shape] in *.
  split.
  - assert (G : - nth i x 0 <= - lo); [|lra].
    apply (A1_solution_le (N - 2) (fun j => - nth j x 0) (fun j => - nth j b 0) (- lo));
      [| |lia].
    + intros k Hk. cbv beta.
      rewrite (sumn_ext _ _ (fun j => - (1) *
                 (entry (banded (N - 2) A1_bands) k j * nth j x 0)))
        by (intros j _; ring).
      rewrite sumn_scal, (Hs k Hk). ring.
    + intros k Hk. cbv beta. destruct (Hb k ltac:(lia)) as [Hlo _]. lra.
  - apply (A1_solution_le (N - 2) (fun j => nth j x 0) (fun j => nth j b 0) hi);
      [exact Hs | | lia].
    intros k Hk. apply (Hb k ltac:(lia)).
Qed.

Lemma X2_witness :
  (3 <= 5)%Z /\
  exists A : dia_matrix,
    assemble_A1 5 = Ok A /\
    (forall i, (i < dia_shape A)%nat ->
       sumn (dia_shape A) (fun j => entry A i j) ==
       4 - (if (1 <=? i)%nat then 1 else 0)
         - (if (i + 1 <? dia_shape A)%nat then 1 else 0)) /\
    forall (x b : vec) (lo hi : Q),
      is_solution A x b ->
      (forall i, (i < length b)%nat ->
         lo * sumn (dia_shape A) (fun j => entry A i j) <= nth i b 0 /\
         nth i b 0 <= hi * sumn (dia_shape A) (fun j => entry A i j)) ->
      forall i, (i < length x)%nat -> lo <= nth i x 0 <= hi.
Proof.
  split; [lia|]. apply (X2_A1_maximum_principle 5). lia.
Defined.

Lemma nth_padded_linear (l r : Q) (n j : nat) :
  (j <= S n)%nat ->
  nth j (padded l r (linear_profile l r n)) 0 ==
  l + inject_Z (Z.of_nat j) * (r - l) / inject_Z (Z.of_nat (S n)).
Proof.
  intros Hj.
  assert (Hd : ~ inject_Z (Z.of_nat (S n)) == 0).
  { unfold Qeq, inject_Z; simpl. lia. }
  rewrite nth_padded. unfold linear_profile. rewrite length_map, length_seq.
  destruct (Nat.eqb_spec j 0) as [->|E0].
  - simpl inject_Z. field. exact Hd.
  - destruct (Nat.leb_spec j n).
    + rewrite nth_map_seq by lia.
      replace (S (j - 1)) with j by lia. reflexivity.
    + destruct (Nat.eqb_spec j (S n)) as [->|]; [|lia].
      field. exact Hd.
Qed.

(** A harmonic field is affine in the index. *)
Lemma harmonic_affine (U : vec) (n : nat) :
  harmonic U n ->
  forall j, (j <= n)%nat ->
    nth j U 0 == nth 0 U 0 + inject_Z (Z.of_nat j) * (nth 1 U 0 - nth 0 U 0) /\
    nth (S j) U 0 ==
      nth 0 U 0 + inject_Z (Z.of_nat (S j)) * (nth 1 U 0 - nth 0 U 0).
Proof.
  intros Hh. induction j as [|j IH]; intros Hj.
  - split.
    + change (inject_Z (Z.of_nat 0)) with 0. ring.
    + change (inject_Z (Z.of_nat 1)) with 1. ring.
  - destruct (IH ltac:(lia)) as [E0 E1]. split; [exact E1|].
    pose proof (Hh j ltac:(lia)) as H.
    rewrite !Nat2Z.inj_succ in *. unfold Z.succ in *.
    rewrite !inject_Z_plus in *. change (inject_Z 1) with 1 in *.
    set (c := nth 1 U 0 - nth 0 U 0) in *.
    set (J := inject_Z (Z.of_nat j)) in *.
    assert (E2 : nth (S (S j)) U 0 == 2 * nth (S j) U 0 - nth j U 0) by lra.
    rewrite E2, E1, E0. ring.
Qed.

(** Between its two boundary values a harmonic field is the straight
    line. *)
Lemma harmonic_is_linear (l r : Q) (u : vec) (i : nat) :
  harmonic (padded l r u) (length u) -> (i < length u)%nat ->
  nth i u 0 == nth i (linear_profile l r (length u)) 0.
Proof.
  intros Hh Hi.
  set (n := length u) in *.
  pose proof (harmonic_affine _ _ Hh) as Ha.
  assert (H0 : nth 0 (padded l r u) 0 = l) by reflexivity.
  assert (Hend : nth (S n) (padded l r u) 0 = r).
  { rewrite nth_padded. fold n.
    destruct (Nat.eqb_spec (S n) 0); [lia|].
    destruct (Nat.leb_spec (S n) n); [lia|].
    rewrite Nat.eqb_refl. reflexivity. }
  assert (Hi1 : nth (S i) (padded l r u) 0 = nth i u 0).
  { rewrite nth_padded. fold n.
    destruct (Nat.eqb_spec (S i) 0); [lia|].
    destruct (Nat.leb_spec (S i) n); [|lia].
    f_equal. lia. }
  destruct (Ha n (Nat.le_refl n)) as [_ En].
  destruct (Ha i ltac:(lia)) as [_ Ei].
  rewrite H0, Hend in En. rewrite H0, Hi1 in Ei.
  unfold linear_profile. rewrite nth_map_seq by exact Hi.
  assert (Hd : ~ inject_Z (Z.of_nat (S n)) == 0).
  { unfold Qeq, inject_Z; simpl. lia. }
  set (c := nth 1 (padded l r u) 0 - l) in *.
  set (D := inject_Z (Z.of_nat (S n))) in *.
  assert (Ec : c == (r - l) / D).
  { assert (E' : r - l == D * c) by lra.
    rewrite E'. field. exact Hd. }
  rewrite Ei, Ec. field. exact Hd.
Qed.

Lemma B1_entry_row (n : Z) (x : nat -> Q) (i : nat) :
  (i < Z.to_nat n)%nat ->
  sumn (Z.to_nat n) (fun j => entry (banded n B1_bands) i j * x j) ==
  (if (1 <=? i)%nat then x (i - 1)%nat else 0)
  + (if (i + 1 <? Z.to_nat n)%nat then x (i + 1)%nat else 0).
Proof.
  intros Hi.
  rewrite (sumn_ext _ _ (fun j => tridiagonal 0 1 i j * x j))
    by (intros j Hj; rewrite entry_B1 by assumption; reflexivity).
  rewrite tridiagonal_row by exact Hi.
  destruct (1 <=? i)%nat; destruct (i + 1 <? Z.to_nat n)%nat; ring.
Qed.

(** Row [i] of the steady-state equation [A x = B x + 2 bc] says that
    cell [i + 1] of the rod is the mean of its two neighbours. *)
Lemma rows_1d_steady (n : Z) (l r : Q) (x : vec) (i : nat) :
  length x = Z.to_nat n -> (2 <= Z.to_nat n)%nat -> (i < Z.to_nat n)%nat ->
  (sumn (Z.to_nat n) (fun j => entry (banded n A1_bands) i j * nth j x 0) ==
     scheme_rhs (banded n B1_bands) l r (fun j => nth j x 0) (Z.to_nat n) i
   <-> 2 * nth (S i) (padded l r x) 0 ==
       nth i (padded l r x) 0 + nth (S (S i)) (padded l r x) 0).
Proof.
  intros Hx H2 Hi. unfold scheme_rhs.
  rewrite A1_row, B1_entry_row by exact Hi.
  rewrite !nth_padded, Hx.
  replace (S i - 1)%nat with i by lia.
  replace (S (S i) - 1)%nat with (i + 1)%nat by lia.
  destruct (Nat.eqb_spec (S i) 0); [lia|].
  destruct (Nat.eqb_spec (S (S i)) 0); [lia|].
  destruct (Nat.leb_spec (S i) (Z.to_nat n)); [|lia].
  destruct (Nat.eqb_spec i 0) as [E0|E0];
    destruct (Nat.eqb_spec i (Z.to_nat n - 1)) as [El|El];
    destruct (Nat.leb_spec 1 i); destruct (Nat.ltb_spec (i + 1) (Z.to_nat n));
    destruct (Nat.leb_spec i (Z.to_nat n));
    destruct (Nat.leb_spec (S (S i)) (Z.to_nat n));
    destruct (Nat.eqb_spec (S (S i)) (S (Z.to_nat n)));
    try lia; split; intros E; lra.
Qed.

(** X4.  The steady state of the 1D scheme is the straight line between
    the two boundary values.  For [N >= 4] and a field [x] of [N - 2]
    cells, [A x] equals [B x] plus twice the boundary value in the two
    end rows exactly when every cell of the rod is the mean of its two
    neighbours, and exactly when
    [x[i] = left_bc + (i + 1) (right_bc - left_bc) / (N - 1)]. *)
Theorem X4_steady_state_is_linear (N : Z) (left_bc right_bc : Q) (x : vec) :
  (4 <= N)%Z -> length x = Z.to_nat (N - 2) ->
  exists A B : dia_matrix,
    assemble_A1 N = Ok A /\ assemble_B1 N = Ok B /\
    ((forall i, (i < length x)%nat ->
        sumn (length x) (fun j => entry A i j * nth j x 0) ==
        scheme_rhs B left_bc right_bc (fun j => nth j x 0) (length x) i)
     <-> harmonic (padded left_bc right_bc x) (length x)) /\
    (harmonic (padded left_bc right_bc x) (length x)
     <-> forall i, (i < length x)%nat ->
           nth i x 0 == nth i (linear_profile left_bc right_bc (length x)) 0).
Proof.
  intros HN Hx.
  exists (banded (N - 2) A1_bands), (banded (N - 2) B1_bands).
  split; [apply assemble_A1_closed; lia|].
  split; [apply assemble_B1_closed; lia|].
  split.
  - split.
    + intros H i Hi. rewrite Hx in H, Hi.
      apply (rows_1d_steady (N - 2)); try assumption; try lia.
      apply H. exact Hi.
    + intros H i Hi. rewrite Hx in Hi |- *.
      apply (rows_1d_steady (N - 2)); try assumption; try lia.
      apply H. lia.
  - split.
    + intros H i Hi. apply harmonic_is_linear; assumption.
    + intros H i Hi.
      set (n := length x) in *.
      assert (E : forall j, nth j (padded left_bc right_bc x) 0 ==
                            nth j (padded left_bc right_bc
                                     (linear_profile left_bc right_bc n)) 0).
      { apply padded_eq.
        - unfold linear_profile. rewrite length_map, length_seq. reflexivity.
        - exact H. }
      rewrite !E. rewrite !nth_padded_linear by lia.
      assert (Hd : ~ inject_Z (Z.of_nat (S n)) == 0).
      { unfold Qeq, inject_Z; simpl. lia. }
      set (D := inject_Z (Z.of_nat (S n))) in *.
      rewrite !Nat2Z.inj_succ. unfold Z.succ. rewrite !inject_Z_plus.
      field. exact Hd.
Qed.

Lemma X4_witness :
  (4 <= 5)%Z /\ length [1; 2; 3] = Z.to_nat (5 - 2) /\
  exists A B : dia_matrix,
    assemble_A1 5 = Ok A /\ assemble_B1 5 = Ok B /\
    ((forall i, (i < 3)%nat ->
        sumn 3 (fun j => entry A i j * nth j [1; 2; 3] 0) ==
        scheme_rhs B 0 4 (fun j => nth j [1; 2; 3] 0) 3 i)
     <-> harmonic (padded 0 4 [1; 2; 3]) 3) /\
    (harmonic (padded 0 4 [1; 2; 3]) 3
     <-> forall i, (i < 3)%nat ->
           nth i [1; 2; 3] 0 == nth i (linear_profile 0 4 3) 0).
Proof.
  split; [lia|]. split; [reflexivity|].
  apply (X4_steady_state_is_linear 5 0 4 [1; 2; 3]); [lia | reflexivity].
Defined.

(** ** 1D: the initial field and the products *)

Lemma py_slice_padded (a b : Q) (u : vec) : py_slice (padded a b u) 1 (-1) = u.
Proof.
  unfold py_slice, slice_bound, padded.
  change (1 <? 0)%Z with false. change (-1 <? 0)%Z with true. cbv iota.
  change (Z.to_nat 1) with 1%nat.
  cbn [length]. rewrite length_app. cbn [length].
  replace (Nat.min 1 (S (length u + 1))) with 1%nat by lia.
  replace (Z.to_nat (Z.max (-1 + Z.of_nat (S (length u + 1))) 0) - 1)%nat
    with (length u) by lia.
  cbn [skipn]. rewrite firstn_app, Nat.sub_diag, firstn_all. cbn [firstn].
  apply app_nil_r.
Qed.

(** X6.  The 1D run never reads the two edge cells of [arr]: two fields
    with the same interior give the same result, whatever [arr[0]] and
    [arr[-1]] hold; the boundary values that enter the scheme are
    [left_bc] and [right_bc]. *)
Theorem X6_run_1d_ignores_edge_cells
    (N : Z) (left_bc right_bc : Q) (t_end : Z) (a b a' b' : Q) (u : vec) :
  run_1d N left_bc right_bc t_end (padded a b u) =
  run_1d N left_bc right_bc t_end (padded a' b' u).
Proof.
  unfold run_1d. rewrite !py_slice_padded. reflexivity.
Qed.

Lemma nth_slice_fill_zeros (n : nat) (a b : Z) (c : Q) (j : nat) :
  (0 <= a)%Z -> (0 <= b)%Z -> (j < n)%nat ->
  nth j (py_slice_fill (repeat 0 n) a b c) 0 =
  if ((a <=? Z.of_nat j) && (Z.of_nat j <? b))%Z then c else 0.
Proof.
  intros Ha Hb Hj. unfold py_slice_fill, slice_bound. rewrite repeat_length.
  destruct (Z.ltb_spec a 0); [lia|]. destruct (Z.ltb_spec b 0); [lia|].
  set (lo := Nat.min (Z.to_nat a) n). set (hi := Nat.min (Z.to_nat b) n).
  rewrite firstn_repeat_le by lia.
  assert (Hsk : skipn (lo + (hi - lo)) (repeat 0 n) = repeat 0 (n - (lo + (hi - lo)))).
  { replace n with ((lo + (hi - lo)) + (n - (lo + (hi - lo))))%nat at 1 by lia.
    rewrite repeat_app, skipn_app, repeat_length, Nat.sub_diag.
    rewrite skipn_all2 by (rewrite repeat_length; lia). reflexivity. }
  rewrite Hsk.
  change (repeat 0 lo ++ repeat c (hi - lo) ++ repeat 0 (n - (lo + (hi - lo))))
    with (band_const lo (hi - lo) (n - (lo + (hi - lo))) c).
  rewrite nth_band_const.
  destruct (Nat.leb_spec lo j); destruct (Nat.ltb_spec j (lo + (hi - lo)));
    destruct (Z.leb_spec a (Z.of_nat j)); destruct (Z.ltb_spec (Z.of_nat j) b);
    simpl; try reflexivity; lia.
Qed.

(** X7.  For [N >= 2] the initial 1D field has [N] cells: [left_bc] at
    cell [0], [right_bc] at cell [N - 1], and in between [100] on the
    cells [4N//10 <= j < 6N//10] and [0] elsewhere; the assignments of the
    boundary values come last and win over the hot block. *)
Theorem X7_initial_config_profile (N : Z) (left_bc right_bc : Q) :
  (2 <= N)%Z ->
  exists arr,
    initial_config N left_bc right_bc = Ok arr /\
    length arr = Z.to_nat N /\
    forall j, (j < Z.to_nat N)%nat ->
      nth j arr 0 =
      if (j =? 0)%nat then left_bc
      else if (j =? Z.to_nat N - 1)%nat then right_bc
      else if ((4 * N / 10 <=? Z.of_nat j) && (Z.of_nat j <? 6 * N / 10))%Z
           then 100 else 0.
Proof.
  intros HN. unfold initial_config, np_zeros.
  destruct (Z.ltb_spec N 0); [lia|]. cbn [bind].
  set (arr := py_slice_fill (repeat 0 (Z.to_nat N)) (4 * N / 10) (6 * N / 10) 100).
  assert (Hlen : length arr = Z.to_nat N).
  { unfold arr. rewrite py_slice_fill_length, repeat_length. reflexivity. }
  rewrite py_set_nonneg by lia. cbn [bind].
  rewrite py_set_neg by (rewrite set_nth_length; lia).
  rewrite set_nth_length, Hlen. change (Z.to_nat 0) with 0%nat.
  replace (Z.to_nat (-1 + Z.of_nat (Z.to_nat N))) with (Z.to_nat N - 1)%nat by lia.
  eexists. split; [reflexivity|].
  split; [rewrite !set_nth_length; exact Hlen|].
  intros j Hj.
  rewrite !nth_set_nth by (rewrite ?set_nth_length; lia).
  destruct (Nat.eqb_spec j 0) as [->|E0].
  - destruct (Nat.eqb_spec 0 (Z.to_nat N - 1)); [lia | reflexivity].
  - destruct (Nat.eqb_spec j (Z.to_nat N - 1)); [reflexivity|].
    unfold arr. apply nth_slice_fill_zeros; try lia.
    + apply Z.div_pos; lia.
    + apply Z.div_pos; lia.
Qed.

Lemma X7_witness :
  (2 <= 10)%Z /\
  exists arr,
    initial_config 10 10 20 = Ok arr /\
    length arr = Z.to_nat 10 /\
    forall j, (j < Z.to_nat 10)%nat ->
      nth j arr 0 =
      if (j =? 0)%nat then 10
      else if (j =? Z.to_nat 10 - 1)%nat then 20
      else if ((4 * 10 / 10 <=? Z.of_nat j) && (Z.of_nat j <? 6 * 10 / 10))%Z
           then 100 else 0.
Proof.
  split; [lia|]. apply (X7_initial_config_profile 10 10 20). lia.
Defined.

(** X8.  Small sizes of the initial 1D field: a negative [N] raises
    [ValueError] in [np.zeros], [N = 0] raises [IndexError] at
    [arr[0] = left_bc], and for [N = 1] the single cell ends up holding
    [right_bc], which is assigned last. *)
Theorem X8_initial_config_small (N : Z) (left_bc right_bc : Q) :
  ((N < 0)%Z -> initial_config N left_bc right_bc = Raise ValueError) /\
  (N = 0%Z -> initial_config N left_bc right_bc = Raise IndexError) /\
  (N = 1%Z -> initial_config N left_bc right_bc = Ok [right_bc]).
Proof.
  split; [|split].
  - intros HN. unfold initial_config, np_zeros.
    destruct (Z.ltb_spec N 0); [reflexivity | lia].
  - intros ->. reflexivity.
  - intros ->. reflexivity.
Qed.

(** X9.  For [N >= 3] and [u] of [N - 2] cells the two products of
    the 1D cells are the three-point stencils
    [(A @ u)[i] = 4 u[i] - u[i-1] - u[i+1]] and
    [(B @ u)[i] = u[i-1] + u[i+1]], with the neighbours missing at the two
    ends counted as zero. *)
Theorem X9_matvec_1d_stencils (N : Z) (u : vec) :
  (3 <= N)%Z -> length u = Z.to_nat (N - 2) ->
  exists (A B : dia_matrix) (ya yb : vec),
    assemble_A1 N = Ok A /\ assemble_B1 N = Ok B /\
    mat_vec A u = Ok ya /\ mat_vec B u = Ok yb /\
    length ya = length u /\ length yb = length u /\
    forall i, (i < length u)%nat ->
      nth i ya 0 == 4 * nth (S i) (padded 0 0 u) 0
                    - nth i (padded 0 0 u) 0 - nth (S (S i)) (padded 0 0 u) 0 /\
      nth i yb 0 == nth i (padded 0 0 u) 0 + nth (S (S i)) (padded 0 0 u) 0.
Proof.
  intros HN Hu.
  set (A := banded (N - 2) A1_bands). set (B := banded (N - 2) B1_bands).
  exists A, B, (map (row_dot A u) (seq 0 (dia_shape A))),
         (map (row_dot B u) (seq 0 (dia_shape B))).
  split; [apply assemble_A1_closed; lia|].
  split; [apply assemble_B1_closed; lia|].
  split; [apply mat_vec_ok; exact Hu|].
  split; [apply mat_vec_ok; exact Hu|].
  split; [rewrite length_map, length_seq; symmetry; exact Hu|].
  split; [rewrite length_map, length_seq; symmetry; exact Hu|].
  intros i Hi.
  assert (Hi' : (i < Z.to_nat (N - 2))%nat) by lia.
  rewrite !nth_map_seq by exact Hi'.
  assert (EA : row_dot A u i ==
               4 * nth i u 0 - (if (1 <=? i)%nat then nth (i - 1) u 0 else 0)
               - (if (i + 1 <? Z.to_nat (N - 2))%nat then nth (i + 1) u 0 else 0)).
  { unfold A. rewrite row_dot_entries by exact Hi'. cbn [banded dia_shape].
    apply (A1_row (N - 2) (fun j => nth j u 0) i Hi'). }
  assert (EB : row_dot B u i ==
               (if (1 <=? i)%nat then nth (i - 1) u 0 else 0) +
               (if (i + 1 <? Z.to_nat (N - 2))%nat then nth (i + 1) u 0 else 0)).
  { unfold B. apply B1_row. exact Hi'. }
  rewrite EA, EB. clear EA EB.
  rewrite !nth_padded, Hu.
  replace (S i - 1)%nat with i by lia.
  replace (S (S i) - 1)%nat with (i + 1)%nat by lia.
  destruct (Nat.eqb_spec (S i) 0); [lia|].
  destruct (Nat.eqb_spec (S (S i)) 0); [lia|].
  destruct (Nat.leb_spec (S i) (Z.to_nat (N - 2))); [|lia].
  destruct (Nat.eqb_spec i 0) as [->|E0].
  - change (1 <=? 0)%nat with false. cbv iota.
    destruct (Nat.ltb_spec (0 + 1) (Z.to_nat (N - 2)));
      destruct (Nat.leb_spec 2 (Z.to_nat (N - 2))); try lia.
    + split; ring.
    + destruct (Nat.eqb_spec 2 (S (Z.to_nat (N - 2)))); split; ring.
  - destruct (Nat.leb_spec i (Z.to_nat (N - 2))); [|lia].
    destruct (Nat.leb_spec 1 i); [|lia].
    destruct (Nat.ltb_spec (i + 1) (Z.to_nat (N - 2)));
      destruct (Nat.leb_spec (S (S i)) (Z.to_nat (N - 2))); try lia.
    + split; ring.
    + destruct (Nat.eqb_spec (S (S i)) (S (Z.to_nat (N - 2)))); split; ring.
Qed.

Lemma X9_witness :
  (3 <= 5)%Z /\ length [1; 2; 3] = Z.to_nat (5 - 2) /\
  exists (A B : dia_matrix) (ya yb : vec),
    assemble_A1 5 = Ok A /\ assemble_B1 5 = Ok B /\
    mat_vec A [1; 2; 3] = Ok ya /\ mat_vec B [1; 2; 3] = Ok yb /\
    length ya = length [1; 2; 3] /\ length yb = length [1; 2; 3] /\
    forall i, (i < 3)%nat ->
      nth i ya 0 == 4 * nth (S i) (padded 0 0 [1; 2; 3]) 0
                    - nth i (padded 0 0 [1; 2; 3]) 0
                    - nth (S (S i)) (padded 0 0 [1; 2; 3]) 0 /\
      nth i yb 0 == nth i (padded 0 0 [1; 2; 3]) 0
                    + nth (S (S i)) (padded 0 0 [1; 2; 3]) 0.
Proof.
  split; [lia|]. split; [reflexivity|].
  apply (X9_matvec_1d_stencils 5 [1; 2; 3]); [lia | reflexivity].
Defined.

(** ** 1D: how a run ends *)

Lemma py_range_cons (a b : Z) :
  (a < b)%Z -> py_range a b = a :: py_range (a + 1) b.
Proof.
  intros H. unfold py_range.
  replace (Z.to_nat (b - a)) with (S (Z.to_nat (b - (a + 1)))) by lia.
  rewrite <- cons_seq, <- seq_shift, map_cons, map_map.
  f_equal; [lia|]. apply map_ext. intros k. lia.
Qed.

(** X11.  How a 1D run ends, for a field of [N >= 3] cells: a negative
    [t_end] raises [ValueError] in [np.zeros], [t_end = 0] raises
    [IndexError] at [storage[0] = ...], [N = 3] with [t_end >= 2] raises
    [IndexError] at [interior_points[1]] in the first pass, [N = 3] with
    [t_end = 1] records the one-cell interior and solves nothing, and the
    run completes exactly when [t_end >= 1] and ([t_end = 1] or
    [N >= 4]). *)
Theorem X11_run_1d_outcomes (N : Z) (left_bc right_bc : Q) (t_end : Z) (arr : vec) :
  length arr = Z.to_nat N -> (3 <= N)%Z ->
  ((t_end < 0)%Z -> run_1d N left_bc right_bc t_end arr = Raise ValueError) /\
  (t_end = 0%Z -> run_1d N left_bc right_bc t_end arr = Raise IndexError) /\
  (N = 3%Z -> t_end = 1%Z ->
     run_1d N left_bc right_bc t_end arr = Ok ([py_slice arr 1 (-1)], 0%nat)) /\
  (N = 3%Z -> (2 <= t_end)%Z ->
     run_1d N left_bc right_bc t_end arr = Raise IndexError) /\
  is_ok (run_1d N left_bc right_bc t_end arr) =
    ((1 <=? t_end)%Z && ((t_end =? 1)%Z || (4 <=? N)%Z)).
Proof.
  intros Harr HN.
  assert (Hu0 : length (py_slice arr 1 (-1)) = Z.to_nat (N - 2)).
  { rewrite py_slice_interior_length. lia. }
  assert (Hneg : (t_end < 0)%Z -> run_1d N left_bc right_bc t_end arr = Raise ValueError).
  { intros HT. unfold run_1d.
    rewrite assemble_A1_closed, assemble_B1_closed by lia. cbn [bind].
    unfold np_zeros2. destruct (Z.ltb_spec t_end 0); [reflexivity | lia]. }
  assert (Hzero : t_end = 0%Z -> run_1d N left_bc right_bc t_end arr = Raise IndexError).
  { intros ->. unfold run_1d.
    rewrite assemble_A1_closed, assemble_B1_closed by lia. cbn [bind].
    unfold np_zeros2. change (0 <? 0)%Z with false.
    destruct (Z.ltb_spec (N - 2) 0); [lia|]. cbn [orb bind].
    reflexivity. }
  assert (Hone : N = 3%Z -> t_end = 1%Z ->
     run_1d N left_bc right_bc t_end arr = Ok ([py_slice arr 1 (-1)], 0%nat)).
  { intros -> ->. unfold run_1d.
    rewrite assemble_A1_closed, assemble_B1_closed by lia. cbn [bind].
    change (np_zeros2 1 (3 - 2)) with (Ok (A := list vec) [[0]]). cbn [bind].
    rewrite set_row_exact by (try exact Hu0; cbn [length]; lia).
    reflexivity. }
  assert (Hshort : N = 3%Z -> (2 <= t_end)%Z ->
     run_1d N left_bc right_bc t_end arr = Raise IndexError).
  { intros -> HT. unfold run_1d.
    rewrite assemble_A1_closed, assemble_B1_closed by lia. cbn [bind].
    unfold np_zeros2. destruct (Z.ltb_spec t_end 0); [lia|].
    change (3 - 2 <? 0)%Z with false. cbn [orb bind].
    rewrite set_row_exact by (try exact Hu0; rewrite repeat_length; lia).
    cbn [bind]. rewrite py_range_cons by lia. cbn [for_each].
    unfold body_1d at 1. cbn [interior_points]. unfold step_1d.
    rewrite rhs_1d_short by (rewrite Hu0; simpl; lia). reflexivity. }
  split; [exact Hneg|]. split; [exact Hzero|]. split; [exact Hone|].
  split; [exact Hshort|].
  destruct (Z.leb_spec 1 t_end) as [HT|HT].
  - destruct (Z.eqb_spec t_end 1) as [E1|E1].
    + destruct (Z.eq_dec N 3) as [E3|E3].
      * rewrite Hone by assumption. reflexivity.
      * destruct (run_1d_completes N left_bc right_bc t_end arr) as [traj [k E]];
          try lia. rewrite E. reflexivity.
    + destruct (Z.leb_spec 4 N) as [H4|H4].
      * destruct (run_1d_completes N left_bc right_bc t_end arr) as [traj [k E]];
          try lia. rewrite E. reflexivity.
      * rewrite Hshort by lia. reflexivity.
  - destruct (Z.eq_dec t_end 0) as [E0|E0].
    + rewrite Hzero by assumption. reflexivity.
    + rewrite Hneg by lia. reflexivity.
Qed.

Lemma X11_witness :
  length [10; 100; 10] = Z.to_nat 3 /\ (3 <= 3)%Z /\
  ((2 < 0)%Z -> run_1d 3 10 10 2 [10; 100; 10] = Raise ValueError) /\
  (2%Z = 0%Z -> run_1d 3 10 10 2 [10; 100; 10] = Raise IndexError) /\
  (3%Z = 3%Z -> 2%Z = 1%Z ->
     run_1d 3 10 10 2 [10; 100; 10] =
       Ok ([py_slice [10; 100; 10] 1 (-1)], 0%nat)) /\
  (3%Z = 3%Z -> (2 <= 2)%Z ->
     run_1d 3 10 10 2 [10; 100; 10] = Raise IndexError) /\
  is_ok (run_1d 3 10 10 2 [10; 100; 10]) =
    ((1 <=? 2)%Z && ((2 =? 1)%Z || (4 <=? 3)%Z)).
Proof.
  split; [reflexivity|]. split; [lia|].
  apply (X11_run_1d_outcomes 3 10 10 2 [10; 100; 10]); [reflexivity | lia].
Defined.

(** ** 2D: the matrices and their stencils *)







(** X13.  For [N >= 2] the assembled 2D matrices are [N*N x N*N] with
    exactly five bands: [A] holds [1 + 4r] on the main diagonal and [-r]
    at distances [1] and [N] from it, [M] holds [1 - 4r] and [r] there, and
    both are zero elsewhere; [M] is symmetric; and off the diagonal [A]
    and [M] are the negatives of each other. *)
Theorem X13_A2_M2_pattern (r : Q) (N : Z) :
  (2 <= N)%Z ->
  exists A M : dia_matrix,
    assemble_A2 r N = Ok A /\ assemble_M2 r N = Ok M /\
    dia_shape A = Z.to_nat (N * N) /\ dia_shape M = Z.to_nat (N * N) /\
    forall i j, (i < Z.to_nat (N * N))%nat -> (j < Z.to_nat (N * N))%nat ->
      entry A i j == five_banded N (1 + 4 * r) (- r) i j /\
      entry M i j == five_banded N (1 - 4 * r) r i j /\
      entry M i j == entry M j i /\
      (i <> j -> entry A i j == - entry M i j).
Proof.
  intros HN.
  exists (banded (N * N) (A2_bands r N)), (banded (N * N) (M2_bands r N)).
  split; [apply assemble_A2_closed; lia|].
  split; [apply assemble_M2_closed; lia|].
  split; [reflexivity|]. split; [reflexivity|].
  intros i j Hi Hj.
  assert (HabsN : Z.abs N = N) by lia.
  assert (EA : entry (banded (N * N) (A2_bands r N)) i j ==
               five_banded N (1 + 4 * r) (- r) i j).
  { rewrite entry_A2 by (assumption || lia). rewrite HabsN. reflexivity. }
  assert (EM : forall i j, (i < Z.to_nat (N * N))%nat -> (j < Z.to_nat (N * N))%nat ->
               entry (banded (N * N) (M2_bands r N)) i j ==
               five_banded N (1 - 4 * r) r i j).
  { intros i' j' Hi' Hj'. rewrite entry_M2 by (assumption || lia).
    rewrite HabsN. reflexivity. }
  split; [exact EA|]. split; [apply EM; assumption|].
  split.
  - rewrite !EM by assumption. rewrite five_banded_sym. reflexivity.
  - intros Hij. rewrite EA, EM by assumption. unfold five_banded, dist.
    repeat match goal with
           | |- context [Z.eqb ?a ?b] => destruct (Z.eqb_spec a b); try lia
           end; cbn [orb]; ring.
Qed.

Lemma X13_witness :
  (2 <= 3)%Z /\
  exists A M : dia_matrix,
    assemble_A2 (1 # 2) 3 = Ok A /\ assemble_M2 (1 # 2) 3 = Ok M /\
    dia_shape A = Z.to_nat (3 * 3) /\ dia_shape M = Z.to_nat (3 * 3) /\
    forall i j, (i < Z.to_nat (3 * 3))%nat -> (j < Z.to_nat (3 * 3))%nat ->
      entry A i j == five_banded 3 (1 + 4 * (1 # 2)) (- (1 # 2)) i j /\
      entry M i j == five_banded 3 (1 - 4 * (1 # 2)) (1 # 2) i j /\
      entry M i j == entry M j i /\
      (i <> j -> entry A i j == - entry M i j).
Proof.
  split; [lia|]. apply (X13_A2_M2_pattern (1 # 2) 3). lia.
Defined.

(** ** 2D: maximum norm *)







(** ** 2D: grids, flat fields and how a run ends *)

Lemma nth_chunks (rows cols : nat) (v : vec) (i j : nat) :
  (i < rows)%nat -> (j < cols)%nat ->
  nth j (nth i (chunks rows cols v) []) 0 = nth (i * cols + j) v 0.
Proof.
  revert v i; induction rows as [|rows IH]; intros v i Hi Hj; [lia|].
  cbn [chunks]. destruct i as [|i].
  - cbn [nth]. rewrite nth_firstn.
    destruct (Nat.ltb_spec j cols); [|lia]. reflexivity.
  - cbn [nth]. rewrite IH by lia. rewrite nth_skipn. f_equal. lia.
Qed.

(** X16.  [reshape((N, N))] of a flat field succeeds exactly when the
    field has [N*N] entries, and then gives [N] rows of [N] entries in
    row-major order, [frame[i][j] = v[i*N + j]], whose concatenation is the
    flat field again; any other length raises [ValueError]. *)
Theorem X16_reshape_row_major (N : Z) (v : vec) :
  (0 <= N)%Z ->
  (length v = (Z.to_nat N * Z.to_nat N)%nat ->
     exists f, reshape N v = Ok f /\ length f = Z.to_nat N /\ concat f = v /\
       forall i j, (i < Z.to_nat N)%nat -> (j < Z.to_nat N)%nat ->
         length (nth i f []) = Z.to_nat N /\
         nth j (nth i f []) 0 = nth (i * Z.to_nat N + j) v 0) /\
  (length v <> (Z.to_nat N * Z.to_nat N)%nat -> reshape N v = Raise ValueError).
Proof.
  intros HN. split.
  - intros Hv. exists (chunks (Z.to_nat N) (Z.to_nat N) v).
    split; [apply reshape_ok; assumption|].
    split; [apply chunks_length|].
    split; [apply concat_chunks; exact Hv|].
    intros i j Hi Hj. split.
    + apply chunks_rows; assumption.
    + apply nth_chunks; assumption.
  - intros Hv. unfold reshape.
    destruct (Z.ltb_spec N 0); [reflexivity|].
    destruct (Z.eqb_spec (Z.of_nat (length v)) (N * N)); [nia | reflexivity].
Qed.

Lemma X16_witness :
  (0 <= 2)%Z /\
  (length [1; 2; 3; 4] = (Z.to_nat 2 * Z.to_nat 2)%nat ->
     exists f, reshape 2 [1; 2; 3; 4] = Ok f /\ length f = Z.to_nat 2 /\
       concat f = [1; 2; 3; 4] /\
       forall i j, (i < Z.to_nat 2)%nat -> (j < Z.to_nat 2)%nat ->
         length (nth i f []) = Z.to_nat 2 /\
         nth j (nth i f []) 0 = nth (i * Z.to_nat 2 + j) [1; 2; 3; 4] 0) /\
  (length [1; 2; 3; 4] <> (Z.to_nat 2 * Z.to_nat 2)%nat ->
     reshape 2 [1; 2; 3; 4] = Raise ValueError).
Proof.
  split; [lia|]. apply (X16_reshape_row_major 2 [1; 2; 3; 4]). lia.
Defined.

Lemma nth_flat_map_rows (f : nat -> vec) (cols n : nat) (i j : nat) :
  (forall i, length (f i) = cols) -> (i < n)%nat -> (j < cols)%nat ->
  nth (i * cols + j) (flat_map f (seq 0 n)) 0 = nth j (f i) 0.
Proof.
  intros Hf Hi Hj.
  rewrite <- (nth_chunks n cols (flat_map f (seq 0 n)) i j Hi Hj).
  pose proof (chunks_flat_map f cols (seq 0 n) Hf) as E.
  rewrite length_seq in E. rewrite E.
  rewrite (@nth_map_seq_gen vec _ [] _ _ Hi). reflexivity.
Qed.

(** X17.  The initial 2D field: a negative [N] raises [ValueError];
    for [N >= 0] the flat field has [N*N] entries and holds, at flat index
    [i*N + j], the value [10] where [mask[i, j]] is set and [0] where it is
    not. *)
Theorem X17_initial_values_flat (N : Z) (mask : nat -> nat -> bool) :
  ((N < 0)%Z -> initial_values N mask = Raise ValueError) /\
  ((0 <= N)%Z ->
     exists v0, initial_values N mask = Ok v0 /\
       length v0 = (Z.to_nat N * Z.to_nat N)%nat /\
       forall i j, (i < Z.to_nat N)%nat -> (j < Z.to_nat N)%nat ->
         nth (i * Z.to_nat N + j) v0 0 = if mask i j then 10 else 0).
Proof.
  split.
  - intros HN. unfold initial_values.
    destruct (Z.ltb_spec N 0); [reflexivity | lia].
  - intros HN. eexists. split; [apply initial_values_ok; exact HN|].
    split; [apply initial_values_length|].
    intros i j Hi Hj.
    rewrite (nth_flat_map_rows _ (Z.to_nat N)); try assumption.
    + unfold mask_row. rewrite nth_map_seq by exact Hj. reflexivity.
    + intros i'. unfold mask_row. rewrite length_map, length_seq. reflexivity.
Qed.

(** X18.  How a 2D run ends, whatever the solver: [N <= -2] raises
    [ValueError] (the matrices assemble, [np.zeros((N, N))] fails), and
    for [N >= 2] a negative [steps] raises [ValueError] in [np.zeros],
    [steps = 0] raises [IndexError] at [arr[0] = ...], and [steps = 1]
    records the initial grid and calls the solver not once. *)
Theorem X18_run_2d_outcomes (cgs : dia_matrix -> vec -> vec * Z) (r : Q) (N : Z)
    (mask : nat -> nat -> bool) (steps : Z) :
  ((N <= -2)%Z -> run_2d cgs r N mask steps = Raise ValueError) /\
  ((2 <= N)%Z -> (steps < 0)%Z -> run_2d cgs r N mask steps = Raise ValueError) /\
  ((2 <= N)%Z -> steps = 0%Z -> run_2d cgs r N mask steps = Raise IndexError) /\
  ((2 <= N)%Z -> steps = 1%Z ->
     run_2d cgs r N mask steps =
       Ok ([map (mask_row mask (Z.to_nat N)) (seq 0 (Z.to_nat N))], 0%nat)).
Proof.
  split; [|split; [|split]].
  - intros HN. unfold run_2d.
    rewrite assemble_A2_closed by lia. cbn [bind].
    unfold initial_values. destruct (Z.ltb_spec N 0); [reflexivity | lia].
  - intros HN Hs. unfold run_2d.
    rewrite assemble_A2_closed by lia. cbn [bind].
    rewrite initial_values_ok by lia. cbn [bind].
    rewrite assemble_M2_closed by lia. cbn [bind].
    unfold np_zeros3. destruct (Z.ltb_spec steps 0); [reflexivity | lia].
  - intros HN ->. unfold run_2d.
    rewrite assemble_A2_closed by lia. cbn [bind].
    rewrite initial_values_ok by lia. cbn [bind].
    rewrite assemble_M2_closed by lia. cbn [bind].
    unfold np_zeros3. change (0 <? 0)%Z with false.
    destruct (Z.ltb_spec N 0); [lia|]. cbn [orb bind].
    rewrite reshape_ok by (try lia; apply initial_values_length). cbn [bind].
    reflexivity.
  - intros HN ->. unfold run_2d.
    rewrite assemble_A2_closed by lia. cbn [bind].
    rewrite initial_values_ok by lia. cbn [bind].
    rewrite assemble_M2_closed by lia. cbn [bind].
    unfold np_zeros3. change (1 <? 0)%Z with false.
    destruct (Z.ltb_spec N 0); [lia|]. cbn [orb bind].
    rewrite reshape_ok by (try lia; apply initial_values_length). cbn [bind].
    rewrite initial_frame.
    change (Z.to_nat 1) with 1%nat. cbn [repeat].
    rewrite set_frame_ok by (cbn [length]; lia). cbn [bind].
    reflexivity.
Qed.

(** ** 2D: what a run preserves *)







(** ** 2D: sum of squares *)

Lemma sq_nonneg (a : Q) : 0 <= a * a.
Proof. nra. Qed.
















(** ** 2D: steady states *)





(** ** Animations and thumbnail *)

Lemma in_py_range_step (b step f : Z) :
  (0 < step)%Z -> In f (py_range_step 0 b step) ->
  (0 <= f < b)%Z /\ (f mod step = 0)%Z.
Proof.
  intros Hs Hin. unfold py_range_step in Hin. apply in_map_iff in Hin.
  destruct Hin as [k [<- Hk]]. apply in_seq in Hk.
  pose proof (Z.mul_div_le (b - 0 + step - 1) step Hs) as Hd.
  split.
  - split; [nia|].
    assert (Hpos : (0 < (b - 0 + step - 1) / step)%Z) by lia.
    assert (Z.of_nat k + 1 <= (b - 0 + step - 1) / step)%Z by lia.
    nia.
  - rewrite Z.add_0_l, Z.mul_comm. apply Z_mod_mult.
Qed.

Lemma py_range_step_length (b step : Z) :
  length (py_range_step 0 b step) = Z.to_nat ((b + step - 1) / step).
Proof.
  unfold py_range_step. rewrite length_map, length_seq, Z.sub_0_r. reflexivity.
Qed.

Lemma get_row_ok {A : Type} (d : A) (st : list A) (i : Z) :
  (0 <= i < Z.of_nat (length st))%Z -> get_row d st i = Ok (nth (Z.to_nat i) st d).
Proof.
  intros Hi. unfold get_row. rewrite py_pos_nonneg by lia.
  destruct (Z.ltb_spec i (Z.of_nat (length st))); [reflexivity | lia].
Qed.

(** X23.  After a completed 1D run every frame of
    [range(0, len(storage), 20)] is a multiple of [20] and a valid row of
    [storage], so that [update] draws the [N - 2] values of that snapshot
    at abscissae [0 .. N - 3]; there are [ceil(t_end / 20)] frames; the
    thumbnail shows the last snapshot, [storage[t_end - 1]]; and frame [0]
    draws at abscissa [j] the cell that [init] draws at abscissa [j + 1]. *)
Theorem X23_animation_1d (N : Z) (left_bc right_bc : Q) (t_end : Z) (arr : vec)
    (storage : list vec) (k : nat) :
  length arr = Z.to_nat N ->
  run_1d N left_bc right_bc t_end arr = Ok (storage, k) ->
  (forall f, In f (frames_1d storage) ->
     (0 <= f < t_end)%Z /\ (f mod 20 = 0)%Z /\
     update storage f =
       Ok (np_arange (Z.to_nat (N - 2)), nth (Z.to_nat f) storage [])) /\
  length (frames_1d storage) = Z.to_nat ((t_end + 19) / 20) /\
  thumbnail_data storage = Ok (nth (Z.to_nat (t_end - 1)) storage []) /\
  (exists x0 y0,
     update storage 0 = Ok (x0, y0) /\
     length x0 = Z.to_nat (N - 2) /\
     length (fst (init N arr)) = Z.to_nat N /\
     forall j, (j < Z.to_nat (N - 2))%nat ->
       nth j x0 0 == inject_Z (Z.of_nat j) /\
       nth j (fst (init N arr)) 0 == inject_Z (Z.of_nat j) /\
       nth j y0 0 = nth (S j) (snd (init N arr)) 0).
Proof.
  intros Harr Hrun.
  apply run_1d_completed in Hrun; [|exact Harr].
  destruct Hrun as [HN [HT [Hk [Hlen [Hfirst [Hrows _]]]]]].
  assert (HlenZ : Z.of_nat (length storage) = t_end) by lia.
  split; [|split; [|split]].
  - intros f Hf. unfold frames_1d in Hf. rewrite HlenZ in Hf.
    apply in_py_range_step in Hf; [|lia]. destruct Hf as [Hf Hm].
    split; [exact Hf|]. split; [exact Hm|].
    unfold update. rewrite (@get_row_ok vec [] storage f) by lia. cbn [bind].
    rewrite Hrows by lia. reflexivity.
  - unfold frames_1d. rewrite py_range_step_length, HlenZ.
    f_equal. f_equal. lia.
  - unfold thumbnail_data, get_row. rewrite py_pos_neg by lia.
    destruct (Z.leb_spec 0 (-1 + Z.of_nat (length storage))); [|lia].
    cbn [bind]. f_equal. f_equal. lia.
  - exists (np_arange (Z.to_nat (N - 2))), (nth 0 storage []).
    split.
    { unfold update. rewrite (@get_row_ok vec [] storage 0) by lia. cbn [bind].
      change (Z.to_nat 0) with 0%nat. rewrite Hrows by lia. reflexivity. }
    unfold init, np_arange. cbn [fst snd].
    split; [rewrite length_map, length_seq; reflexivity|].
    split; [rewrite length_map, length_seq; reflexivity|].
    intros j Hj.
    split; [rewrite nth_map_seq by exact Hj; reflexivity|].
    split; [rewrite nth_map_seq by lia; reflexivity|].
    rewrite Hfirst. apply nth_interior. lia.
Qed.

Lemma X23_witness :
  exists (storage : list vec) (k : nat),
    length [10; 0; 100; 0; 10] = Z.to_nat 5 /\
    run_1d 5 10 10 3 [10; 0; 100; 0; 10] = Ok (storage, k) /\
    (forall f, In f (frames_1d storage) ->
       (0 <= f < 3)%Z /\ (f mod 20 = 0)%Z /\
       update storage f =
         Ok (np_arange (Z.to_nat (5 - 2)), nth (Z.to_nat f) storage [])) /\
    length (frames_1d storage) = Z.to_nat ((3 + 19) / 20) /\
    thumbnail_data storage = Ok (nth (Z.to_nat (3 - 1)) storage []) /\
    (exists x0 y0,
       update storage 0 = Ok (x0, y0) /\
       length x0 = Z.to_nat (5 - 2) /\
       length (fst (init 5 [10; 0; 100; 0; 10])) = Z.to_nat 5 /\
       forall j, (j < Z.to_nat (5 - 2))%nat ->
         nth j x0 0 == inject_Z (Z.of_nat j) /\
         nth j (fst (init 5 [10; 0; 100; 0; 10])) 0 == inject_Z (Z.of_nat j) /\
         nth j y0 0 = nth (S j) (snd (init 5 [10; 0; 100; 0; 10])) 0).
Proof.
  eexists. eexists.
  split; [reflexivity|].
  split; [vm_compute; reflexivity|].
  eapply (X23_animation_1d 5 10 10 3 [10; 0; 100; 0; 10]);
    [reflexivity | vm_compute; reflexivity].
Defined.

(** X24.  After a completed 2D run every frame of
    [range(0, len(arr), 25)] is a multiple of [25] and a valid index of
    [arr], where it finds an [N x N] grid, the shape of the mesh it is
    plotted on; there are [ceil(steps / 25)] frames. *)
Theorem X24_animation_2d (cgs : dia_matrix -> vec -> vec * Z) (r : Q) (N : Z)
    (mask : nat -> nat -> bool) (steps : Z) (arr : list (list vec)) (k : nat) :
  run_2d cgs r N mask steps = Ok (arr, k) ->
  (forall f, In f (frames_2d arr) ->
     (0 <= f < steps)%Z /\ (f mod 25 = 0)%Z /\
     exists frame,
       get_row (A := list vec) [] arr f = Ok frame /\ frame = nth (Z.to_nat f) arr [] /\
       length frame = Z.to_nat N /\
       forall i, (i < Z.to_nat N)%nat -> length (nth i frame []) = Z.to_nat N) /\
  length (frames_2d arr) = Z.to_nat ((steps + 24) / 25).
Proof.
  intros Hrun.
  pose proof (run_2d_frames _ _ _ _ _ _ _ Hrun) as Hfr.
  apply run_2d_completed in Hrun.
  destruct Hrun as [HN [HT [Hk [Hlen _]]]].
  assert (HlenZ : Z.of_nat (length arr) = steps) by lia.
  split.
  - intros f Hf. unfold frames_2d in Hf. rewrite HlenZ in Hf.
    apply in_py_range_step in Hf; [|lia]. destruct Hf as [Hf Hm].
    split; [exact Hf|]. split; [exact Hm|].
    exists (nth (Z.to_nat f) arr []).
    split; [apply (@get_row_ok (list vec) [] arr f); lia|]. split; [reflexivity|].
    destruct (Hfr (Z.to_nat f)) as [v [Ev Hlv]]; [lia|].
    rewrite Ev. split; [apply chunks_length|].
    intros i Hi. apply chunks_rows; assumption.
  - unfold frames_2d. rewrite py_range_step_length, HlenZ.
    f_equal. f_equal. lia.
Qed.

Lemma X24_witness :
  exists (arr : list (list vec)) (k : nat),
    run_2d cgs_exact (1 # 2) 3 mask_centre 3 = Ok (arr, k) /\
    (forall f, In f (frames_2d arr) ->
       (0 <= f < 3)%Z /\ (f mod 25 = 0)%Z /\
       exists frame,
         get_row (A := list vec) [] arr f = Ok frame /\
         frame = nth (Z.to_nat f) arr [] /\
         length frame = Z.to_nat 3 /\
         forall i, (i < Z.to_nat 3)%nat ->
           length (nth i frame []) = Z.to_nat 3) /\
    length (frames_2d arr) = Z.to_nat ((3 + 24) / 25).
Proof.
  eexists. eexists.
  split; [vm_compute; reflexivity|].
  eapply (X24_animation_2d cgs_exact (1 # 2) 3 mask_centre 3).
  vm_compute; reflexivity.
Defined.

(** ** Magnetization and first principal component *)

Lemma mapM_ok {A B : Type} (f : A -> result B) (g : A -> B) (l : list A) :
  (forall x, In x l -> f x = Ok (g x)) -> mapM f l = Ok (map g l).
Proof.
  induction l as [|a l IH]; intros H; [reflexivity|].
  cbn [mapM map]. rewrite (H a) by (left; reflexivity). cbn [bind].
  rewrite IH by (intros x Hx; apply H; right; exact Hx). reflexivity.
Qed.

Lemma in_insert_unique (t x : Q) (l : vec) :
  In x (insert_unique t l) -> x = t \/ In x l.
Proof.
  induction l as [|h tl IH]; cbn [insert_unique].
  - intros [<-|[]]. left; reflexivity.
  - destruct (Qeq_bool t h); [intros H; right; exact H|].
    destruct (Qle_bool t h).
    + intros [<-|H]; [left; reflexivity | right; exact H].
    + intros [<-|H]; [right; left; reflexivity|].
      destruct (IH H) as [->|H']; [left; reflexivity | right; right; exact H'].
Qed.

Lemma in_np_unique (x : Q) (v : vec) : In x (np_unique v) -> In x v.
Proof.
  induction v as [|a v IH]; cbn [np_unique fold_right]; [intros []|].
  intros H. apply in_insert_unique in H. destruct H as [->|H].
  - left; reflexivity.
  - right. apply IH. exact H.
Qed.

Lemma select_nonempty {A : Type} (v : list A) (temps : vec) (t : Q) :
  length v = length temps -> In t temps -> select v temps t <> [].
Proof.
  unfold select. revert temps; induction v as [|a v IH]; intros [|h temps] Hl Hin;
    try discriminate; try (destruct Hin; fail).
  cbn [combine filter snd].
  destruct (Qeq_bool h t) eqn:E; cbn [map]; [discriminate|].
  destruct Hin as [->|Hin].
  - rewrite (proj2 (Qeq_bool_iff t t) (Qeq_refl t)) in E. discriminate.
  - apply IH; [simpl in Hl; lia | exact Hin].
Qed.

Lemma select_in {A : Type} (v : list A) (temps : vec) (t : Q) (x : A) :
  In x (select v temps t) -> In x v.
Proof.
  unfold select. intros H. apply in_map_iff in H.
  destruct H as [[a q] [<- H]]. apply filter_In in H. destruct H as [H _].
  apply in_combine_l in H. exact H.
Qed.

Lemma np_mean_some (v : vec) :
  v <> [] -> np_mean v = Some (Qsum v / inject_Z (Z.of_nat (length v))).
Proof. destruct v; [congruence | reflexivity]. Qed.

Lemma length_pos_Q (n : nat) : (0 < n)%nat -> 0 < inject_Z (Z.of_nat n).
Proof. intros H. unfold Qlt, inject_Z; simpl. lia. Qed.

Lemma Qsum_bounds (v : vec) (lo hi : Q) :
  (forall x, In x v -> lo <= x <= hi) ->
  inject_Z (Z.of_nat (length v)) * lo <= Qsum v <=
  inject_Z (Z.of_nat (length v)) * hi.
Proof.
  induction v as [|a v IH]; intros H.
  - cbn [length Qsum fold_right]. change (inject_Z (Z.of_nat 0)) with 0. lra.
  - cbn [length Qsum fold_right]. fold (Qsum v).
    rewrite Nat2Z.inj_succ. unfold Z.succ. rewrite inject_Z_plus.
    change (inject_Z 1) with 1.
    pose proof (H a (or_introl eq_refl)).
    pose proof (IH (fun x Hx => H x (or_intror Hx))). lra.
Qed.

Lemma mean_bounds (v : vec) (lo hi : Q) :
  (0 < length v)%nat -> (forall x, In x v -> lo <= x <= hi) ->
  lo <= Qsum v / inject_Z (Z.of_nat (length v)) <= hi.
Proof.
  intros Hn H. pose proof (Qsum_bounds v lo hi H) as [H1 H2].
  pose proof (length_pos_Q _ Hn) as Hp.
  split.
  - apply Qle_shift_div_l; [exact Hp|]. lra.
  - apply Qle_shift_div_r; [exact Hp|]. lra.
Qed.

Lemma mag_mean_closed (configs : list vec) (temps : vec) :
  length configs = length temps ->
  mag_mean configs temps =
  Ok (map (fun t => np_mean (select (magnetization configs) temps t))
          (np_unique temps)).
Proof.
  intros Hl. unfold mag_mean. apply mapM_ok. intros t _.
  unfold mask_select, magnetization. rewrite length_map, Hl, Nat.eqb_refl.
  reflexivity.
Qed.

Lemma broadcast_mul_same (row a : vec) :
  length row = length a ->
  broadcast_mul row a = Ok (map (fun p => fst p * snd p) (combine row a)).
Proof. intros H. unfold broadcast_mul. rewrite H, Nat.eqb_refl. reflexivity. Qed.

Lemma aux_closed (configs : list vec) (temps pc1 : vec) :
  length configs = length temps ->
  (forall row, In row configs -> length row = length pc1) ->
  aux configs temps pc1 =
  Ok (map (fun t => np_mean (map (fun row => Qabs (dot row (aux1 pc1)))
                                 (select configs temps t)))
          (np_unique temps)).
Proof.
  intros Hl Hrows. unfold aux. apply mapM_ok. intros t _.
  unfold mask_select. rewrite Hl, Nat.eqb_refl. cbn [bind].
  rewrite (mapM_ok _ (fun row => map (fun p => fst p * snd p)
                                     (combine row (aux1 pc1)))).
  - cbn [bind]. rewrite map_map. reflexivity.
  - intros row Hrow. apply broadcast_mul_same.
    unfold aux1. rewrite length_map. apply Hrows.
    apply (select_in _ _ _ _ Hrow).
Qed.

(** X25.  Both curves of the comparison are defined at every
    temperature: for [N] snapshots of [28*28] spins of magnitude at most
    one with [N] temperatures, and a first component of [28*28] entries
    and norm at most one, [mag_mean] and [aux] raise nothing, have one
    entry per distinct temperature, every distinct temperature is one of
    [temps], and no entry is [nan], because no group [temps == t] is
    empty. *)
Theorem X25_temperature_groups_defined (configs : list vec) (temps pc1 : vec) :
  length configs = length temps ->
  (forall row, In row configs ->
     length row = n_sites /\ forall c, In c row -> Qabs c <= 1) ->
  length pc1 = n_sites -> dot pc1 pc1 <= 1 ->
  exists mm au,
    mag_mean configs temps = Ok mm /\ aux configs temps pc1 = Ok au /\
    length mm = length (np_unique temps) /\
    length au = length (np_unique temps) /\
    (forall t, In t (np_unique temps) -> In t temps) /\
    forall k, (k < length (np_unique temps))%nat ->
      nth k mm None <> None /\ nth k au None <> None.
Proof.
  intros Hl Hrows Hp _.
  assert (Hrows' : forall row, In row configs -> length row = length pc1).
  { intros row Hrow. rewrite Hp. apply (Hrows row Hrow). }
  eexists. eexists.
  split; [apply mag_mean_closed; exact Hl|].
  split; [apply aux_closed; assumption|].
  split; [apply length_map|]. split; [apply length_map|].
  split; [intros t; apply in_np_unique|].
  intros k Hk.
  assert (Hin : In (nth k (np_unique temps) 0) temps).
  { apply in_np_unique. apply nth_In. exact Hk. }
  split.
  - rewrite (nth_indep _ None (np_mean (select (magnetization configs) temps 0)))
      by (rewrite length_map; exact Hk).
    rewrite (map_nth (fun t => np_mean (select (magnetization configs) temps t))).
    rewrite np_mean_some; [discriminate|].
    apply select_nonempty; [|exact Hin].
    unfold magnetization. rewrite length_map. exact Hl.
  - rewrite (nth_indep _ None
               (np_mean (map (fun row => Qabs (dot row (aux1 pc1)))
                             (select configs temps 0))))
      by (rewrite length_map; exact Hk).
    rewrite (map_nth (fun t => np_mean (map (fun row => Qabs (dot row (aux1 pc1)))
                                            (select configs temps t)))).
    rewrite np_mean_some; [discriminate|].
    intros E. apply map_eq_nil in E. revert E.
    apply select_nonempty; assumption.
Qed.

Lemma X25_witness :
  length [repeat 1 n_sites; repeat (-1) n_sites; repeat 1 n_sites] =
    length [2; 3; 2] /\
  (forall row, In row [repeat 1 n_sites; repeat (-1) n_sites; repeat 1 n_sites] ->
     length row = n_sites /\ forall c, In c row -> Qabs c <= 1) /\
  length (1 :: repeat 0 (n_sites - 1)) = n_sites /\
  dot (1 :: repeat 0 (n_sites - 1)) (1 :: repeat 0 (n_sites - 1)) <= 1 /\
  exists mm au,
    mag_mean [repeat 1 n_sites; repeat (-1) n_sites; repeat 1 n_sites]
             [2; 3; 2] = Ok mm /\
    aux [repeat 1 n_sites; repeat (-1) n_sites; repeat 1 n_sites] [2; 3; 2]
        (1 :: repeat 0 (n_sites - 1)) = Ok au /\
    length mm = length (np_unique [2; 3; 2]) /\
    length au = length (np_unique [2; 3; 2]) /\
    (forall t, In t (np_unique [2; 3; 2]) -> In t [2; 3; 2]) /\
    forall k, (k < length (np_unique [2%Q; 3%Q; 2%Q]))%nat ->
      nth k mm None <> None /\ nth k au None <> None.
Proof.
  assert (Hrows : forall row,
            In row [repeat 1 n_sites; repeat (-1) n_sites; repeat 1 n_sites] ->
            length row = n_sites /\ forall c, In c row -> Qabs c <= 1).
  { intros row [<-|[<-|[<-|[]]]]; (split; [apply repeat_length|]);
      intros c Hc; apply repeat_spec in Hc; rewrite Hc;
      vm_compute; discriminate. }
  assert (Hn : dot (1 :: repeat 0 (n_sites - 1)) (1 :: repeat 0 (n_sites - 1)) <= 1)
    by (vm_compute; discriminate).
  split; [reflexivity|]. split; [exact Hrows|]. split; [reflexivity|].
  split; [exact Hn|].
  apply (X25_temperature_groups_defined
           [repeat 1 n_sites; repeat (-1) n_sites; repeat 1 n_sites] [2; 3; 2]
           (1 :: repeat 0 (n_sites - 1)));
    [reflexivity | exact Hrows | reflexivity | exact Hn].
Defined.

Lemma magnetization_row_bounds (row : vec) :
  (0 < length row)%nat -> (forall c, In c row -> Qabs c <= 1) ->
  0 <= Qabs (Qsum row / inject_Z (Z.of_nat (length row))) <= 1.
Proof.
  intros Hn Hc. split; [apply Qabs_nonneg|].
  apply Qabs_Qle_condition.
  apply (mean_bounds row (- (1)) 1 Hn).
  intros c Hin. apply Qabs_Qle_condition. apply Hc. exact Hin.
Qed.

(** X26.  For snapshots of [28*28] spins of magnitude at most one,
    every magnetization [|mean(config)|] lies in [[0, 1]], and so does
    every entry of [mag_mean]. *)
Theorem X26_magnetization_range (configs : list vec) (temps : vec) :
  length configs = length temps ->
  (forall row, In row configs ->
     length row = n_sites /\ forall c, In c row -> Qabs c <= 1) ->
  (forall i, (i < length configs)%nat ->
     0 <= nth i (magnetization configs) 0 <= 1) /\
  exists mm,
    mag_mean configs temps = Ok mm /\
    forall k, (k < length mm)%nat ->
      exists m, nth k mm None = Some m /\ 0 <= m <= 1.
Proof.
  intros Hl Hrows.
  assert (Hmag : forall m, In m (magnetization configs) -> 0 <= m <= 1).
  { intros m Hm. unfold magnetization in Hm. apply in_map_iff in Hm.
    destruct Hm as [row [<- Hrow]]. destruct (Hrows row Hrow) as [Hlen Hc].
    apply magnetization_row_bounds; [|exact Hc].
    rewrite Hlen. unfold n_sites. lia. }
  split.
  - intros i Hi. apply Hmag. apply nth_In.
    unfold magnetization. rewrite length_map. exact Hi.
  - eexists. split; [apply mag_mean_closed; exact Hl|].
    intros k Hk. rewrite length_map in Hk.
    rewrite (nth_indep _ None (np_mean (select (magnetization configs) temps 0)))
      by (rewrite length_map; exact Hk).
    rewrite (map_nth (fun t => np_mean (select (magnetization configs) temps t))).
    set (t := nth k (np_unique temps) 0).
    assert (Hne : select (magnetization configs) temps t <> []).
    { apply select_nonempty.
      - unfold magnetization. rewrite length_map. exact Hl.
      - apply in_np_unique. apply nth_In. exact Hk. }
    rewrite np_mean_some by exact Hne.
    eexists. split; [reflexivity|].
    apply mean_bounds.
    + destruct (select (magnetization configs) temps t); [congruence | simpl; lia].
    + intros x Hx. apply Hmag. apply (select_in _ _ _ _ Hx).
Qed.

Lemma X26_witness :
  length [repeat 1 n_sites; repeat (-1) n_sites] = length [2; 3] /\
  (forall row, In row [repeat 1 n_sites; repeat (-1) n_sites] ->
     length row = n_sites /\ forall c, In c row -> Qabs c <= 1) /\
  (forall i, (i < 2)%nat ->
     0 <= nth i (magnetization [repeat 1 n_sites; repeat (-1) n_sites]) 0 <= 1) /\
  exists mm,
    mag_mean [repeat 1 n_sites; repeat (-1) n_sites] [2; 3] = Ok mm /\
    forall k, (k < length mm)%nat ->
      exists m, nth k mm None = Some m /\ 0 <= m <= 1.
Proof.
  assert (Hrows : forall row, In row [repeat 1 n_sites; repeat (-1) n_sites] ->
                    length row = n_sites /\ forall c, In c row -> Qabs c <= 1).
  { intros row [<-|[<-|[]]]; (split; [apply repeat_length|]);
      intros c Hc; apply repeat_spec in Hc; rewrite Hc;
      vm_compute; discriminate. }
  split; [reflexivity|]. split; [exact Hrows|].
  apply (X26_magnetization_range [repeat 1 n_sites; repeat (-1) n_sites] [2; 3]);
    [reflexivity | exact Hrows].
Defined.

Lemma spin_product_bound (c q : Q) :
  Qabs c <= 1 ->
  - ((1 # 56) + 14 * (q * q)) <= c * q <= (1 # 56) + 14 * (q * q).
Proof.
  intros Hc. apply Qabs_Qle_condition in Hc. destruct Hc as [Hc1 Hc2].
  assert (Hcc : c * c <= 1).
  { assert (H : 0 <= (1 - c) * (1 + c)) by (apply Qmult_le_0_compat; lra).
    assert (E : (1 - c) * (1 + c) == 1 - c * c) by ring.
    rewrite E in H. lra. }
  pose proof (sq_nonneg (c * (1 # 28) - q)) as H1.
  pose proof (sq_nonneg (c * (1 # 28) + q)) as H2.
  assert (E1 : (c * (1 # 28) - q) * (c * (1 # 28) - q) ==
               (1 # 784) * (c * c) - (1 # 14) * (c * q) + q * q) by ring.
  assert (E2 : (c * (1 # 28) + q) * (c * (1 # 28) + q) ==
               (1 # 784) * (c * c) + (1 # 14) * (c * q) + q * q) by ring.
  rewrite E1 in H1. rewrite E2 in H2.
  split; lra.
Qed.

Lemma projection_bound (row p : vec) :
  length row = length p -> (forall c, In c row -> Qabs c <= 1) ->
  - (inject_Z (Z.of_nat (length row)) * (1 # 56) + 14 * dot p p) <= dot row p <=
  inject_Z (Z.of_nat (length row)) * (1 # 56) + 14 * dot p p.
Proof.
  unfold dot. revert p; induction row as [|c row IH]; intros [|q p] Hl Hc;
    try discriminate.
  - cbn [length combine map Qsum fold_right]. change (inject_Z (Z.of_nat 0)) with 0.
    lra.
  - cbn [length combine map Qsum fold_right fst snd].
    fold (Qsum (map (fun p => fst p * snd p) (combine row p))).
    fold (Qsum (map (fun p => fst p * snd p) (combine p p))).
    rewrite Nat2Z.inj_succ. unfold Z.succ. rewrite inject_Z_plus.
    change (inject_Z 1) with 1.
    pose proof (IH p ltac:(simpl in Hl; lia) (fun x Hx => Hc x (or_intror Hx))) as H.
    pose proof (spin_product_bound c q (Hc c (or_introl eq_refl))) as H'.
    lra.
Qed.

Lemma dot_aux1 (row p : vec) :
  length row = length p -> dot row (aux1 p) == dot row p / 28.
Proof.
  unfold dot, aux1. revert p; induction row as [|c row IH]; intros [|q p] Hl;
    try discriminate.
  - cbn [combine map Qsum fold_right]. field.
  - cbn [combine map Qsum fold_right fst snd].
    fold (Qsum (map (fun p => fst p * snd p)
                    (combine row (map (fun x => x / 28) p)))).
    fold (Qsum (map (fun p => fst p * snd p) (combine row p))).
    rewrite IH by (simpl in Hl; lia). field.
Qed.

Lemma unit_projection (row p : vec) :
  length row = n_sites -> length p = n_sites ->
  (forall c, In c row -> Qabs c <= 1) -> dot p p <= 1 ->
  0 <= Qabs (dot row (aux1 p)) <= 1.
Proof.
  intros Hr Hp Hc Hn. split; [apply Qabs_nonneg|].
  rewrite dot_aux1 by congruence.
  pose proof (projection_bound row p ltac:(congruence) Hc) as [H1 H2].
  rewrite Hr in H1, H2.
  change (inject_Z (Z.of_nat n_sites)) with (784 # 1) in H1, H2.
  apply Qabs_Qle_condition. split.
  - apply Qle_shift_div_l; [reflexivity|]. lra.
  - apply Qle_shift_div_r; [reflexivity|]. lra.
Qed.

(** X28.  For snapshots of [28*28] spins of magnitude at most one and
    a first component of [28*28] entries and norm at most one, every entry
    of [aux] lies in [[0, 1]]: the division by [28] puts the projection on
    the scale of the magnetization. *)
Theorem X28_projection_range (configs : list vec) (temps pc1 : vec) :
  length configs = length temps ->
  (forall row, In row configs ->
     length row = n_sites /\ forall c, In c row -> Qabs c <= 1) ->
  length pc1 = n_sites -> dot pc1 pc1 <= 1 ->
  exists au,
    aux configs temps pc1 = Ok au /\
    forall k, (k < length au)%nat ->
      exists a, nth k au None = Some a /\ 0 <= a <= 1.
Proof.
  intros Hl Hrows Hp Hn.
  eexists. split.
  { apply aux_closed; [exact Hl|].
    intros row Hrow. rewrite Hp. apply (Hrows row Hrow). }
  intros k Hk. rewrite length_map in Hk.
  rewrite (nth_indep _ None
             (np_mean (map (fun row => Qabs (dot row (aux1 pc1)))
                           (select configs temps 0))))
    by (rewrite length_map; exact Hk).
  rewrite (map_nth (fun t => np_mean (map (fun row => Qabs (dot row (aux1 pc1)))
                                          (select configs temps t)))).
  set (t := nth k (np_unique temps) 0).
  assert (Hne : select configs temps t <> []).
  { apply select_nonempty; [exact Hl|].
    apply in_np_unique. apply nth_In. exact Hk. }
  rewrite np_mean_some by (intros E; apply map_eq_nil in E; exact (Hne E)).
  eexists. split; [reflexivity|].
  apply mean_bounds.
  - rewrite length_map. destruct (select configs temps t); [congruence | simpl; lia].
  - intros x Hx. apply in_map_iff in Hx. destruct Hx as [row [<- Hrow]].
    apply select_in in Hrow. destruct (Hrows row Hrow) as [Hlr Hc].
    apply unit_projection; assumption.
Qed.

Lemma X28_witness :
  length [repeat 1 n_sites; repeat (-1) n_sites] = length [2; 3] /\
  (forall row, In row [repeat 1 n_sites; repeat (-1) n_sites] ->
     length row = n_sites /\ forall c, In c row -> Qabs c <= 1) /\
  length (1 :: repeat 0 (n_sites - 1)) = n_sites /\
  dot (1 :: repeat 0 (n_sites - 1)) (1 :: repeat 0 (n_sites - 1)) <= 1 /\
  exists au,
    aux [repeat 1 n_sites; repeat (-1) n_sites] [2; 3]
        (1 :: repeat 0 (n_sites - 1)) = Ok au /\
    forall k, (k < length au)%nat ->
      exists a, nth k au None = Some a /\ 0 <= a <= 1.
Proof.
  assert (Hrows : forall row, In row [repeat 1 n_sites; repeat (-1) n_sites] ->
                    length row = n_sites /\ forall c, In c row -> Qabs c <= 1).
  { intros row [<-|[<-|[]]]; (split; [apply repeat_length|]);
      intros c Hc; apply repeat_spec in Hc; rewrite Hc;
      vm_compute; discriminate. }
  assert (Hn : dot (1 :: repeat 0 (n_sites - 1)) (1 :: repeat 0 (n_sites - 1)) <= 1)
    by (vm_compute; discriminate).
  split; [reflexivity|]. split; [exact Hrows|]. split; [reflexivity|].
  split; [exact Hn|].
  apply (X28_projection_range [repeat 1 n_sites; repeat (-1) n_sites] [2; 3]
           (1 :: repeat 0 (n_sites - 1)));
    [reflexivity | exact Hrows | reflexivity | exact Hn].
Defined.
